(** * Spider-Man villain timeline: the name extractor and the aggregator

    A shallow embedding of the units that carry decision logic in the
    repository:

    - [src/scraper/marvelScraper.ts]: [parseAntagonistsFromHtml] on a parsed
      page, with the callback that it runs on every list item of an
      antagonist list (link scan, arrow filter, text fallback), and the
      loop of [scrapeAmazingSpiderManVol1] over the issues;
    - [src/utils/dataProcessor.ts]: [normalizeVillainName],
      [generateVillainId], [processVillainData] with [generateTimeline] and
      [generateStats], and [serializeProcessedData];
    - [src/visualization/d3Graph.ts]: [getVillainColor], [formatDataForD3]
      and [generateD3Config].

    JavaScript strings are sequences of UTF-16 code units, numbers that hold
    issue keys and counters are integers (exact as long as they are safe
    integers), the sum and the mean of the frequencies are doubles, and a
    [Map] is an association list in insertion order. [processVillainData]
    is given three times: as a function of the records and of the clock
    reading ([DataProcessor]), on run-time values that need not have the
    declared type ([Untyped]), and on a heap of objects that it mutates in
    place, with a clock that it reads ([Stateful]). *)

From Stdlib Require Import List ZArith NArith QArith Qround Qabs Qpower.
From Stdlib Require Import Lia Lqa Bool.
From Corelib Require SpecFloat.
From Stdlib Require Import String Ascii Permutation Sorted.
From Stdlib Require Import DecimalString DecimalPos DecimalZ.
Import ListNotations.

Close Scope Q_scope.
Local Open Scope Z_scope.

Set Implicit Arguments.
Set Warnings "-register-all".

(* ================================================================== *)
(** ** JavaScript strings *)

Module JsString.

(** A string value: its UTF-16 code units. [length] is the number of code
    units, as [String.prototype.length]. *)
Definition t := list N.

(** ASCII literals. *)
Definition lit (s : string) : t := map N_of_ascii (list_ascii_of_string s).

Definition eqb (a b : t) : bool :=
  if list_eq_dec N.eq_dec a b then true else false.

(** Truthiness of a string: [s] is truthy when it is not empty. *)
Definition truthy (s : t) : bool :=
  match s with [] => false | _ :: _ => true end.

(** ECMAScript WhiteSpace and LineTerminator code points: what [trim]
    strips and what [\s] matches. *)
Definition isWhiteSpace (c : N) : bool :=
  (((0x09 <=? c) && (c <=? 0x0D)) || (c =? 0x20) || (c =? 0xA0)
   || (c =? 0x1680) || ((0x2000 <=? c) && (c <=? 0x200A))
   || (c =? 0x2028) || (c =? 0x2029) || (c =? 0x202F)
   || (c =? 0x205F) || (c =? 0x3000) || (c =? 0xFEFF))%N.

Fixpoint dropWhile (p : N -> bool) (s : t) : t :=
  match s with
  | [] => []
  | c :: r => if p c then dropWhile p r else s
  end.

Definition trimStart (s : t) : t := dropWhile isWhiteSpace s.
Definition trimEnd (s : t) : t := rev (dropWhile isWhiteSpace (rev s)).

(** [String.prototype.trim]. *)
Definition trim (s : t) : t := trimEnd (trimStart s).

(** [s.split('\n')[0]]: the code units before the first line feed, the
    whole string when there is none. *)
Fixpoint firstLine (s : t) : t :=
  match s with
  | [] => []
  | c :: r => if (c =? 0x0A)%N then [] else c :: firstLine r
  end.

Fixpoint startsWith (needle s : t) : bool :=
  match needle, s with
  | [], _ => true
  | _ :: _, [] => false
  | n :: needle', c :: s' => (n =? c)%N && startsWith needle' s'
  end.

(** [s.includes(needle)]. *)
Fixpoint includes (needle s : t) : bool :=
  startsWith needle s
  || match s with
     | [] => false
     | _ :: s' => includes needle s'
     end.

(** [s.match(/^[...]+$/)] for a character class [cls]: a non-empty string
    made of class members only. *)
Definition matchesAll (cls : N -> bool) (s : t) : bool :=
  truthy s && forallb cls s.

(** [String.prototype.toLowerCase], on the code units whose lower case
    reaches [a-z]: the ASCII capitals, the Kelvin sign (U+212A, lower case
    [k]) and the dotted capital I (U+0130, lower case [i] followed by
    U+0307). Every other code unit has a lower case without any ASCII
    unit and is left as it is: the callers either replace every unit
    outside [a-z0-9] by a hyphen right after ([generateVillainId]) or look
    for an ASCII substring (the scraper), and neither can tell. *)
Definition lowerUnit (c : N) : t :=
  (if (0x41 <=? c) && (c <=? 0x5A) then [c + 0x20]
   else if c =? 0x212A then [0x6B]
   else if c =? 0x0130 then [0x69; 0x0307]
   else [c])%N.

Definition toLowerCase (s : t) : t := flat_map lowerUnit s.

End JsString.

Definition jsstring : Type := JsString.t.
Definition js (s : string) : jsstring := JsString.lit s.
Arguments js s%_string.

(* ================================================================== *)
(** ** The regular expressions of the sources *)

Module Regex.
Import JsString.

(** The class [[\s⏴◀▶→←↑↓]] of the scraper: white space, U+23F4, U+25C0,
    U+25B6, U+2192, U+2190, U+2191, U+2193. *)
Definition navClass (c : N) : bool :=
  (isWhiteSpace c || (c =? 0x23F4) || (c =? 0x25C0) || (c =? 0x25B6)
   || (c =? 0x2192) || (c =? 0x2190) || (c =? 0x2191) || (c =? 0x2193))%N.

(** [s.match(/^[\s⏴◀▶→←↑↓]+$/)]. *)
Definition matchNav (s : t) : bool := matchesAll navClass s.

(** [s.match(/^See/i)]. Without the [u] flag a non-ASCII unit never
    canonicalises to an ASCII one, so only the two cases of the three
    letters match. *)
Definition matchSee (s : t) : bool :=
  match s with
  | c1 :: c2 :: c3 :: _ =>
      (((c1 =? 0x53) || (c1 =? 0x73)) && ((c2 =? 0x45) || (c2 =? 0x65))
       && ((c3 =? 0x45) || (c3 =? 0x65)))%N
  | _ => false
  end.

(** [s.replace(/\([^)]*\)/g, '')]. Matches are found left to right: an
    opening parenthesis starts a match exactly when some closing one
    follows it, the match ends at the first closing one, and the search
    goes on behind it. [inside] tells that the scan is within a match. *)
Definition isOpen (c : N) : bool := (c =? 0x28)%N.
Definition isClose (c : N) : bool := (c =? 0x29)%N.

Fixpoint removeParensFrom (inside : bool) (s : t) : t :=
  match s with
  | [] => []
  | c :: r =>
      if inside then
        if isClose c then removeParensFrom false r
        else removeParensFrom true r
      else if isOpen c && existsb isClose r then removeParensFrom true r
      else c :: removeParensFrom false r
  end.

Definition removeParens (s : t) : t := removeParensFrom false s.

(** The class [[,;:\.]]. *)
Definition isPunct (c : N) : bool :=
  ((c =? 0x2C) || (c =? 0x3B) || (c =? 0x3A) || (c =? 0x2E))%N.

(** [s.replace(/[,;:\.]+$/, '')]: the first position from which only
    class members follow up to the end starts the one match. *)
Fixpoint removeTrailingPunct (s : t) : t :=
  match s with
  | [] => []
  | c :: r => if forallb isPunct s then [] else c :: removeTrailingPunct r
  end.

(** [s.replace(/\s+/g, ' ')]: every maximal run of white space becomes one
    space. [inRun] tells that the previous unit was white space. *)
Fixpoint collapseFrom (inRun : bool) (s : t) : t :=
  match s with
  | [] => []
  | c :: r =>
      if isWhiteSpace c then
        if inRun then collapseFrom true r else 0x20%N :: collapseFrom true r
      else c :: collapseFrom false r
  end.

Definition collapseSpaces (s : t) : t := collapseFrom false s.

(** The class [[a-z0-9]]. *)
Definition isSlugChar (c : N) : bool :=
  (((0x61 <=? c) && (c <=? 0x7A)) || ((0x30 <=? c) && (c <=? 0x39)))%N.

(** [s.replace(/[^a-z0-9]+/g, '-')]. *)
Fixpoint hyphenateFrom (inRun : bool) (s : t) : t :=
  match s with
  | [] => []
  | c :: r =>
      if isSlugChar c then c :: hyphenateFrom false r
      else if inRun then hyphenateFrom true r
      else 0x2D%N :: hyphenateFrom true r
  end.

Definition hyphenate (s : t) : t := hyphenateFrom false s.

(** [s.replace(/^-|-$/g, '')]: a hyphen at index 0 is removed by the first
    alternative; behind it, a hyphen that is the last unit is removed by
    the second. *)
Definition isHyphen (c : N) : bool := (c =? 0x2D)%N.

Fixpoint dropLastHyphen (s : t) : t :=
  match s with
  | [] => []
  | [c] => if isHyphen c then [] else [c]
  | c :: r => c :: dropLastHyphen r
  end.

Definition trimHyphens (s : t) : t :=
  match s with
  | [] => []
  | c :: r => if isHyphen c then dropLastHyphen r else dropLastHyphen s
  end.

End Regex.

(* ================================================================== *)
(** ** The document tree handed to the scraper *)

Module Dom.

(** What cheerio keeps of a parsed page, as far as the scraper looks at
    it: text nodes and elements with a tag name and children. *)
Inductive node : Type :=
| Text (data : jsstring)
| Element (tag : string) (children : list node).

(** [$(n).text()]: the text of all descendants, in document order. *)
Fixpoint text (n : node) : jsstring :=
  match n with
  | Text data => data
  | Element _ children =>
      (fix texts (ns : list node) : jsstring :=
         match ns with
         | [] => []
         | c :: r => text c ++ texts r
         end) children
  end.

Definition hasTag (tag : string) (n : node) : bool :=
  match n with
  | Text _ => false
  | Element t _ => String.eqb t tag
  end.

(** [$(n).find(tag)]: the descendants of [n] with that tag name, in
    document order. *)
Fixpoint find (tag : string) (n : node) : list node :=
  match n with
  | Text _ => []
  | Element _ children =>
      (fix finds (ns : list node) : list node :=
         match ns with
         | [] => []
         | c :: r =>
             (if hasTag tag c then [c] else []) ++ find tag c ++ finds r
         end) children
  end.

(** The text that the [:contains] selector of cheerio looks into: as
    [text], but a [br] element counts as a line feed. *)
Fixpoint innerText (n : node) : jsstring :=
  match n with
  | Text data => data
  | Element tag children =>
      if String.eqb tag "br" then [0x0A%N]
      else
        (fix texts (ns : list node) : jsstring :=
           match ns with
           | [] => []
           | c :: r => innerText c ++ texts r
           end) children
  end.

(** [<a>s</a>] and [<li>...</li>]. *)
Definition a (s : jsstring) : node := Element "a" [Text s].
Definition li (children : list node) : node := Element "li" children.

End Dom.

(* ================================================================== *)
(** ** marvelScraper.ts: one name per list item *)

Module Scraper.
Import JsString Regex Dom.

(** The test of the link loop: [linkText && linkText.length > 1 &&
    !linkText.match(/^[\s⏴◀▶→←↑↓]+$/) && !linkText.match(/^See/i)]. *)
Definition qualifies (linkText : jsstring) : bool :=
  truthy linkText && (1 <? List.length linkText)%nat
  && negb (matchNav linkText) && negb (matchSee linkText).

(** The loop over several links: the first qualifying trimmed text is
    taken and the loop left; [name] stays empty when none qualifies. *)
Fixpoint scanLinks (links : list node) : jsstring :=
  match links with
  | [] => []
  | l :: r =>
      let linkText := trim (text l) in
      if qualifies linkText then linkText else scanLinks r
  end.

(** [name] after the two link branches. *)
Definition nameFromLinks (links : list node) : jsstring :=
  match links with
  | [] => []
  | [l] => trim (text l)
  | _ :: _ :: _ => scanLinks links
  end.

(** The test of the text branch: [text && text.length > 1 &&
    !text.match(/^[\s⏴◀▶→←↑↓]+$/)]. *)
Definition textPasses (t : jsstring) : bool :=
  truthy t && (1 <? List.length t)%nat && negb (matchNav t).

(** The text branch: [$li.text().split('\n')[0].trim()], kept when it
    passes. *)
Definition nameFromText (item : node) : jsstring :=
  let t := trim (firstLine (text item)) in
  if textPasses t then t else [].

(** [name] at the end of the callback. *)
Definition itemName (item : node) : jsstring :=
  let name := nameFromLinks (find "a" item) in
  if negb (truthy name) then nameFromText item else name.

(** The callback on one [li]: [if (name && name.length > 1)
    antagonists.push(name)]. *)
Definition pushItem (antagonists : list jsstring) (item : node)
  : list jsstring :=
  let name := itemName item in
  if truthy name && (1 <? List.length name)%nat then antagonists ++ [name]
  else antagonists.

(** The callbacks on the list items [items], from an empty result. *)
Definition parseListItems (items : list node) : list jsstring :=
  fold_left pushItem items [].

Definition isElement (n : node) : bool :=
  match n with
  | Text _ => false
  | Element _ _ => true
  end.

(** The element siblings that follow a node whose later siblings are
    [later]: [$(n).nextAll()]. *)
Definition nextAll (later : list node) : list node := filter isElement later.

(** [$('h2')]: the [h2] elements of the document in document order, each
    with its [nextAll()]. *)
Fixpoint headings (n : node) : list (node * list node) :=
  match n with
  | Text _ => []
  | Element _ children =>
      (fix scan (ns : list node) : list (node * list node) :=
         match ns with
         | [] => []
         | c :: r =>
             (if hasTag "h2" c then [(c, nextAll r)] else [])
             ++ headings c ++ scan r
         end) children
  end.

(** Each element of a sibling list with its [next()], the sibling that
    follows it directly. *)
Fixpoint withNext (siblings : list node) : list (node * option node) :=
  match siblings with
  | [] => []
  | el :: later => (el, hd_error later) :: withNext later
  end.

Fixpoint untilH2 (siblings : list (node * option node))
  : list (node * option node) :=
  match siblings with
  | [] => []
  | (el, next) :: later =>
      if hasTag "h2" el then [] else (el, next) :: untilH2 later
  end.

(** [content]: the siblings after the heading up to the next [h2]
    ([nextUntil(nextH2)]), all of them when there is none ([nextAll()]). *)
Definition content (siblings : list node) : list (node * option node) :=
  untilH2 (withNext siblings).

(** [$el.text().includes('Antagonists')]. *)
Definition labelled (n : node) : bool :=
  includes (js "Antagonists") (text n).

(** The selector [:contains("Antagonists")]. *)
Definition containsLabel (n : node) : bool :=
  includes (js "Antagonists") (innerText n).

(** [($el.is('b') && $el.text().includes('Antagonists')) ||
    $el.find('b:contains("Antagonists")').length > 0]. *)
Definition hasAntagonistLabel (el : node) : bool :=
  (hasTag "b" el && labelled el)
  || (0 <? List.length (filter containsLabel (find "b" el)))%nat.

Definition isList (n : node) : bool := hasTag "ul" n || hasTag "ol" n.

(** [$el.is('ul, ol') ? $el : $el.next('ul, ol')], [None] for an empty
    selection. *)
Definition nextList (el : node) (next : option node) : option node :=
  if isList el then Some el
  else match next with
       | Some n => if isList n then Some n else None
       | None => None
       end.

(** The callback of [content.each]. *)
Definition visitElement (antagonists : list jsstring)
                        (el : node * option node) : list jsstring :=
  if hasAntagonistLabel (fst el) then
    match nextList (fst el) (snd el) with
    | Some listEl => fold_left pushItem (find "li" listEl) antagonists
    | None => antagonists
    end
  else antagonists.

(** The body of the loop over the headings. *)
Definition visitHeading (antagonists : list jsstring)
                        (heading : node * list node) : list jsstring :=
  let headingText := toLowerCase (text (fst heading)) in
  if includes (js "appearing in") headingText
  then fold_left visitElement (content (snd heading)) antagonists
  else antagonists.

(** [parseAntagonistsFromHtml], on the parsed page [document] (the result
    of [cheerio.load(html)]). Nothing in the body throws here, so the
    [catch] branch is not taken. *)
Definition parseAntagonistsFromHtml (document : node) : list jsstring :=
  fold_left visitHeading (headings document) [].

(** The list items that the callback is run on, in the order of the
    calls. *)
Definition itemsOfElement (el : node * option node) : list node :=
  if hasAntagonistLabel (fst el) then
    match nextList (fst el) (snd el) with
    | Some listEl => find "li" listEl
    | None => []
    end
  else [].

Definition itemsOfHeading (heading : node * list node) : list node :=
  if includes (js "appearing in") (toLowerCase (text (fst heading)))
  then flat_map itemsOfElement (content (snd heading))
  else [].

Definition antagonistItems (document : node) : list node :=
  flat_map itemsOfHeading (headings document).

End Scraper.

Module ScraperExamples.
Import JsString Regex Dom Scraper.

Definition chameleonItem : node :=
  li [ Text (js " "); a [0x23F4%N]; Text (js " "); a (js "Chameleon");
       Text (js " "); a [0x23F5%N]; Text (js " ");
       Element "span" [Text (js "(First appearance)")] ].

Example chameleon : parseListItems [chameleonItem] = [js "Chameleon"].
Proof. reflexivity. Qed.

(** The page of the test "Both Burglar and Chameleon appear in Issue #1
    complete", without the white space between the tags. *)
Definition issueOne : node :=
  Element "body"
    [ Element "h2" [Text (js "Appearing in Spider-Man")];
      Element "p" [Element "b" [Text (js "Antagonists:")]];
      Element "ul" [li [Text (js "Burglar (Only in recap)")]];
      Element "h2" [Text (js "Appearing in Spider-Man Vs. the Chameleon!")];
      Element "p" [Element "b" [Text (js "Featured Characters:")]];
      Element "ul" [li [Text (js "Spider-Man (Peter Parker)")]];
      Element "p" [Element "b" [Text (js "Antagonists:")]];
      Element "ul" [chameleonItem];
      Element "h2" [Text (js "Notes")];
      Element "ul" [li [Text (js "Not a villain")]] ].

Example issue_one :
  parseAntagonistsFromHtml issueOne
  = [js "Burglar (Only in recap)"; js "Chameleon"].
Proof. reflexivity. Qed.

Example plain_text :
  parseListItems [li [Text (js "Burglar (Only in recap)")]]
  = [js "Burglar (Only in recap)"].
Proof. reflexivity. Qed.

(** A label that a line break splits is seen by [text] and not by the
    selector. *)
Example split_label :
  let label := Element "b" [Text (js "Antago"); Element "br" [];
                            Text (js "nists:")] in
  labelled label = true /\ containsLabel label = false
  /\ hasAntagonistLabel label = true
  /\ hasAntagonistLabel (Element "p" [label]) = false.
Proof. repeat split; reflexivity. Qed.

Example helper_link :
  parseListItems [li [a (js "Character"); a (js "See chronology")]]
  = [js "Character"].
Proof. reflexivity. Qed.

End ScraperExamples.

(* ================================================================== *)
(** ** JavaScript values used by the data processor *)

(** A [Map]: the entries in insertion order, at most one per key. [set] on a
    key that is present replaces the value where it stands; [update] is a
    mutation of the object stored under a key. *)
Module JsMap.
Section WithKey.
Variables K V : Type.
Variable keyEqb : K -> K -> bool.

Definition t : Type := list (K * V).

Definition empty : t := [].

Fixpoint get (k : K) (m : t) : option V :=
  match m with
  | [] => None
  | (k', v) :: r => if keyEqb k k' then Some v else get k r
  end.

Definition has (k : K) (m : t) : bool :=
  match get k m with Some _ => true | None => false end.

Fixpoint set (k : K) (v : V) (m : t) : t :=
  match m with
  | [] => [(k, v)]
  | (k', v') :: r =>
      if keyEqb k k' then (k', v) :: r else (k', v') :: set k v r
  end.

Fixpoint update (k : K) (f : V -> V) (m : t) : t :=
  match m with
  | [] => []
  | (k', v) :: r =>
      if keyEqb k k' then (k', f v) :: r else (k', v) :: update k f r
  end.

Definition values (m : t) : list V := map snd m.
Definition keys (m : t) : list K := map fst m.

End WithKey.
End JsMap.

(** A number that holds an issue key: an integer, or [undefined] ([None])
    when the record has no such field. *)
Definition issueKey : Type := option Z.

Module IssueKey.

(** SameValueZero, the equality of [Array.prototype.includes] and of [Map]
    keys. *)
Definition eqb (a b : issueKey) : bool :=
  match a, b with
  | Some x, Some y => x =? y
  | None, None => true
  | _, _ => false
  end.

(** [arr.includes(k)]. *)
Definition includes (k : issueKey) (arr : list issueKey) : bool :=
  existsb (eqb k) arr.

(** The order that [Array.prototype.sort] with the comparator
    [(a, b) => a - b] puts issue keys in: integers ascending, [undefined]
    behind every integer. *)
Definition lt (a b : issueKey) : Prop :=
  match a, b with
  | Some x, Some y => x < y
  | Some _, None => True
  | None, _ => False
  end.

Definition le (a b : issueKey) : Prop :=
  match a, b with
  | Some x, Some y => x <= y
  | _, None => True
  | None, Some _ => False
  end.

Fixpoint insert (cmp : Z -> Z -> Z) (x : Z) (l : list Z) : list Z :=
  match l with
  | [] => [x]
  | y :: r => if cmp x y <=? 0 then x :: l else y :: insert cmp x r
  end.

Definition defined (arr : list issueKey) : list Z :=
  flat_map (fun k => match k with Some z => [z] | None => [] end) arr.

Definition undefineds (arr : list issueKey) : list issueKey :=
  filter (fun k => match k with Some _ => false | None => true end) arr.

(** [arr.sort(cmp)]: the [undefined] elements go to the end without being
    compared, the others are sorted by [cmp], stably. *)
Definition sort (cmp : Z -> Z -> Z) (arr : list issueKey) : list issueKey :=
  map Some (fold_right (insert cmp) [] (defined arr)) ++ undefineds arr.

End IssueKey.

(** The double format: a rational is rounded to the nearest double, ties
    to the even significand. *)
Module Binary64.
Local Open Scope Q_scope.

(** 2^k, for an exponent of either sign. *)
Definition pow2 (k : Z) : Q := 2 ^ k.

(** The integer nearest to [y], the even one when two are as near. *)
Definition roundHalfEven (y : Q) : Z :=
  let f := Qfloor y in
  match Qcompare (y - inject_Z f) (1 # 2) with
  | Lt => f
  | Gt => (f + 1)%Z
  | Eq => if Z.even f then f else (f + 1)%Z
  end.

(** The exponent [e] of a positive [q]: 2^e <= q < 2^(e+1). *)
Definition exponentOf (q : Q) : Z :=
  let e0 := (Z.log2 (Qnum q) - Z.log2 (Zpos (Qden q)))%Z in
  if Qle_bool (pow2 e0) q then e0 else (e0 - 1)%Z.

(** The exponent of the last place of the double format at a positive
    [q]: 52 below the exponent of [q], and not below -1074, the exponent
    of the smallest positive double. *)
Definition lastPlace (q : Q) : Z := Z.max (exponentOf q - 52) (-1074).

(** A positive [q] rounded to the nearest multiple of the last place. *)
Definition nearest (q : Q) : Q :=
  inject_Z (roundHalfEven (q / pow2 (lastPlace q))) * pow2 (lastPlace q).

(** The doubles, as rationals: [m * 2^x] with a significand [m] below
    2^53 in size, an exponent [x] of -1074 at least, and a size below
    2^1024. *)
Definition isDouble (r : Q) : Prop :=
  exists m x : Z,
    (Z.abs m < 2 ^ 53)%Z /\ (-1074 <= x)%Z
    /\ r == inject_Z m * pow2 x /\ Qabs r < pow2 1024.

End Binary64.

Module JsNumber.
Import Binary64.

(** [Number.MAX_SAFE_INTEGER], 2^53 - 1. The integers up to it in size are
    doubles, and sums and differences that stay within it are exact. *)
Definition MAX_SAFE_INTEGER : Z := 9007199254740991.

(** [Number.isSafeInteger(z)], for an integer. *)
Definition isSafeInteger (z : Z) : Prop :=
  - MAX_SAFE_INTEGER <= z <= MAX_SAFE_INTEGER.

(** The largest length of an array, 2^32 - 1: creating a longer one
    throws a [RangeError]. *)
Definition MAX_ARRAY_LENGTH : Z := 4294967295.

Local Open Scope Q_scope.

(** A number that is computed by additions and a division: a finite
    double, given by the rational that it is, [NaN], or an infinity. The
    sign of a zero is not kept. *)
Inductive t : Type :=
| Num (q : Q)
| NaN
| Infinity (negative : bool).

(** The double that a computation with the exact result [q] gives: [q]
    rounded to nearest, ties to even, and an infinity from 2^1024 on. *)
Definition binary64 (q : Q) : t :=
  match Qcompare q 0 with
  | Eq => Num 0
  | Gt => let r := nearest q in
          if Qle_bool (pow2 1024) r then Infinity false else Num (Qred r)
  | Lt => let r := nearest (- q) in
          if Qle_bool (pow2 1024) r then Infinity true
          else Num (Qred (- r))
  end.

(** An integer that a double holds exactly. *)
Definition ofZ (z : Z) : t := Num (inject_Z z).

(** [a / b] on two integers that doubles hold exactly: the quotient
    rounded to a double; [NaN] or an infinity when [b] is 0. *)
Definition div (a b : Z) : t :=
  if (b =? 0)%Z then (if (a =? 0)%Z then NaN else Infinity (a <? 0)%Z)
  else binary64 (inject_Z a / inject_Z b).

(** [x + z] for an integer [z] that a double holds exactly: the sum
    rounded to a double. *)
Definition add (x : t) (z : Z) : t :=
  match x with
  | Num q => binary64 (q + inject_Z z)
  | NaN => NaN
  | Infinity s => Infinity s
  end.

(** [x / length] for the length of an array, which is not negative. *)
Definition divide (x : t) (length : Z) : t :=
  match x with
  | Num q =>
      if (length =? 0)%Z then
        match Qcompare q 0 with
        | Eq => NaN
        | Gt => Infinity false
        | Lt => Infinity true
        end
      else binary64 (q / inject_Z length)
  | NaN => NaN
  | Infinity s => Infinity s
  end.

(** [Math.round(y)]: the integer nearest to [y], the upper one when two
    are as near. *)
Definition mathRound (y : Q) : Z := Qfloor (y + (1 # 2)).

(** [Math.round(x * 100) / 100]. *)
Definition round2 (x : t) : t :=
  match x with
  | Num q =>
      match binary64 (q * 100) with
      | Num y => binary64 (inject_Z (mathRound y) / 100)
      | other => other
      end
  | NaN => NaN
  | Infinity s => Infinity s
  end.

(** The value of a float of the standard library's specification of
    IEEE 754. *)
Definition ofSpecFloat (f : SpecFloat.spec_float) : t :=
  match f with
  | SpecFloat.S754_zero _ => Num 0
  | SpecFloat.S754_infinity s => Infinity s
  | SpecFloat.S754_nan => NaN
  | SpecFloat.S754_finite s m e =>
      Num (Qred ((if s then -1 else 1) * inject_Z (Zpos m) * pow2 e))
  end.

Definition specFloatOfZ (z : Z) : SpecFloat.spec_float :=
  SpecFloat.binary_normalize 53 1024 z 0 false.

End JsNumber.

Module JsNumberExamples.
Import JsNumber.

(** 4/3 is 1.3333333333333333, the double 6004799503160661 / 2^52, as in
    the standard library's specification of IEEE 754. *)
Example four_thirds :
  div 4 3 = Num (Qmake 6004799503160661 4503599627370496)
  /\ ofSpecFloat (SpecFloat.SFdiv 53 1024 (specFloatOfZ 4) (specFloatOfZ 3))
     = div 4 3.
Proof. split; vm_compute; reflexivity. Qed.

Example one_tenth :
  ofSpecFloat (SpecFloat.SFdiv 53 1024 (specFloatOfZ 1) (specFloatOfZ 10))
  = div 1 10.
Proof. vm_compute. reflexivity. Qed.

Example minus_one_third :
  ofSpecFloat (SpecFloat.SFdiv 53 1024 (specFloatOfZ (-1)) (specFloatOfZ 3))
  = div (-1) 3.
Proof. vm_compute. reflexivity. Qed.

(** 41/40 is the double just below 1.025; times 100 it is the double just
    below 102.5, which [Math.round] takes to 102: the result is the
    double 1.02, not 1.03. *)
Example round2_near_half :
  binary64 (Qmult (Qmake 2308094809027379 2251799813685248) (inject_Z 100))
  = ofSpecFloat (SpecFloat.SFmul 53 1024
                   (SpecFloat.SFdiv 53 1024 (specFloatOfZ 41)
                                            (specFloatOfZ 40))
                   (specFloatOfZ 100))
  /\ div 41 40 = Num (Qmake 2308094809027379 2251799813685248)
  /\ round2 (div 41 40) = div 102 100
  /\ round2 (div 41 40) <> div 103 100.
Proof.
  split; [vm_compute; reflexivity|]. split; [vm_compute; reflexivity|].
  split; [vm_compute; reflexivity|]. vm_compute. discriminate.
Qed.

Example round2_four_thirds : round2 (div 4 3) = div 133 100.
Proof. vm_compute. reflexivity. Qed.

(** Ties go to the even significand, and 2^1024 is out of range. *)
Example rounding_edges :
  binary64 (inject_Z 9007199254740993) = ofZ 9007199254740992
  /\ binary64 (inject_Z 9007199254740995) = ofZ 9007199254740996
  /\ add (ofZ 9007199254740992) 1 = ofZ 9007199254740992
  /\ add (ofZ 9007199254740991) 1 = ofZ 9007199254740992
  /\ divide (ofZ 3) 2 = div 3 2
  /\ binary64 (Binary64.pow2 1024) = Infinity false
  /\ binary64 (Binary64.pow2 (-1075)) = ofZ 0
  /\ div 1 0 = Infinity false /\ div (-1) 0 = Infinity true
  /\ div 0 0 = NaN.
Proof. repeat split; vm_compute; reflexivity. Qed.

End JsNumberExamples.

(* ================================================================== *)
(** ** types.ts *)

Module IssueData.
Record t : Type := make {
  issueNumber : issueKey;
  title : jsstring;
  publicationDate : option jsstring;
  antagonists : list jsstring
}.
End IssueData.

Module ProcessedVillain.
Record t : Type := make {
  id : jsstring;
  names : list jsstring;
  firstAppearance : issueKey;
  appearances : list issueKey;
  frequency : Z
}.
End ProcessedVillain.

Module TimelineData.
Record t : Type := make {
  issue : issueKey;
  villains : list ProcessedVillain.t;
  villainCount : Z
}.
End TimelineData.

Module VillainStats.
Record t : Type := make {
  totalVillains : Z;
  mostFrequent : ProcessedVillain.t;
  averageFrequency : JsNumber.t;
  firstAppearances : JsMap.t issueKey (list (option jsstring))
}.
End VillainStats.

Module RawVillainData.
(** The [issues] field as [Array.isArray] sees it. *)
Inductive issuesValue : Type :=
| NotAnArray
| IssueArray (issues : list IssueData.t).

Record t : Type := make {
  series : jsstring;
  baseUrl : jsstring;
  issues : issuesValue
}.
End RawVillainData.

Module ProcessedData.
Record t : Type := make {
  series : jsstring;
  processedAt : jsstring;
  villains : list ProcessedVillain.t;
  timeline : list TimelineData.t;
  stats : VillainStats.t
}.
End ProcessedData.

(** What a call gives back: a value, or a thrown [Error] with its message. *)
Module Completion.
Inductive t (A : Type) : Type :=
| Return (a : A)
| Throw (message : string).
Arguments Return {A} a.
Arguments Throw {A} message.
End Completion.

(** The object built by [serializeProcessedData]. A property read from
    [names[0]] is [None] when the array is empty ([undefined]). *)
Module Serialized.

Module Stats.
Record t : Type := make {
  totalVillains : Z;
  mostFrequent : option jsstring;
  mostFrequentCount : Z;
  averageFrequency : JsNumber.t
}.
End Stats.

Module Villain.
Record t : Type := make {
  id : jsstring;
  name : option jsstring;
  aliases : list jsstring;
  firstAppearance : issueKey;
  appearances : list issueKey;
  frequency : Z
}.
End Villain.

Module Timeline.
Record t : Type := make {
  issue : issueKey;
  villainCount : Z;
  villains : list (option jsstring)
}.
End Timeline.

Record t : Type := make {
  series : jsstring;
  processedAt : jsstring;
  stats : Stats.t;
  villains : list Villain.t;
  timeline : list Timeline.t
}.

End Serialized.

(* ================================================================== *)
(** ** dataProcessor.ts *)

Module DataProcessor.
Import JsString Regex.

Definition normalizeVillainName (name : jsstring) : jsstring :=
  let normalized := trim name in
  let normalized := trim (removeParens normalized) in
  let normalized := trim (removeTrailingPunct normalized) in
  let normalized := collapseSpaces normalized in
  normalized.

Definition generateVillainId (name : jsstring) : jsstring :=
  trimHyphens (hyphenate (toLowerCase name)).

(** [villainMap], keyed by normalized name. *)
Definition VillainMap : Type := JsMap.t jsstring ProcessedVillain.t.

Definition has := JsMap.has (V := ProcessedVillain.t) JsString.eqb.
Definition get := JsMap.get (V := ProcessedVillain.t) JsString.eqb.
Definition set := JsMap.set (V := ProcessedVillain.t) JsString.eqb.
Definition update := JsMap.update (V := ProcessedVillain.t) JsString.eqb.

(** The branch for a villain that is in the map: the issue is pushed and
    the counter incremented unless the issue is there already. *)
Definition addAppearance (issueNumber : issueKey)
                         (villain : ProcessedVillain.t)
  : ProcessedVillain.t :=
  if negb (IssueKey.includes issueNumber
             (ProcessedVillain.appearances villain))
  then
    ProcessedVillain.make
      (ProcessedVillain.id villain)
      (ProcessedVillain.names villain)
      (ProcessedVillain.firstAppearance villain)
      (ProcessedVillain.appearances villain ++ [issueNumber])
      (ProcessedVillain.frequency villain + 1)
  else villain.

(** The body of the inner loop, for one [rawName] of an issue. *)
Definition recordName (issueNumber : issueKey) (villainMap : VillainMap)
                      (rawName : jsstring) : VillainMap :=
  if negb (truthy rawName) || (List.length (trim rawName) =? 0)%nat
  then villainMap
  else
    let normalized := normalizeVillainName rawName in
    if (List.length normalized =? 0)%nat then villainMap
    else if negb (has normalized villainMap) then
      set normalized
          (ProcessedVillain.make (generateVillainId normalized)
             [normalized] issueNumber [issueNumber] 1)
          villainMap
    else update normalized (addAppearance issueNumber) villainMap.

(** The body of the outer loop, for one issue. *)
Definition recordIssue (villainMap : VillainMap) (issue : IssueData.t)
  : VillainMap :=
  fold_left (recordName (IssueData.issueNumber issue))
            (IssueData.antagonists issue) villainMap.

(** The villain index after both loops. *)
Definition buildVillainMap (issues : list IssueData.t) : VillainMap :=
  fold_left recordIssue issues (JsMap.empty jsstring ProcessedVillain.t).

Definition sortVillain (villain : ProcessedVillain.t)
  : ProcessedVillain.t :=
  ProcessedVillain.make
    (ProcessedVillain.id villain)
    (ProcessedVillain.names villain)
    (ProcessedVillain.firstAppearance villain)
    (IssueKey.sort (fun a b => a - b)
       (ProcessedVillain.appearances villain))
    (ProcessedVillain.frequency villain).

(** The loop that sorts the appearances of every villain. *)
Definition sortAppearances (villainMap : VillainMap) : VillainMap :=
  map (fun entry => (fst entry, sortVillain (snd entry))) villainMap.

Definition generateTimeline (issues : list IssueData.t)
                            (villainMap : VillainMap)
  : list TimelineData.t :=
  map (fun issue =>
         let villainsInIssue :=
           filter (fun villain =>
                     IssueKey.includes (IssueData.issueNumber issue)
                       (ProcessedVillain.appearances villain))
                  (JsMap.values villainMap) in
         TimelineData.make (IssueData.issueNumber issue) villainsInIssue
           (Z.of_nat (List.length villainsInIssue)))
      issues.

(** The object that stands for the most frequent villain of an empty
    map. *)
Definition noVillain : ProcessedVillain.t :=
  ProcessedVillain.make [] [] (Some 0) [] 0.

(** The callback of the first [reduce]. *)
Definition moreFrequent (prev current : ProcessedVillain.t)
  : ProcessedVillain.t :=
  if ProcessedVillain.frequency current >? ProcessedVillain.frequency prev
  then current else prev.

(** [arr.reduce(f)] without an initial value, on a non-empty array. *)
Definition reduce1 (A : Type) (f : A -> A -> A) (first : A) (rest : list A)
  : A :=
  fold_left f rest first.

(** The loop that fills [firstAppearances]. *)
Definition recordFirstAppearance
    (firstAppearances : JsMap.t issueKey (list (option jsstring)))
    (villain : ProcessedVillain.t)
  : JsMap.t issueKey (list (option jsstring)) :=
  let issue := ProcessedVillain.firstAppearance villain in
  let firstAppearances :=
    if negb (JsMap.has IssueKey.eqb issue firstAppearances)
    then JsMap.set IssueKey.eqb issue [] firstAppearances
    else firstAppearances in
  JsMap.update IssueKey.eqb issue
    (fun l => l ++ [hd_error (ProcessedVillain.names villain)])
    firstAppearances.

Definition generateStats (villainMap : VillainMap)
                         (originalIssues : list IssueData.t)
  : VillainStats.t :=
  let villainArray := JsMap.values villainMap in
  let mostFrequent :=
    match villainArray with
    | first :: rest => reduce1 moreFrequent first rest
    | [] => noVillain
    end in
  let averageFrequency :=
    if (0 <? List.length villainArray)%nat
    then JsNumber.divide
           (fold_left (fun sum v =>
                         JsNumber.add sum (ProcessedVillain.frequency v))
                      villainArray (JsNumber.ofZ 0))
           (Z.of_nat (List.length villainArray))
    else JsNumber.ofZ 0 in
  let firstAppearances :=
    fold_left recordFirstAppearance villainArray
              (JsMap.empty issueKey (list (option jsstring))) in
  VillainStats.make (Z.of_nat (List.length villainArray)) mostFrequent
                    averageFrequency firstAppearances.

(** [processVillainData]. [rawData] is [None] for a falsy argument; [now]
    is what [new Date().toISOString()] returns during the call. *)
Definition processVillainData (now : jsstring)
                              (rawData : option RawVillainData.t)
  : Completion.t ProcessedData.t :=
  match rawData with
  | None => Completion.Throw "Invalid raw data format"
  | Some rawData =>
      match RawVillainData.issues rawData with
      | RawVillainData.NotAnArray =>
          Completion.Throw "Invalid raw data format"
      | RawVillainData.IssueArray issues =>
          let villainMap := sortAppearances (buildVillainMap issues) in
          let timeline := generateTimeline issues villainMap in
          let stats := generateStats villainMap issues in
          Completion.Return
            (ProcessedData.make (RawVillainData.series rawData) now
               (JsMap.values villainMap) timeline stats)
      end
  end.

Definition serializeProcessedData (data : ProcessedData.t) : Serialized.t :=
  Serialized.make
    (ProcessedData.series data)
    (ProcessedData.processedAt data)
    (Serialized.Stats.make
       (VillainStats.totalVillains (ProcessedData.stats data))
       (hd_error (ProcessedVillain.names
                    (VillainStats.mostFrequent (ProcessedData.stats data))))
       (ProcessedVillain.frequency
          (VillainStats.mostFrequent (ProcessedData.stats data)))
       (JsNumber.round2
          (VillainStats.averageFrequency (ProcessedData.stats data))))
    (map (fun v =>
            Serialized.Villain.make
              (ProcessedVillain.id v)
              (hd_error (ProcessedVillain.names v))
              (tl (ProcessedVillain.names v))
              (ProcessedVillain.firstAppearance v)
              (ProcessedVillain.appearances v)
              (ProcessedVillain.frequency v))
         (ProcessedData.villains data))
    (map (fun t =>
            Serialized.Timeline.make
              (TimelineData.issue t)
              (TimelineData.villainCount t)
              (map (fun v => hd_error (ProcessedVillain.names v))
                   (TimelineData.villains t)))
         (ProcessedData.timeline data)).

End DataProcessor.

(* ================================================================== *)
(** ** dataProcessor.ts on values that are not of the declared type

    The type [IssueData] is erased at run time, and [processVillainData]
    validates nothing but [rawData] and [Array.isArray(rawData.issues)].
    What the loops then do with an element of the array depends on what the
    value is: reading [issue.antagonists] throws a [TypeError] on [null]
    and [undefined]; [for...of] throws one on a value that cannot be
    iterated; [!rawName] skips a falsy element; and [rawName.trim()]
    throws one on a truthy element that is not a string. [issueNumber] is
    only stored and compared. *)

Module Untyped.
Import DataProcessor.

(** An element of [antagonists], as the inner loop tells values apart:
    [Falsy] is a value other than a string that [!rawName] skips
    ([undefined], [null], [false], [0], [NaN]); [Str s] is a string, the
    empty one included; [NotAString] is any other value, which is truthy
    and has no [trim] method. *)
Inductive nameValue : Type :=
| Falsy
| Str (s : jsstring)
| NotAString.

(** The [antagonists] property of a record, as [for...of] tells values
    apart: [NotIterable] is [undefined] (no such property), [null], a
    number, a boolean or a plain object; [Names] gives the elements that
    the iteration yields. *)
Inductive namesValue : Type :=
| NotIterable
| Names (elements : list nameValue).

(** An element of [issues]: [Nullish] is [null] or [undefined]; [Object]
    is any other value, with its [issueNumber], an integer or [undefined],
    and its [antagonists]. *)
Inductive record : Type :=
| Nullish
| Object (issueNumber : issueKey) (antagonists : namesValue).

Inductive issuesValue : Type :=
| NotAnArray
| IssueArray (issues : list record).

Record rawData : Type := make {
  series : jsstring;
  issues : issuesValue
}.

(** What a call gives back: a value, the [Error] of the validation with
    its message, or a [TypeError]. *)
Inductive outcome : Type :=
| Returns (out : ProcessedData.t)
| ThrowsError (message : string)
| ThrowsTypeError.

(** The body of the inner loop; [None] once a [TypeError] is thrown. *)
Definition recordName (issueNumber : issueKey)
                      (villainMap : option VillainMap)
                      (rawName : nameValue) : option VillainMap :=
  match villainMap with
  | None => None
  | Some villainMap =>
      match rawName with
      | Falsy => Some villainMap
      | Str s => Some (DataProcessor.recordName issueNumber villainMap s)
      | NotAString => None
      end
  end.

(** The body of the outer loop. *)
Definition recordIssue (villainMap : option VillainMap) (issue : record)
  : option VillainMap :=
  match villainMap with
  | None => None
  | Some villainMap =>
      match issue with
      | Nullish => None
      | Object _ NotIterable => None
      | Object issueNumber (Names elements) =>
          fold_left (recordName issueNumber) elements (Some villainMap)
      end
  end.

Definition buildVillainMap (issues : list record) : option VillainMap :=
  fold_left recordIssue issues
            (Some (JsMap.empty jsstring ProcessedVillain.t)).

Definition issueNumberOf (issue : record) : issueKey :=
  match issue with
  | Nullish => None
  | Object issueNumber _ => issueNumber
  end.

Definition stringOf (rawName : nameValue) : jsstring :=
  match rawName with
  | Str s => s
  | Falsy | NotAString => []
  end.

Definition namesOf (issue : record) : list jsstring :=
  match issue with
  | Object _ (Names elements) => map stringOf elements
  | _ => []
  end.

(** A record that the loops have accepted, as the rest of the call reads
    it: [generateTimeline] reads [issueNumber] and nothing else. *)
Definition typed (issue : record) : IssueData.t :=
  IssueData.make (issueNumberOf issue) [] None (namesOf issue).

Definition processVillainData (now : jsstring) (rawData : option rawData)
  : outcome :=
  match rawData with
  | None => ThrowsError "Invalid raw data format"
  | Some rawData =>
      match issues rawData with
      | NotAnArray => ThrowsError "Invalid raw data format"
      | IssueArray issues =>
          match buildVillainMap issues with
          | None => ThrowsTypeError
          | Some villainMap =>
              let villainMap := sortAppearances villainMap in
              let timeline := generateTimeline (map typed issues) villainMap in
              let stats := generateStats villainMap (map typed issues) in
              Returns (ProcessedData.make (series rawData) now
                         (JsMap.values villainMap) timeline stats)
          end
      end
  end.

(** A typed record as a value. *)
Definition untyped (issue : IssueData.t) : record :=
  Object (IssueData.issueNumber issue)
         (Names (map Str (IssueData.antagonists issue))).

End Untyped.

(* ================================================================== *)
(** ** dataProcessor.ts with the objects in a heap

    [processVillainData] is given references to the records, creates the
    villains as objects, mutates them in place ([push], [frequency++],
    [sort]) and returns arrays of references to them: the same villain
    object is in [villains], in the timeline slots and in
    [stats.mostFrequent]. Here the call is a function from the world before
    it to its result and the world after it, with the objects in a heap and
    the clock as the only other thing that the module reads: it declares no
    variable of its own. *)

Module Stateful.
Import JsString DataProcessor.

(** A reference to an object: its address in the heap. *)
Definition loc : Type := nat.

(** The objects that [processVillainData] meets: the records of
    [rawData.issues], which it is given, and the villains, which it
    creates. An array or a string that is a property of an object is kept
    within the object. *)
Inductive object : Type :=
| IssueObject (issue : IssueData.t)
| VillainObject (villain : ProcessedVillain.t).

(** The heap: the objects by address. A new object gets the next
    address. *)
Definition heap : Type := list object.

Definition alloc (o : object) (h : heap) : loc * heap :=
  (List.length h, h ++ [o]).

Fixpoint store (l : loc) (o : object) (h : heap) : heap :=
  match h, l with
  | [], _ => []
  | _ :: r, O => o :: r
  | x :: r, S l' => x :: store l' o r
  end.

(** Reading through a reference. A reference of the wrong kind reads as
    an object without any property set. *)
Definition noIssue : IssueData.t := IssueData.make None [] None [].

Definition readIssue (h : heap) (l : loc) : IssueData.t :=
  match nth_error h l with
  | Some (IssueObject issue) => issue
  | _ => noIssue
  end.

Definition readVillain (h : heap) (l : loc) : ProcessedVillain.t :=
  match nth_error h l with
  | Some (VillainObject villain) => villain
  | _ => ProcessedVillain.make [] [] None [] 0
  end.

(** What is outside the objects: the clock, with what it says at its
    successive readings and the number of readings so far. *)
Record world : Type := mkWorld {
  objects : heap;
  readings : nat -> jsstring;
  tick : nat
}.

(** [new Date().toISOString()]. *)
Definition readClock (w : world) : jsstring * world :=
  (readings w (tick w), mkWorld (objects w) (readings w) (S (tick w))).

(** [villainMap]: the keys are normalized names, the values references
    to villains. *)
Definition RefMap : Type := JsMap.t jsstring loc.

(** The body of the inner loop, for one [rawName] of the issue at
    [issue]. *)
Definition recordName (issue : loc) (state : RefMap * heap)
                      (rawName : jsstring) : RefMap * heap :=
  let (villainMap, h) := state in
  if negb (truthy rawName) || (List.length (trim rawName) =? 0)%nat
  then state
  else
    let normalized := normalizeVillainName rawName in
    if (List.length normalized =? 0)%nat then state
    else if negb (JsMap.has JsString.eqb normalized villainMap) then
      let (villain, h) :=
        alloc (VillainObject
                 (ProcessedVillain.make (generateVillainId normalized)
                    [normalized]
                    (IssueData.issueNumber (readIssue h issue))
                    [IssueData.issueNumber (readIssue h issue)] 1)) h in
      (JsMap.set JsString.eqb normalized villain villainMap, h)
    else
      match JsMap.get JsString.eqb normalized villainMap with
      | Some villain =>
          (villainMap,
           store villain
             (VillainObject
                (addAppearance (IssueData.issueNumber (readIssue h issue))
                               (readVillain h villain)))
             h)
      | None => state
      end.

(** The body of the outer loop, for the issue at [issue]. *)
Definition recordIssue (state : RefMap * heap) (issue : loc)
  : RefMap * heap :=
  fold_left (recordName issue)
            (IssueData.antagonists (readIssue (snd state) issue)) state.

Definition buildVillainMap (issues : list loc) (h : heap)
  : RefMap * heap :=
  fold_left recordIssue issues (JsMap.empty jsstring loc, h).

(** The loop that sorts the appearances of every villain, in place. *)
Definition sortAppearances (villainMap : RefMap) (h : heap) : heap :=
  fold_left (fun h villain =>
               store villain
                     (VillainObject (sortVillain (readVillain h villain))) h)
            (JsMap.values villainMap) h.

Module TimelineRef.
Record t : Type := make {
  issue : issueKey;
  villains : list loc;
  villainCount : Z
}.
End TimelineRef.

Module StatsRef.
Record t : Type := make {
  totalVillains : Z;
  mostFrequent : loc;
  averageFrequency : JsNumber.t;
  firstAppearances : JsMap.t issueKey (list (option jsstring))
}.
End StatsRef.

Module DataRef.
Record t : Type := make {
  series : jsstring;
  processedAt : jsstring;
  villains : list loc;
  timeline : list TimelineRef.t;
  stats : StatsRef.t
}.
End DataRef.

Module RawRef.
Inductive issuesValue : Type :=
| NotAnArray
| IssueArray (issues : list loc).

Record t : Type := make {
  series : jsstring;
  baseUrl : jsstring;
  issues : issuesValue
}.
End RawRef.

Definition generateTimeline (issues : list loc) (villainMap : RefMap)
                            (h : heap) : list TimelineRef.t :=
  map (fun issue =>
         let villainsInIssue :=
           filter (fun villain =>
                     IssueKey.includes
                       (IssueData.issueNumber (readIssue h issue))
                       (ProcessedVillain.appearances
                          (readVillain h villain)))
                  (JsMap.values villainMap) in
         TimelineRef.make (IssueData.issueNumber (readIssue h issue))
           villainsInIssue (Z.of_nat (List.length villainsInIssue)))
      issues.

Definition moreFrequent (h : heap) (prev current : loc) : loc :=
  if ProcessedVillain.frequency (readVillain h current)
     >? ProcessedVillain.frequency (readVillain h prev)
  then current else prev.

(** [generateStats]. The object that stands for the most frequent villain
    of an empty map is a new one. *)
Definition generateStats (villainMap : RefMap) (originalIssues : list loc)
                         (h : heap) : StatsRef.t * heap :=
  let villainArray := JsMap.values villainMap in
  let (mostFrequent, h') :=
    match villainArray with
    | first :: rest => (reduce1 (moreFrequent h) first rest, h)
    | [] => alloc (VillainObject noVillain) h
    end in
  let averageFrequency :=
    if (0 <? List.length villainArray)%nat
    then JsNumber.divide
           (fold_left (fun sum v =>
                         JsNumber.add sum
                           (ProcessedVillain.frequency (readVillain h v)))
                      villainArray (JsNumber.ofZ 0))
           (Z.of_nat (List.length villainArray))
    else JsNumber.ofZ 0 in
  let firstAppearances :=
    fold_left (fun firstAppearances v =>
                 recordFirstAppearance firstAppearances (readVillain h v))
              villainArray
              (JsMap.empty issueKey (list (option jsstring))) in
  (StatsRef.make (Z.of_nat (List.length villainArray)) mostFrequent
                 averageFrequency firstAppearances,
   h').

(** [processVillainData], from the world [w] to the world after the
    call. *)
Definition processVillainData (rawData : option RawRef.t) (w : world)
  : Completion.t DataRef.t * world :=
  match rawData with
  | None => (Completion.Throw "Invalid raw data format", w)
  | Some rawData =>
      match RawRef.issues rawData with
      | RawRef.NotAnArray =>
          (Completion.Throw "Invalid raw data format", w)
      | RawRef.IssueArray issues =>
          let (villainMap, h) := buildVillainMap issues (objects w) in
          let h := sortAppearances villainMap h in
          let timeline := generateTimeline issues villainMap h in
          let (stats, h) := generateStats villainMap issues h in
          let (now, w) := readClock (mkWorld h (readings w) (tick w)) in
          (Completion.Return
             (DataRef.make (RawRef.series rawData) now
                (JsMap.values villainMap) timeline stats),
           w)
      end
  end.

(** *** The values behind the references *)

Definition derefTimeline (h : heap) (t : TimelineRef.t) : TimelineData.t :=
  TimelineData.make (TimelineRef.issue t)
    (map (readVillain h) (TimelineRef.villains t))
    (TimelineRef.villainCount t).

Definition derefStats (h : heap) (s : StatsRef.t) : VillainStats.t :=
  VillainStats.make (StatsRef.totalVillains s)
    (readVillain h (StatsRef.mostFrequent s))
    (StatsRef.averageFrequency s) (StatsRef.firstAppearances s).

Definition deref (h : heap) (d : DataRef.t) : ProcessedData.t :=
  ProcessedData.make (DataRef.series d) (DataRef.processedAt d)
    (map (readVillain h) (DataRef.villains d))
    (map (derefTimeline h) (DataRef.timeline d))
    (derefStats h (DataRef.stats d)).

Definition derefCompletion (h : heap) (c : Completion.t DataRef.t)
  : Completion.t ProcessedData.t :=
  match c with
  | Completion.Return d => Completion.Return (deref h d)
  | Completion.Throw message => Completion.Throw message
  end.

Definition derefRaw (h : heap) (rawData : RawRef.t) : RawVillainData.t :=
  RawVillainData.make (RawRef.series rawData) (RawRef.baseUrl rawData)
    match RawRef.issues rawData with
    | RawRef.NotAnArray => RawVillainData.NotAnArray
    | RawRef.IssueArray issues =>
        RawVillainData.IssueArray (map (readIssue h) issues)
    end.

End Stateful.

Module DataProcessorExamples.
Import DataProcessor.

Definition issue (n : Z) (names : list jsstring) : IssueData.t :=
  IssueData.make (Some n) (js "Issue") None names.

Definition raw (issues : list IssueData.t) : option RawVillainData.t :=
  Some (RawVillainData.make (js "Test Series") (js "https://example.com")
          (RawVillainData.IssueArray issues)).

Example normalize_trim :
  normalizeVillainName (js "  Green Goblin  ") = js "Green Goblin".
Proof. reflexivity. Qed.

Example normalize_complex :
  normalizeVillainName (js "  Venom (Eddie Brock),  ") = js "Venom".
Proof. reflexivity. Qed.

Example normalize_spacing :
  normalizeVillainName (js "Spider  Man") = js "Spider Man".
Proof. reflexivity. Qed.

Example id_special :
  generateVillainId (js "Doctor Octopus's") = js "doctor-octopus-s".
Proof. reflexivity. Qed.

End DataProcessorExamples.

(* ================================================================== *)
(** ** Facts about strings and the regular expressions *)

Module StringFacts.
Import JsString Regex.

Lemma string_eqb_eq (a b : jsstring) : JsString.eqb a b = true <-> a = b.
Proof.
  unfold JsString.eqb. destruct (list_eq_dec N.eq_dec a b); split;
    intros; congruence.
Qed.

(** The one match of [/[,;:\.]+$/] is the longest suffix made of class
    members. *)
Lemma forallb_snoc (p : N -> bool) (s : jsstring) (c : N) :
  forallb p (s ++ [c]) = forallb p s && p c.
Proof. rewrite forallb_app. simpl. now rewrite andb_true_r. Qed.

Lemma removeTrailingPunct_snoc (s : jsstring) (c : N) :
  removeTrailingPunct (s ++ [c])
  = if isPunct c then removeTrailingPunct s else s ++ [c].
Proof.
  induction s as [|d s IH].
  - simpl. destruct (isPunct c); reflexivity.
  - change ((d :: s) ++ [c]) with (d :: (s ++ [c])).
    cbn [removeTrailingPunct]. rewrite IH.
    change (forallb isPunct (d :: s ++ [c]))
      with (isPunct d && forallb isPunct (s ++ [c])).
    change (forallb isPunct (d :: s))
      with (isPunct d && forallb isPunct s).
    rewrite forallb_snoc.
    destruct (isPunct c); simpl.
    + now rewrite !andb_true_r.
    + now rewrite !andb_false_r.
Qed.

Lemma removeTrailingPunct_suffix (s : jsstring) :
  removeTrailingPunct s = rev (dropWhile isPunct (rev s)).
Proof.
  induction s as [|c s IH] using rev_ind.
  - reflexivity.
  - rewrite removeTrailingPunct_snoc, rev_app_distr. simpl.
    destruct (isPunct c).
    + exact IH.
    + simpl. now rewrite rev_involutive.
Qed.

(** After [/\([^)]*\)/g] is replaced, no opening parenthesis is followed
    by a closing one. *)
Lemma existsb_close_removeParensFrom (s : jsstring) :
  existsb isClose s = false ->
  removeParensFrom false s = s.
Proof.
  induction s as [|c s IH]; simpl; intros H.
  - reflexivity.
  - apply orb_false_iff in H. destruct H as [Hc Hs].
    rewrite Hs, andb_false_r. f_equal. now apply IH.
Qed.

Definition spanFree (s : jsstring) : Prop :=
  forall pre post, s = pre ++ 0x28%N :: post -> existsb isClose post = false.

Lemma spanFree_cons (c : N) (s : jsstring) :
  (isOpen c = true -> existsb isClose s = false) ->
  spanFree s -> spanFree (c :: s).
Proof.
  intros Hc Hs pre post E. destruct pre as [|d pre]; simpl in E.
  - injection E as -> ->. now apply Hc.
  - injection E as -> E. eapply Hs. exact E.
Qed.

Lemma spanFree_no_close (s : jsstring) :
  existsb isClose s = false -> spanFree s.
Proof.
  intros H pre post ->. rewrite existsb_app in H.
  apply orb_false_iff in H. destruct H as [_ H]. exact H.
Qed.

Lemma removeParensFrom_spanFree (s : jsstring) (inside : bool) :
  (inside = true -> existsb isClose s = true) ->
  spanFree (removeParensFrom inside s).
Proof.
  revert inside. induction s as [|c s IH]; intros inside Hin.
  - intros [|? ?] ? E; discriminate E.
  - simpl. destruct inside.
    + destruct (isClose c) eqn:Hc.
      * apply IH. discriminate.
      * apply IH. intros _. specialize (Hin eq_refl). simpl in Hin.
        now rewrite Hc in Hin.
    + destruct (isOpen c) eqn:Ho; simpl.
      * destruct (existsb isClose s) eqn:Hs.
        -- apply IH. intros _. reflexivity.
        -- rewrite existsb_close_removeParensFrom by exact Hs.
           apply spanFree_cons; [intros _; exact Hs|].
           now apply spanFree_no_close.
      * apply spanFree_cons; [congruence|]. apply IH. discriminate.
Qed.

Lemma removeParens_spanFree (s : jsstring) : spanFree (removeParens s).
Proof. apply removeParensFrom_spanFree. discriminate. Qed.

(** After [/\s+/g] is replaced by a space, the only white space left is
    the space, and no two of them are adjacent. *)
Inductive collapsed : bool -> jsstring -> Prop :=
| collapsed_nil b : collapsed b []
| collapsed_space r : collapsed true r -> collapsed false (0x20%N :: r)
| collapsed_other b c r :
    isWhiteSpace c = false -> collapsed false r -> collapsed b (c :: r).

Lemma collapseFrom_collapsed (s : jsstring) (inRun : bool) :
  collapsed inRun (collapseFrom inRun s).
Proof.
  revert inRun. induction s as [|c s IH]; intros inRun; simpl.
  - constructor.
  - destruct (isWhiteSpace c) eqn:Hc.
    + destruct inRun; [apply IH|]. constructor. apply IH.
    + constructor; [exact Hc | apply IH].
Qed.

Lemma collapseSpaces_collapsed (s : jsstring) :
  collapsed false (collapseSpaces s).
Proof. apply collapseFrom_collapsed. Qed.

End StringFacts.

(* ================================================================== *)
(** ** Facts about maps *)

Module MapFacts.
Section WithKey.
Variables K V : Type.
Variable keyEqb : K -> K -> bool.
Hypothesis keyEqb_eq : forall a b, keyEqb a b = true <-> a = b.

Local Abbreviation get := (JsMap.get (V := V) keyEqb).
Local Abbreviation has := (JsMap.has (V := V) keyEqb).
Local Abbreviation set := (JsMap.set (V := V) keyEqb).
Local Abbreviation update := (JsMap.update (V := V) keyEqb).

Lemma keyEqb_refl (a : K) : keyEqb a a = true.
Proof. now apply keyEqb_eq. Qed.

Lemma get_set (k k' : K) (v : V) (m : JsMap.t K V) :
  get k (set k' v m) = if keyEqb k k' then Some v else get k m.
Proof.
  induction m as [|[k1 v1] r IH]; simpl.
  - reflexivity.
  - destruct (keyEqb k' k1) eqn:E1; simpl.
    + apply keyEqb_eq in E1. subst k1.
      destruct (keyEqb k k'); reflexivity.
    + destruct (keyEqb k k1) eqn:E2.
      * apply keyEqb_eq in E2. subst k1.
        destruct (keyEqb k k') eqn:E3; [|reflexivity].
        apply keyEqb_eq in E3. subst k'.
        rewrite keyEqb_refl in E1. discriminate.
      * exact IH.
Qed.

Lemma get_update (k k' : K) (f : V -> V) (m : JsMap.t K V) :
  get k (update k' f m)
  = if keyEqb k k' then option_map f (get k m) else get k m.
Proof.
  induction m as [|[k1 v1] r IH]; simpl.
  - destruct (keyEqb k k'); reflexivity.
  - destruct (keyEqb k' k1) eqn:E1; simpl.
    + apply keyEqb_eq in E1. subst k1.
      destruct (keyEqb k k'); reflexivity.
    + destruct (keyEqb k k1) eqn:E2.
      * apply keyEqb_eq in E2. subst k1.
        destruct (keyEqb k k') eqn:E3; [|reflexivity].
        apply keyEqb_eq in E3. subst k'.
        rewrite keyEqb_refl in E1. discriminate.
      * exact IH.
Qed.

Lemma set_absent (k : K) (v : V) (m : JsMap.t K V) :
  has k m = false -> set k v m = m ++ [(k, v)].
Proof.
  unfold JsMap.has.
  induction m as [|[k1 v1] r IH]; simpl; intros H.
  - reflexivity.
  - destruct (keyEqb k k1); [discriminate|].
    f_equal. now apply IH.
Qed.

Lemma values_app (m1 m2 : JsMap.t K V) :
  JsMap.values (m1 ++ m2) = JsMap.values m1 ++ JsMap.values m2.
Proof. apply map_app. Qed.

Lemma Forall_values_set (P : V -> Prop) (k : K) (v : V)
      (m : JsMap.t K V) :
  P v -> Forall P (JsMap.values m) -> Forall P (JsMap.values (set k v m)).
Proof.
  intros Hv. induction m as [|[k1 v1] r IH]; simpl; intros H.
  - constructor; [exact Hv | constructor].
  - inversion H; subst. destruct (keyEqb k k1); simpl.
    + constructor; assumption.
    + constructor; [assumption | now apply IH].
Qed.

Lemma Forall_values_update (P : V -> Prop) (k : K) (f : V -> V)
      (m : JsMap.t K V) :
  (forall v, P v -> P (f v)) ->
  Forall P (JsMap.values m) -> Forall P (JsMap.values (update k f m)).
Proof.
  intros Hf. induction m as [|[k1 v1] r IH]; simpl; intros H.
  - constructor.
  - inversion H; subst. destruct (keyEqb k k1); simpl.
    + constructor; [now apply Hf | assumption].
    + constructor; [assumption | now apply IH].
Qed.

Lemma map_values_update (B : Type) (g : V -> B) (k : K) (f : V -> V)
      (m : JsMap.t K V) :
  (forall v, g (f v) = g v) ->
  map g (JsMap.values (update k f m)) = map g (JsMap.values m).
Proof.
  intros Hf. induction m as [|[k1 v1] r IH]; simpl.
  - reflexivity.
  - destruct (keyEqb k k1); simpl.
    + now rewrite Hf.
    + f_equal. exact IH.
Qed.

End WithKey.
End MapFacts.

(* ================================================================== *)
(** ** Facts about issue keys and their sort *)

Module KeyFacts.
Import IssueKey.

Lemma key_eqb_eq (a b : issueKey) : IssueKey.eqb a b = true <-> a = b.
Proof.
  destruct a as [x|], b as [y|]; simpl; split; intros H;
    try discriminate; try reflexivity.
  - apply Z.eqb_eq in H. now subst.
  - injection H as ->. apply Z.eqb_refl.
Qed.

Lemma includes_In (k : issueKey) (arr : list issueKey) :
  includes k arr = true <-> In k arr.
Proof.
  unfold includes. rewrite existsb_exists. split.
  - intros [x [Hx E]]. apply key_eqb_eq in E. now subst.
  - intros H. exists k. split; [exact H | now apply key_eqb_eq].
Qed.

Lemma includes_not_In (k : issueKey) (arr : list issueKey) :
  includes k arr = false <-> ~ In k arr.
Proof.
  rewrite <- includes_In. destruct (includes k arr); split; intros;
    congruence.
Qed.

Lemma le_refl (a : issueKey) : le a a.
Proof. destruct a; simpl; [lia | exact I]. Qed.

Lemma lt_le (a b : issueKey) : lt a b -> le a b.
Proof. destruct a, b; simpl; intros; try lia; auto. Qed.

Lemma sorted_lt_le (arr : list issueKey) :
  StronglySorted lt arr -> StronglySorted le arr.
Proof.
  induction 1 as [|k r Hr IH Hk]; constructor; [exact IH|].
  eapply Forall_impl; [|exact Hk]. intros b. apply lt_le.
Qed.

Lemma insert_perm (cmp : Z -> Z -> Z) (x : Z) (l : list Z) :
  Permutation (insert cmp x l) (x :: l).
Proof.
  induction l as [|y r IH]; simpl.
  - apply Permutation_refl.
  - destruct (cmp x y <=? 0).
    + apply Permutation_refl.
    + eapply Permutation_trans; [apply perm_skip, IH | apply perm_swap].
Qed.

Lemma isort_perm (cmp : Z -> Z -> Z) (l : list Z) :
  Permutation (fold_right (insert cmp) [] l) l.
Proof.
  induction l as [|x r IH]; simpl.
  - constructor.
  - eapply Permutation_trans; [apply insert_perm | now apply perm_skip].
Qed.

Lemma split_perm (arr : list issueKey) :
  Permutation (map Some (defined arr) ++ undefineds arr) arr.
Proof.
  induction arr as [|[z|] r IH]; simpl.
  - constructor.
  - now apply perm_skip.
  - eapply Permutation_trans; [apply Permutation_sym, Permutation_middle|].
    now apply perm_skip.
Qed.

Lemma sort_perm (cmp : Z -> Z -> Z) (arr : list issueKey) :
  Permutation (sort cmp arr) arr.
Proof.
  unfold sort. eapply Permutation_trans; [|apply split_perm].
  apply Permutation_app_tail, Permutation_map, isort_perm.
Qed.

Lemma insert_sorted (x : Z) (l : list Z) :
  StronglySorted Z.le l ->
  StronglySorted Z.le (insert (fun a b => a - b) x l).
Proof.
  induction 1 as [|y r Hr IH Hy]; simpl.
  - repeat constructor.
  - destruct (x - y <=? 0) eqn:E.
    + apply Z.leb_le in E. constructor.
      * constructor; assumption.
      * constructor; [lia|].
        eapply Forall_impl; [|exact Hy]. intros; simpl in *; lia.
    + apply Z.leb_gt in E. constructor; [exact IH|].
      eapply Permutation_Forall;
        [apply Permutation_sym, insert_perm|].
      constructor; [lia | exact Hy].
Qed.

Lemma isort_sorted (l : list Z) :
  StronglySorted Z.le (fold_right (insert (fun a b => a - b)) [] l).
Proof.
  induction l as [|x r IH]; simpl; [constructor | now apply insert_sorted].
Qed.

Lemma strict_of_NoDup (l : list Z) :
  StronglySorted Z.le l -> NoDup l -> StronglySorted Z.lt l.
Proof.
  induction 1 as [|y r Hr IH Hy]; intros Hnd.
  - constructor.
  - inversion Hnd as [|? ? Hnin Hnd']; subst.
    constructor; [now apply IH|].
    rewrite Forall_forall in *. intros z Hz.
    specialize (Hy z Hz). assert (z <> y) by (intros ->; contradiction).
    lia.
Qed.

Lemma undefineds_None (arr : list issueKey) :
  Forall (fun k => k = None) (undefineds arr).
Proof.
  unfold undefineds. rewrite Forall_forall. intros k Hk.
  apply filter_In in Hk. destruct Hk as [_ Hk]. destruct k; congruence.
Qed.

Lemma sorted_with_undefined (zs : list Z) (us : list issueKey) :
  StronglySorted Z.lt zs ->
  Forall (fun k => k = None) us -> NoDup us ->
  StronglySorted lt (map Some zs ++ us).
Proof.
  intros Hz Hu Hnd. induction Hz as [|z r Hr IH Hall]; simpl.
  - destruct us as [|u us]; [constructor|].
    inversion Hu as [|? ? -> Hu']; subst.
    inversion Hnd as [|? ? Hnin _]; subst.
    destruct us as [|u' us].
    + repeat constructor.
    + inversion Hu' as [|? ? -> _]; subst. exfalso. apply Hnin. now left.
  - constructor; [exact IH|].
    apply Forall_app. split.
    + rewrite Forall_map. eapply Forall_impl; [|exact Hall].
      intros a Ha. exact Ha.
    + eapply Forall_impl; [|exact Hu]. intros a ->. exact I.
Qed.

(** Sorting an array without repeated elements gives a strictly ascending
    one. *)
Lemma sort_strict (arr : list issueKey) :
  NoDup arr -> StronglySorted lt (sort (fun a b => a - b) arr).
Proof.
  intros Hnd.
  assert (Hp := split_perm arr).
  assert (Hnd' : NoDup (map Some (defined arr) ++ undefineds arr)).
  { eapply Permutation_NoDup; [apply Permutation_sym, Hp | exact Hnd]. }
  apply NoDup_app_remove_l in Hnd' as Hu.
  apply NoDup_app_remove_r in Hnd' as Hd.
  apply sorted_with_undefined.
  - apply strict_of_NoDup; [apply isort_sorted|].
    eapply Permutation_NoDup; [apply Permutation_sym, isort_perm|].
    clear - Hd. induction (defined arr) as [|z r IH]; [constructor|].
    simpl in Hd. inversion Hd as [|? ? Hnin Hd']; subst.
    constructor; [|now apply IH].
    intros Hin. apply Hnin. now apply in_map.
  - apply undefineds_None.
  - exact Hu.
Qed.

End KeyFacts.

(* ================================================================== *)
(** ** The villain index: what both loops maintain *)

Module IndexFacts.
Import DataProcessor.

Definition issues_of (series : jsstring) (issues : list IssueData.t)
  : option RawVillainData.t :=
  Some (RawVillainData.make series [] (RawVillainData.IssueArray issues)).

(** The counter of a villain agrees with its array of issues, which has
    no repeated element. *)
Definition wellCounted (v : ProcessedVillain.t) : Prop :=
  ProcessedVillain.frequency v
  = Z.of_nat (List.length (ProcessedVillain.appearances v))
  /\ NoDup (ProcessedVillain.appearances v).

Lemma addAppearance_wellCounted (k : issueKey) (v : ProcessedVillain.t) :
  wellCounted v -> wellCounted (addAppearance k v).
Proof.
  intros [Hf Hnd]. unfold addAppearance.
  destruct (IssueKey.includes k (ProcessedVillain.appearances v)) eqn:E;
    simpl; [split; assumption|].
  apply KeyFacts.includes_not_In in E. split; simpl.
  - rewrite length_app. simpl. lia.
  - apply NoDup_app; [exact Hnd | repeat constructor; intros [] | ].
    intros x Hx [<-|[]]. contradiction.
Qed.

Lemma recordName_wellCounted (k : issueKey) (m : VillainMap)
      (rawName : jsstring) :
  Forall wellCounted (JsMap.values m) ->
  Forall wellCounted (JsMap.values (recordName k m rawName)).
Proof.
  intros H. unfold recordName.
  destruct (_ || _); [exact H|].
  destruct (_ =? _)%nat; [exact H|].
  destruct (negb _).
  - apply MapFacts.Forall_values_set; [|exact H].
    split; simpl; [reflexivity | repeat constructor; intros []].
  - apply MapFacts.Forall_values_update; [|exact H].
    intros v. apply addAppearance_wellCounted.
Qed.

Lemma recordNames_wellCounted (k : issueKey) (names : list jsstring)
      (m : VillainMap) :
  Forall wellCounted (JsMap.values m) ->
  Forall wellCounted (JsMap.values (fold_left (recordName k) names m)).
Proof.
  revert m. induction names as [|n r IH]; simpl; intros m H.
  - exact H.
  - apply IH. now apply recordName_wellCounted.
Qed.

Lemma recordIssues_wellCounted (issues : list IssueData.t)
      (m : VillainMap) :
  Forall wellCounted (JsMap.values m) ->
  Forall wellCounted (JsMap.values (fold_left recordIssue issues m)).
Proof.
  revert m. induction issues as [|i r IH]; simpl; intros m H.
  - exact H.
  - apply IH. now apply recordNames_wellCounted.
Qed.

Lemma buildVillainMap_wellCounted (issues : list IssueData.t) :
  Forall wellCounted (JsMap.values (buildVillainMap issues)).
Proof. apply recordIssues_wellCounted. constructor. Qed.

Lemma values_sortAppearances (m : VillainMap) :
  JsMap.values (sortAppearances m) = map sortVillain (JsMap.values m).
Proof.
  unfold sortAppearances, JsMap.values. rewrite !map_map. reflexivity.
Qed.

(** Any call that returns went through the array branch. *)
Lemma processVillainData_returns (now : jsstring)
      (rawData : option RawVillainData.t) (out : ProcessedData.t) :
  processVillainData now rawData = Completion.Return out ->
  exists raw issues,
    rawData = Some raw
    /\ RawVillainData.issues raw = RawVillainData.IssueArray issues
    /\ out = ProcessedData.make (RawVillainData.series raw) now
               (map sortVillain (JsMap.values (buildVillainMap issues)))
               (generateTimeline issues
                  (sortAppearances (buildVillainMap issues)))
               (generateStats (sortAppearances (buildVillainMap issues))
                  issues).
Proof.
  unfold processVillainData. destruct rawData as [raw|]; [|discriminate].
  destruct (RawVillainData.issues raw) as [|issues] eqn:E; [discriminate|].
  intros H. injection H as <-. exists raw, issues.
  rewrite values_sortAppearances. auto.
Qed.

End IndexFacts.

(* ================================================================== *)
(** ** Counter and appearances of every villain *)

Module Invariants.
Import DataProcessor IndexFacts.

(** C5. Whatever the order of the input records, every villain that
    [processVillainData] returns has a [frequency] equal to the number of
    elements of its [appearances], and [appearances] is strictly
    ascending in the order of the sort, hence sorted and free of
    duplicates. *)
Theorem frequency_counts_sorted_appearances
        (now : jsstring) (rawData : option RawVillainData.t)
        (out : ProcessedData.t) (v : ProcessedVillain.t) :
  processVillainData now rawData = Completion.Return out ->
  In v (ProcessedData.villains out) ->
  ProcessedVillain.frequency v
  = Z.of_nat (List.length (ProcessedVillain.appearances v))
  /\ StronglySorted IssueKey.lt (ProcessedVillain.appearances v)
  /\ StronglySorted IssueKey.le (ProcessedVillain.appearances v)
  /\ NoDup (ProcessedVillain.appearances v).
Proof.
  intros Hret Hin.
  apply processVillainData_returns in Hret.
  destruct Hret as (raw & issues & _ & _ & ->). simpl in Hin.
  apply in_map_iff in Hin. destruct Hin as (u & <- & Hu).
  pose proof (buildVillainMap_wellCounted issues) as Hall.
  rewrite Forall_forall in Hall. destruct (Hall u Hu) as [Hf Hnd].
  pose proof (KeyFacts.sort_perm (fun a b => a - b)
                (ProcessedVillain.appearances u)) as Hp.
  pose proof (KeyFacts.sort_strict Hnd) as Hs.
  simpl. repeat split.
  - rewrite Hf. f_equal. symmetry. now apply Permutation_length.
  - exact Hs.
  - now apply KeyFacts.sorted_lt_le.
  - eapply Permutation_NoDup; [apply Permutation_sym, Hp | exact Hnd].
Qed.

(** Issue 3 comes before issue 1 in the input, and issue 1 names the
    villain twice. *)
Definition outOfOrder : option RawVillainData.t :=
  issues_of (js "Test Series")
    [IssueData.make (Some 3) (js "Issue 3") None [js "Villain A"];
     IssueData.make (Some 1) (js "Issue 1") None
       [js "Villain A"; js "Villain A,"]].

Definition villainA : ProcessedVillain.t :=
  ProcessedVillain.make (js "villain-a") [js "Villain A"] (Some 3)
    [Some 1; Some 3] 2.

Lemma frequency_counts_sorted_appearances_witness :
  (exists out,
      processVillainData [] outOfOrder = Completion.Return out
      /\ In villainA (ProcessedData.villains out))
  /\ ProcessedVillain.frequency villainA
     = Z.of_nat (List.length (ProcessedVillain.appearances villainA))
  /\ StronglySorted IssueKey.lt (ProcessedVillain.appearances villainA)
  /\ StronglySorted IssueKey.le (ProcessedVillain.appearances villainA)
  /\ NoDup (ProcessedVillain.appearances villainA).
Proof.
  split.
  - eexists. split; [reflexivity | left; reflexivity].
  - apply (@frequency_counts_sorted_appearances [] outOfOrder _ villainA
             eq_refl).
    left. reflexivity.
Defined.

End Invariants.

(* ================================================================== *)
(** ** One record, one appearance *)

Module NoDuplicateCounting.
Import DataProcessor IndexFacts.

(** The appearances and the counter registered under a normalized name,
    none and zero when the name is not in the index. *)
Definition appearancesOf (name : jsstring) (m : VillainMap)
  : list issueKey :=
  match get name m with
  | Some v => ProcessedVillain.appearances v
  | None => []
  end.

Definition frequencyOf (name : jsstring) (m : VillainMap) : Z :=
  match get name m with
  | Some v => ProcessedVillain.frequency v
  | None => 0
  end.

(** What one raw name does to the entry of [name]. *)
Lemma get_recordName (name : jsstring) (k : issueKey) (m : VillainMap)
      (rawName : jsstring) :
  get name (recordName k m rawName) = get name m
  \/ (get name m = None
      /\ exists id, get name (recordName k m rawName)
                    = Some (ProcessedVillain.make id [name] k [k] 1))
  \/ (exists v, get name m = Some v
                /\ get name (recordName k m rawName)
                   = Some (addAppearance k v)).
Proof.
  unfold recordName.
  destruct (_ || _); [now left|].
  destruct (_ =? _)%nat; [now left|].
  set (n := normalizeVillainName rawName).
  unfold has, JsMap.has. fold (get n m).
  destruct (get n m) as [v|] eqn:En; simpl.
  - unfold get, update.
    rewrite (MapFacts.get_update JsString.eqb StringFacts.string_eqb_eq).
    destruct (JsString.eqb name n) eqn:E; [|now left].
    apply StringFacts.string_eqb_eq in E. subst n. rewrite E.
    fold (get (normalizeVillainName rawName) m). rewrite En.
    right; right. exists v. split; reflexivity.
  - unfold get, set.
    rewrite (MapFacts.get_set JsString.eqb StringFacts.string_eqb_eq).
    destruct (JsString.eqb name n) eqn:E; [|now left].
    apply StringFacts.string_eqb_eq in E. subst n. rewrite E.
    fold (get (normalizeVillainName rawName) m). rewrite En.
    right; left. split; [reflexivity|]. eexists. reflexivity.
Qed.

Section OneRecord.
Variable name : jsstring.
Variable k : issueKey.
Variables (a0 : nat) (f0 : Z).

(** Either the entry of [name] is as it was before the record, or the
    record has put its issue key there, once. *)
Definition untouched (m : VillainMap) : Prop :=
  List.length (appearancesOf name m) = a0 /\ frequencyOf name m = f0.

Definition touched (m : VillainMap) : Prop :=
  IssueKey.includes k (appearancesOf name m) = true
  /\ (List.length (appearancesOf name m) <= a0 + 1)%nat
  /\ frequencyOf name m <= f0 + 1.

Lemma recordName_step (m : VillainMap) (rawName : jsstring) :
  untouched m \/ touched m ->
  untouched (recordName k m rawName) \/ touched (recordName k m rawName).
Proof.
  unfold untouched, touched, appearancesOf, frequencyOf.
  destruct (get_recordName name k m rawName)
    as [E | [[E [id E']] | [v [E E']]]].
  - rewrite E. auto.
  - rewrite E, E'. simpl. intros [[<- <-] | [H _]]; [|discriminate H].
    right. simpl. rewrite (proj2 (KeyFacts.key_eqb_eq k k) eq_refl).
    simpl. split; [reflexivity | split; lia].
  - rewrite E, E'. unfold addAppearance.
    destruct (IssueKey.includes k (ProcessedVillain.appearances v))
      eqn:Hin; simpl.
    + rewrite Hin. auto.
    + intros [[<- <-] | [H _]]; [|discriminate H].
      right. split; [|split].
      * apply KeyFacts.includes_In, in_or_app. right. now left.
      * rewrite length_app. simpl. lia.
      * lia.
Qed.

Lemma recordNames_step (names : list jsstring) (m : VillainMap) :
  untouched m \/ touched m ->
  untouched (fold_left (recordName k) names m)
  \/ touched (fold_left (recordName k) names m).
Proof.
  revert m. induction names as [|n r IH]; simpl; intros m H.
  - exact H.
  - apply IH. now apply recordName_step.
Qed.

End OneRecord.

(** C6. One record adds at most one element to the appearances of any
    villain and at most one to its counter, however many of the raw names
    of the record normalize to the name of that villain. *)
Theorem record_adds_at_most_one_appearance
        (m : VillainMap) (issue : IssueData.t) (name : jsstring) :
  (List.length (appearancesOf name (recordIssue m issue))
   <= List.length (appearancesOf name m) + 1)%nat
  /\ frequencyOf name (recordIssue m issue) <= frequencyOf name m + 1.
Proof.
  unfold recordIssue.
  destruct (@recordNames_step name (IssueData.issueNumber issue)
              (List.length (appearancesOf name m)) (frequencyOf name m)
              (IssueData.antagonists issue) m)
    as [[Ha Hf] | [_ [Ha Hf]]].
  - left. split; reflexivity.
  - rewrite Ha, Hf. split; lia.
  - split; assumption.
Qed.

(** A name listed twice in one record, here under two spellings that
    normalize alike, is counted once. *)
Example listed_twice :
  let m := recordIssue (JsMap.empty jsstring ProcessedVillain.t)
             (IssueData.make (Some 7) (js "Issue 7") None
                [js "Vulture"; js "Mysterio"; js "Vulture (Adrian Toomes)"])
  in appearancesOf (js "Vulture") m = [Some 7]
     /\ frequencyOf (js "Vulture") m = 1.
Proof. split; reflexivity. Qed.

End NoDuplicateCounting.

(* ================================================================== *)
(** ** The most frequent villain *)

Module MostFrequent.
Import DataProcessor IndexFacts.

Local Abbreviation freq := ProcessedVillain.frequency.
Local Abbreviation firstApp := ProcessedVillain.firstAppearance.

(** What the [reduce] of [generateStats] picks: the first entry, in
    insertion order, whose counter is maximal. *)
Definition firstMostFrequent (vs : list ProcessedVillain.t)
                             (r : ProcessedVillain.t) : Prop :=
  exists pre post,
    vs = pre ++ r :: post
    /\ Forall (fun v => freq v < freq r) pre
    /\ Forall (fun v => freq v <= freq r) post.

(** The rule of the specification: maximal counter; among those, earliest
    first appearance; among those, first in insertion order. *)
Definition specMostFrequent (vs : list ProcessedVillain.t)
                            (r : ProcessedVillain.t) : Prop :=
  exists i,
    nth_error vs i = Some r
    /\ forall j v,
        nth_error vs j = Some v ->
        freq v <= freq r
        /\ (freq v = freq r -> IssueKey.le (firstApp r) (firstApp v))
        /\ (freq v = freq r -> firstApp v = firstApp r -> (i <= j)%nat).

Lemma reduce_firstMostFrequent (first : ProcessedVillain.t)
      (rest : list ProcessedVillain.t) :
  firstMostFrequent (first :: rest) (reduce1 moreFrequent first rest).
Proof.
  unfold reduce1. induction rest as [|x rest IH] using rev_ind.
  - exists [], []. simpl. repeat split; constructor.
  - rewrite fold_left_app. simpl.
    set (r := fold_left moreFrequent rest first) in *.
    destruct IH as (pre & post & E & Hpre & Hpost).
    unfold moreFrequent. destruct (freq x >? freq r) eqn:C.
    + apply Z.gtb_lt in C.
      exists (first :: rest), []. repeat split; [|constructor].
      rewrite E. apply Forall_app. split.
      * eapply Forall_impl; [|exact Hpre]. simpl. intros; lia.
      * constructor; [lia|].
        eapply Forall_impl; [|exact Hpost]. simpl. intros; lia.
    + assert (freq x <= freq r).
      { rewrite Z.gtb_ltb in C. apply Z.ltb_ge in C. exact C. }
      exists pre, (post ++ [x]). repeat split.
      * change (first :: rest ++ [x]) with ((first :: rest) ++ [x]).
        rewrite E, <- app_assoc. reflexivity.
      * exact Hpre.
      * apply Forall_app. split; [exact Hpost|]. now constructor.
Qed.

(** Sorting the appearances touches neither counters nor first
    appearances. *)
Lemma firstApp_sortVillain (vs : list ProcessedVillain.t) :
  map firstApp (map sortVillain vs) = map firstApp vs.
Proof. rewrite map_map. reflexivity. Qed.

(** One raw name leaves the first appearances as they are, or appends
    the key of its issue. *)
Lemma firstApp_recordName (k : issueKey) (m : VillainMap)
      (rawName : jsstring) :
  exists n,
    map firstApp (JsMap.values (recordName k m rawName))
    = map firstApp (JsMap.values m) ++ repeat k n.
Proof.
  unfold recordName.
  destruct (_ || _); [exists 0%nat; now rewrite app_nil_r|].
  destruct (_ =? _)%nat; [exists 0%nat; now rewrite app_nil_r|].
  destruct (has _ m) eqn:Hhas; simpl.
  - exists 0%nat. rewrite app_nil_r. unfold update.
    apply MapFacts.map_values_update.
    intros v. unfold addAppearance. destruct (negb _); reflexivity.
  - exists 1%nat. unfold set.
    rewrite (MapFacts.set_absent JsString.eqb _ _ _ Hhas).
    rewrite MapFacts.values_app, map_app. reflexivity.
Qed.

Lemma firstApp_recordNames (k : issueKey) (names : list jsstring)
      (m : VillainMap) :
  exists n,
    map firstApp (JsMap.values (fold_left (recordName k) names m))
    = map firstApp (JsMap.values m) ++ repeat k n.
Proof.
  revert m. induction names as [|x r IH]; simpl; intros m.
  - exists 0%nat. now rewrite app_nil_r.
  - destruct (IH (recordName k m x)) as [n1 E1].
    destruct (firstApp_recordName k m x) as [n2 E2].
    exists (n2 + n1)%nat. rewrite E1, E2, <- app_assoc, repeat_app.
    reflexivity.
Qed.

Lemma sorted_app (l1 l2 : list issueKey) :
  StronglySorted IssueKey.le l1 -> StronglySorted IssueKey.le l2 ->
  Forall (fun a => Forall (IssueKey.le a) l2) l1 ->
  StronglySorted IssueKey.le (l1 ++ l2).
Proof.
  intros H1 H2 H. induction H1 as [|a r Hr IH Ha]; simpl.
  - exact H2.
  - inversion H; subst. constructor; [now apply IH|].
    apply Forall_app. split; assumption.
Qed.

Lemma sorted_repeat (k : issueKey) (n : nat) :
  StronglySorted IssueKey.le (repeat k n).
Proof.
  induction n as [|n IH]; simpl; constructor; [exact IH|].
  rewrite Forall_forall. intros x Hx. apply repeat_spec in Hx. subst.
  apply KeyFacts.le_refl.
Qed.

(** When the records come in ascending order of issue key, the villains
    stand in ascending order of first appearance. *)
Lemma firstApp_sorted (issues : list IssueData.t) (m : VillainMap) :
  StronglySorted IssueKey.le (map IssueData.issueNumber issues) ->
  StronglySorted IssueKey.le (map firstApp (JsMap.values m)) ->
  Forall (fun a => Forall (IssueKey.le a)
                     (map IssueData.issueNumber issues))
         (map firstApp (JsMap.values m)) ->
  StronglySorted IssueKey.le
    (map firstApp (JsMap.values (fold_left recordIssue issues m))).
Proof.
  revert m. induction issues as [|i rest IH]; simpl; intros m Hk Hm Hb.
  - exact Hm.
  - inversion Hk as [|? ? Hrest Hi]; subst.
    destruct (firstApp_recordNames (IssueData.issueNumber i)
                (IssueData.antagonists i) m) as [n E].
    apply IH; [exact Hrest | |]; unfold recordIssue; rewrite E.
    + apply sorted_app; [exact Hm | apply sorted_repeat |].
      eapply Forall_impl; [|exact Hb]. intros a Ha.
      inversion Ha; subst. rewrite Forall_forall. intros x Hx.
      apply repeat_spec in Hx. now subst.
    + apply Forall_app. split.
      * eapply Forall_impl; [|exact Hb]. intros a Ha. now inversion Ha.
      * rewrite Forall_forall. intros x Hx. apply repeat_spec in Hx.
        now subst.
Qed.

Lemma spec_of_first (vs : list ProcessedVillain.t)
      (r : ProcessedVillain.t) :
  StronglySorted IssueKey.le (map firstApp vs) ->
  firstMostFrequent vs r -> specMostFrequent vs r.
Proof.
  intros Hs (pre & post & -> & Hpre & Hpost).
  rewrite map_app in Hs. simpl in Hs.
  assert (Hlater : Forall (fun v => IssueKey.le (firstApp r) (firstApp v))
                          post).
  { clear - Hs. induction pre as [|p pre IH]; simpl in Hs.
    - inversion Hs as [|? ? _ H]; subst. now rewrite Forall_map in H.
    - inversion Hs; subst. now apply IH. }
  exists (List.length pre). split.
  - rewrite nth_error_app2 by lia. now rewrite Nat.sub_diag.
  - intros j v Hj.
    destruct (Nat.lt_ge_cases j (List.length pre)) as [Hlt|Hge].
    + rewrite nth_error_app1 in Hj by exact Hlt.
      apply nth_error_In in Hj. rewrite Forall_forall in Hpre.
      specialize (Hpre v Hj). simpl in Hpre.
      repeat split; intros; lia.
    + rewrite nth_error_app2 in Hj by exact Hge.
      destruct (j - List.length pre)%nat as [|d] eqn:Ed; simpl in Hj.
      * injection Hj as <-. repeat split; intros;
          [lia | apply KeyFacts.le_refl | lia].
      * apply nth_error_In in Hj. rewrite Forall_forall in Hpost, Hlater.
        specialize (Hpost v Hj). specialize (Hlater v Hj). simpl in *.
        repeat split; intros; [lia | exact Hlater | lia].
Qed.

End MostFrequent.

(* ================================================================== *)
(** ** Rounding to a double *)

Module Binary64Facts.
Import Binary64.
Local Open Scope Q_scope.

(** *** Absolute values *)

Lemma Qabs_bound (a b : Q) : - b <= a -> a <= b -> Qabs a <= b.
Proof. intros H1 H2. apply Qabs_Qle_condition. split; assumption. Qed.

Lemma Qabs_lower (a : Q) : a <= Qabs a /\ - a <= Qabs a.
Proof.
  split; [apply Qle_Qabs|]. rewrite <- Qabs_opp. apply Qle_Qabs.
Qed.

(** *** The nearest integer *)

Lemma roundHalfEven_cases (y : Q) :
  let f := inject_Z (Qfloor y) in
  (inject_Z (roundHalfEven y) == f /\ y - f <= 1 # 2)
  \/ (inject_Z (roundHalfEven y) == f + 1 /\ 1 # 2 <= y - f).
Proof.
  intros f. unfold roundHalfEven. fold f.
  destruct (Qcompare (y - f) (1 # 2)) eqn:E.
  - apply Qeq_alt in E. destruct (Z.even (Qfloor y)).
    + left. split; [reflexivity | lra].
    + right. rewrite inject_Z_plus. split; [reflexivity | lra].
  - apply Qlt_alt in E. left. split; [reflexivity | lra].
  - apply Qgt_alt in E. right. rewrite inject_Z_plus.
    split; [reflexivity | lra].
Qed.

Lemma floor_bounds (y : Q) :
  inject_Z (Qfloor y) <= y /\ y < inject_Z (Qfloor y) + 1.
Proof.
  split; [apply Qfloor_le|].
  pose proof (Qlt_floor y) as H. now rewrite inject_Z_plus in H.
Qed.

Lemma integer_apart (k f : Z) :
  inject_Z k <= inject_Z f \/ inject_Z f + 1 <= inject_Z k.
Proof.
  destruct (Z_le_gt_dec k f) as [H | H].
  - left. now rewrite <- Zle_Qle.
  - right. change 1 with (inject_Z 1).
    rewrite <- inject_Z_plus, <- Zle_Qle. lia.
Qed.

Lemma roundHalfEven_nearest (y : Q) (k : Z) :
  Qabs (y - inject_Z (roundHalfEven y)) <= Qabs (y - inject_Z k).
Proof.
  destruct (floor_bounds y) as [H1 H2].
  destruct (Qabs_lower (y - inject_Z k)) as [H3 H4].
  destruct (integer_apart k (Qfloor y)) as [Hk | Hk];
    destruct (roundHalfEven_cases y) as [[E H] | [E H]];
    rewrite E; apply Qabs_bound; lra.
Qed.

Lemma roundHalfEven_half (y : Q) :
  Qabs (y - inject_Z (roundHalfEven y)) <= 1 # 2.
Proof.
  destruct (floor_bounds y) as [H1 H2].
  destruct (roundHalfEven_cases y) as [[E H] | [E H]];
    rewrite E; apply Qabs_bound; lra.
Qed.

(** *** Powers of two *)

Lemma pow2_pos (k : Z) : 0 < pow2 k.
Proof. apply Qpower_0_lt. reflexivity. Qed.

Lemma pow2_plus (a b : Z) : pow2 (a + b) == pow2 a * pow2 b.
Proof. apply Qpower_plus. discriminate. Qed.

Lemma pow2_succ (k : Z) : pow2 (k + 1) == 2 * pow2 k.
Proof. rewrite pow2_plus. unfold pow2 at 2. simpl. lra. Qed.

Lemma pow2_le (a b : Z) : (a <= b)%Z -> pow2 a <= pow2 b.
Proof. intros H. apply Qpower_le_compat_l; [exact H | discriminate]. Qed.

Lemma pow2_lt (a b : Z) : (a < b)%Z -> pow2 a < pow2 b.
Proof. intros H. apply Qpower_lt_compat_l; [exact H | reflexivity]. Qed.

Lemma pow2_Z (k : Z) : (0 <= k)%Z -> pow2 k == inject_Z (2 ^ k).
Proof. intros H. unfold pow2. now rewrite Zpower_Qpower. Qed.

Lemma pow2_inv (k : Z) : pow2 k * pow2 (- k) == 1.
Proof.
  rewrite <- pow2_plus. replace (k + - k)%Z with 0%Z by lia. reflexivity.
Qed.


(** *** The exponent of a positive rational *)

Lemma log2_bounds (n : Z) :
  (0 < n)%Z ->
  pow2 (Z.log2 n) <= inject_Z n /\ inject_Z n < pow2 (Z.log2 n + 1).
Proof.
  intros H. destruct (Z.log2_spec n H) as [H1 H2].
  pose proof (Z.log2_nonneg n) as H0.
  rewrite !pow2_Z by lia. rewrite <- Zle_Qle, <- Zlt_Qlt.
  replace (Z.log2 n + 1)%Z with (Z.succ (Z.log2 n)) by lia. auto.
Qed.

Lemma Qmake_ratio (q : Q) :
  q * inject_Z (Zpos (Qden q)) == inject_Z (Qnum q).
Proof.
  destruct q as [n d]. simpl. unfold Qeq, Qmult, inject_Z. simpl. lia.
Qed.

Lemma exponentOf_spec (q : Q) :
  0 < q -> pow2 (exponentOf q) <= q /\ q < pow2 (exponentOf q + 1).
Proof.
  intros Hq.
  assert (Hn : (0 < Qnum q)%Z).
  { destruct q as [n d]. unfold Qlt in Hq. simpl in *. lia. }
  destruct (log2_bounds Hn) as [N1 N2].
  destruct (@log2_bounds (Zpos (Qden q)) eq_refl) as [D1 D2].
  pose proof (Qmake_ratio q) as E.
  set (ln := Z.log2 (Qnum q)) in *.
  set (ld := Z.log2 (Zpos (Qden q))) in *.
  set (N := inject_Z (Qnum q)) in *.
  set (D := inject_Z (Zpos (Qden q))) in *.
  assert (HD : 0 < D) by (unfold D; reflexivity).
  assert (Hlow : pow2 (ln - ld - 1) < q).
  { assert (H : pow2 (ln - ld - 1) * pow2 (ld + 1) == pow2 ln).
    { rewrite <- pow2_plus. now replace (ln - ld - 1 + (ld + 1))%Z with ln
        by lia. }
    pose proof (pow2_pos (ln - ld - 1)) as Hp.
    apply Qnot_le_lt. intros Hc.
    assert (q * D <= pow2 (ln - ld - 1) * D)
      by (apply Qmult_le_compat_r; [exact Hc | lra]).
    assert (pow2 (ln - ld - 1) * D < pow2 (ln - ld - 1) * pow2 (ld + 1))
      by (apply Qmult_lt_l; assumption).
    lra. }
  assert (Hhigh : q < pow2 (ln - ld + 1)).
  { assert (H : pow2 (ln - ld + 1) * pow2 ld == pow2 (ln + 1)).
    { rewrite <- pow2_plus. now replace (ln - ld + 1 + ld)%Z with (ln + 1)%Z
        by lia. }
    pose proof (pow2_pos (ln - ld + 1)) as Hp.
    apply Qnot_le_lt. intros Hc.
    assert (pow2 (ln - ld + 1) * D <= q * D)
      by (apply Qmult_le_compat_r; [exact Hc | lra]).
    assert (pow2 (ln - ld + 1) * pow2 ld <= pow2 (ln - ld + 1) * D)
      by (apply Qmult_le_l; assumption).
    lra. }
  unfold exponentOf. fold ln ld.
  destruct (Qle_bool (pow2 (ln - ld)) q) eqn:B.
  - apply Qle_bool_iff in B. split; assumption.
  - assert (Hlt : q < pow2 (ln - ld)).
    { apply Qnot_le_lt. intros Hc. apply Qle_bool_iff in Hc. congruence. }
    replace (ln - ld - 1 + 1)%Z with (ln - ld)%Z by lia.
    split; [now apply Qlt_le_weak | exact Hlt].
Qed.

Lemma exponent_at_least (q : Q) (e : Z) :
  0 < q -> pow2 e <= q -> (e <= exponentOf q)%Z.
Proof.
  intros Hq He. destruct (exponentOf_spec Hq) as [_ H].
  assert (Hlt : pow2 e < pow2 (exponentOf q + 1)) by lra.
  apply Qpower_lt_compat_l_inv in Hlt; [lia | reflexivity].
Qed.

Lemma exponent_below (q : Q) (e : Z) :
  0 < q -> q < pow2 e -> (exponentOf q < e)%Z.
Proof.
  intros Hq He. destruct (exponentOf_spec Hq) as [H _].
  assert (Hlt : pow2 (exponentOf q) < pow2 e) by lra.
  apply Qpower_lt_compat_l_inv in Hlt; [lia | reflexivity].
Qed.


(** *** Rounding to the last place *)

Lemma scaled (q : Q) (x : Z) : q / pow2 x * pow2 x == q.
Proof. pose proof (pow2_pos x). field. lra. Qed.

Lemma Qabs_scale (a p : Q) : 0 < p -> Qabs (a * p) == Qabs a * p.
Proof.
  intros Hp. rewrite Qabs_Qmult. rewrite (Qabs_pos p) by lra. reflexivity.
Qed.

(** No multiple of the last place is nearer to [q] than [nearest q]. *)
Lemma nearest_grid (q : Q) (k : Z) :
  Qabs (q - nearest q) <= Qabs (q - inject_Z k * pow2 (lastPlace q)).
Proof.
  unfold nearest. set (x := lastPlace q). set (y := q / pow2 x).
  pose proof (pow2_pos x) as Hp.
  assert (E : q == y * pow2 x) by (unfold y; now rewrite scaled).
  assert (E1 : q - inject_Z (roundHalfEven y) * pow2 x
               == (y - inject_Z (roundHalfEven y)) * pow2 x) by lra.
  assert (E2 : q - inject_Z k * pow2 x == (y - inject_Z k) * pow2 x) by lra.
  rewrite E1, E2, !Qabs_scale by exact Hp.
  apply Qmult_le_compat_r; [apply roundHalfEven_nearest | lra].
Qed.

Lemma nearest_half (q : Q) :
  Qabs (q - nearest q) <= pow2 (lastPlace q) * (1 # 2).
Proof.
  unfold nearest. set (x := lastPlace q). set (y := q / pow2 x).
  pose proof (pow2_pos x) as Hp.
  assert (E : q == y * pow2 x) by (unfold y; now rewrite scaled).
  assert (E1 : q - inject_Z (roundHalfEven y) * pow2 x
               == (y - inject_Z (roundHalfEven y)) * pow2 x) by lra.
  rewrite E1, Qabs_scale by exact Hp.
  pose proof (roundHalfEven_half y) as H.
  assert (Qabs (y - inject_Z (roundHalfEven y)) * pow2 x
          <= (1 # 2) * pow2 x)
    by (apply Qmult_le_compat_r; [exact H | lra]).
  lra.
Qed.

Lemma lastPlace_spec (q : Q) :
  (-1074 <= lastPlace q)%Z /\ (exponentOf q - 52 <= lastPlace q)%Z
  /\ (lastPlace q = -1074 \/ lastPlace q = exponentOf q - 52)%Z.
Proof. unfold lastPlace. lia. Qed.

(** A double is a multiple of the last place of [q], or lies below the
    power of two that [q] has reached. *)
Lemma double_on_grid (q r : Q) :
  0 < q -> isDouble r ->
  (exists k : Z, r == inject_Z k * pow2 (lastPlace q))
  \/ (Qabs r < pow2 (exponentOf q)
      /\ exists k : Z, pow2 (exponentOf q)
                       == inject_Z k * pow2 (lastPlace q)).
Proof.
  intros Hq (m & x' & Hm & Hx' & Er & _).
  destruct (lastPlace_spec q) as (Hx1 & Hx2 & Hx3).
  set (x := lastPlace q) in *. set (e := exponentOf q) in *.
  destruct (Z_le_gt_dec x x') as [Hle | Hgt].
  - left. exists (m * 2 ^ (x' - x))%Z.
    rewrite Er, inject_Z_mult, <- pow2_Z by lia.
    rewrite <- Qmult_assoc, <- pow2_plus.
    now replace (x' - x + x)%Z with x' by lia.
  - right. assert (Ex : x = (e - 52)%Z) by lia. split.
    + rewrite Er, Qabs_scale by apply pow2_pos.
      assert (Hm' : Qabs (inject_Z m) <= pow2 53 - 1).
      { assert (Hc : pow2 53 - 1 == inject_Z (2 ^ 53 - 1))
          by (vm_compute; reflexivity).
        assert (Hc' : - (pow2 53 - 1) == inject_Z (- (2 ^ 53 - 1)))
          by (vm_compute; reflexivity).
        apply Qabs_bound.
        - rewrite Hc', <- Zle_Qle. lia.
        - rewrite Hc, <- Zle_Qle. lia. }
      pose proof (pow2_pos x') as Hp.
      assert (H1 : Qabs (inject_Z m) * pow2 x' <= (pow2 53 - 1) * pow2 x')
        by (apply Qmult_le_compat_r; [exact Hm' | lra]).
      assert (H2 : pow2 53 * pow2 x' <= pow2 e).
      { rewrite <- pow2_plus. apply pow2_le. lia. }
      lra.
    + exists (2 ^ 52)%Z. rewrite <- pow2_Z, <- pow2_plus by lia.
      now replace (52 + x)%Z with e by lia.
Qed.

(** [nearest q] is as near to [q] as a double can be. *)
Lemma nearest_closest (q r : Q) :
  0 < q -> isDouble r -> Qabs (q - nearest q) <= Qabs (q - r).
Proof.
  intros Hq Hr. destruct (double_on_grid Hq Hr) as [[k E] | [Hlt [k E]]].
  - rewrite E. apply nearest_grid.
  - destruct (exponentOf_spec Hq) as [He _].
    pose proof (nearest_grid q k) as H. rewrite <- E in H.
    destruct (Qabs_lower r) as [H1 _].
    destruct (Qabs_lower (q - r)) as [H2 _].
    assert (H3 : Qabs (q - pow2 (exponentOf q)) == q - pow2 (exponentOf q))
      by (apply Qabs_pos; lra).
    lra.
Qed.


(** The integers up to 2^53 in size are doubles. *)
Lemma isDouble_Z (k : Z) : (Z.abs k <= 2 ^ 53)%Z -> isDouble (inject_Z k).
Proof.
  intros Hk.
  assert (Hbig : Qabs (inject_Z k) < pow2 1024).
  { assert (H : Qabs (inject_Z k) <= inject_Z (2 ^ 53)).
    { apply Qabs_bound.
      - rewrite <- inject_Z_opp, <- Zle_Qle. lia.
      - rewrite <- Zle_Qle. lia. }
    assert (inject_Z (2 ^ 53) < pow2 1024).
    { rewrite <- pow2_Z by lia. apply pow2_lt. lia. }
    lra. }
  destruct (Z_lt_ge_dec (Z.abs k) (2 ^ 53)) as [Hlt | Hge].
  - exists k, 0%Z. split; [exact Hlt|]. split; [lia|].
    split; [|exact Hbig]. unfold pow2. simpl. lra.
  - exists (k / 2)%Z, 1%Z.
    assert (Ek : (k = 2 ^ 53 \/ k = - 2 ^ 53)%Z) by lia.
    split; [destruct Ek as [-> | ->]; vm_compute; reflexivity|].
    split; [lia|]. split; [|exact Hbig].
    destruct Ek as [-> | ->]; vm_compute; reflexivity.
Qed.

Lemma roundHalfEven_le (y : Q) (k : Z) :
  y <= inject_Z k -> inject_Z (roundHalfEven y) <= inject_Z k.
Proof.
  intros H. pose proof (roundHalfEven_nearest y k) as Hn.
  destruct (Qabs_lower (y - inject_Z (roundHalfEven y))) as [_ H1].
  assert (H2 : Qabs (y - inject_Z k) == - (y - inject_Z k))
    by (apply Qabs_neg; lra).
  lra.
Qed.

Lemma roundHalfEven_ge (y : Q) (k : Z) :
  inject_Z k <= y -> inject_Z k <= inject_Z (roundHalfEven y).
Proof.
  intros H. pose proof (roundHalfEven_nearest y k) as Hn.
  destruct (Qabs_lower (y - inject_Z (roundHalfEven y))) as [H1 _].
  assert (H2 : Qabs (y - inject_Z k) == y - inject_Z k)
    by (apply Qabs_pos; lra).
  lra.
Qed.

(** Below 2^1024, [nearest q] is a double. *)
Lemma nearest_isDouble (q : Q) :
  0 < q -> nearest q < pow2 1024 -> isDouble (nearest q).
Proof.
  intros Hq Hbig.
  destruct (exponentOf_spec Hq) as [_ He].
  destruct (lastPlace_spec q) as (Hx1 & Hx2 & _).
  pose proof Hbig as Hbig'. unfold nearest in Hbig' |- *.
  set (x := lastPlace q) in *. set (y := q / pow2 x) in *.
  set (m := roundHalfEven y) in *.
  pose proof (pow2_pos x) as Hp.
  assert (E : q == y * pow2 x) by (unfold y; now rewrite scaled).
  assert (Hy0 : inject_Z 0 <= y).
  { change (inject_Z 0) with 0. apply Qnot_lt_le. intros Hc.
    assert (y * pow2 x < 0 * pow2 x)
      by (apply Qmult_lt_compat_r; assumption).
    lra. }
  assert (Hy1 : y <= inject_Z (2 ^ 53)).
  { rewrite <- pow2_Z by lia. apply Qnot_lt_le. intros Hc.
    assert (H1 : pow2 53 * pow2 x < y * pow2 x)
      by (apply Qmult_lt_compat_r; assumption).
    assert (H2 : pow2 (exponentOf q + 1) <= pow2 53 * pow2 x).
    { rewrite <- pow2_plus. apply pow2_le. lia. }
    lra. }
  apply roundHalfEven_ge in Hy0. apply roundHalfEven_le in Hy1.
  fold m in Hy0, Hy1. rewrite <- Zle_Qle in Hy0, Hy1.
  assert (Hr0 : 0 <= inject_Z m * pow2 x).
  { apply Qmult_le_0_compat; [|lra].
    change 0 with (inject_Z 0). now rewrite <- Zle_Qle. }
  assert (Habs : Qabs (inject_Z m * pow2 x) < pow2 1024)
    by (rewrite Qabs_pos; assumption).
  destruct (Z_lt_ge_dec m (2 ^ 53)) as [Hlt | Hge].
  - exists m, x. split; [lia|]. split; [exact Hx1|].
    split; [reflexivity | exact Habs].
  - exists (2 ^ 52)%Z, (x + 1)%Z. split; [reflexivity|]. split; [lia|].
    split; [|exact Habs].
    replace m with (2 ^ 53)%Z by lia. rewrite pow2_succ.
    assert (Hc : inject_Z (2 ^ 53) == 2 * inject_Z (2 ^ 52))
      by (vm_compute; reflexivity).
    rewrite Hc. ring.
Qed.

(** Rounding is between the doubles around [q], and leaves a double as
    it is. *)
Lemma nearest_above (q r : Q) :
  0 < q -> isDouble r -> r <= q -> r <= nearest q.
Proof.
  intros Hq Hr Hle. pose proof (nearest_closest Hq Hr) as H.
  destruct (Qabs_lower (q - nearest q)) as [H1 _].
  assert (H2 : Qabs (q - r) == q - r) by (apply Qabs_pos; lra).
  lra.
Qed.

Lemma nearest_below (q r : Q) :
  0 < q -> isDouble r -> q <= r -> nearest q <= r.
Proof.
  intros Hq Hr Hle. pose proof (nearest_closest Hq Hr) as H.
  destruct (Qabs_lower (q - nearest q)) as [_ H1].
  assert (H2 : Qabs (q - r) == - (q - r)) by (apply Qabs_neg; lra).
  lra.
Qed.

Lemma nearest_exact (q : Q) : 0 < q -> isDouble q -> nearest q == q.
Proof.
  intros Hq Hd.
  pose proof (nearest_above Hq Hd (Qle_refl q)).
  pose proof (nearest_below Hq Hd (Qle_refl q)). lra.
Qed.

(** From 2^-1022 on, the error of the rounding is at most [q] / 2^53. *)
Lemma nearest_relative (q : Q) :
  pow2 (-1022) <= q -> Qabs (q - nearest q) <= q * pow2 (-53).
Proof.
  intros Hq. pose proof (pow2_pos (-1022)) as Hp.
  assert (Hq0 : 0 < q) by lra.
  pose proof (@exponent_at_least _ _ Hq0 Hq) as He.
  destruct (exponentOf_spec Hq0) as [Hlow _].
  pose proof (nearest_half q) as H.
  assert (Hx : lastPlace q = (exponentOf q - 52)%Z)
    by (destruct (lastPlace_spec q) as (_ & ? & [? | ?]); lia).
  rewrite Hx in H.
  assert (E : pow2 (exponentOf q - 52) * (1 # 2)
              == pow2 (exponentOf q) * pow2 (-53)).
  { replace (exponentOf q - 52)%Z with (exponentOf q + -53 + 1)%Z by lia.
    rewrite pow2_succ, pow2_plus. ring. }
  pose proof (pow2_pos (-53)) as Hp53.
  assert (pow2 (exponentOf q) * pow2 (-53) <= q * pow2 (-53))
    by (apply Qmult_le_compat_r; [exact Hlow | lra]).
  lra.
Qed.

End Binary64Facts.

Module NumberFacts.
Import Binary64 Binary64Facts JsNumber.
Local Open Scope Q_scope.

Lemma binary64_not_NaN (q : Q) : binary64 q <> NaN.
Proof.
  unfold binary64. destruct (Qcompare q 0); [discriminate| |];
    destruct (Qle_bool _ _); discriminate.
Qed.

Lemma binary64_zero (q : Q) : q == 0 -> binary64 q = Num 0.
Proof.
  intros H. unfold binary64. apply Qeq_alt in H. now rewrite H.
Qed.

(** A positive rational up to 2^53 is rounded to the nearest double. *)
Lemma binary64_positive (q : Q) :
  0 < q -> q <= inject_Z (2 ^ 53) ->
  binary64 q = Num (Qred (nearest q)).
Proof.
  intros Hq Hle. unfold binary64.
  assert (E : Qcompare q 0 = Gt) by now apply Qgt_alt.
  rewrite E.
  assert (H : nearest q <= inject_Z (2 ^ 53)).
  { apply nearest_below; [exact Hq | | exact Hle].
    apply isDouble_Z. simpl. lia. }
  destruct (Qle_bool (pow2 1024) (nearest q)) eqn:B; [|reflexivity].
  apply Qle_bool_iff in B.
  assert (inject_Z (2 ^ 53) < pow2 1024).
  { rewrite <- pow2_Z by lia. apply pow2_lt. lia. }
  lra.
Qed.

Lemma ratio_bounds (a b lo hi : Z) :
  (0 < b)%Z -> (lo * b <= a)%Z -> (a <= hi * b)%Z ->
  inject_Z lo <= inject_Z a / inject_Z b
  /\ inject_Z a / inject_Z b <= inject_Z hi.
Proof.
  intros Hb Hlo Hhi.
  assert (Hpos : 0 < inject_Z b).
  { change 0 with (inject_Z 0). rewrite <- Zlt_Qlt. exact Hb. }
  split.
  - apply Qle_shift_div_l; [exact Hpos|].
    rewrite <- inject_Z_mult, <- Zle_Qle. exact Hlo.
  - apply Qle_shift_div_r; [exact Hpos|].
    rewrite <- inject_Z_mult, <- Zle_Qle. exact Hhi.
Qed.

(** An integer up to 2^53 is a double. *)
Lemma binary64_Z (z : Z) :
  (0 <= z <= 2 ^ 53)%Z -> binary64 (inject_Z z) = ofZ z.
Proof.
  intros Hz. unfold ofZ.
  assert (Hred : Qred (inject_Z z) = inject_Z z).
  { unfold Qred, inject_Z.
    pose proof (Z.ggcd_gcd z 1) as Hg.
    pose proof (Z.ggcd_correct_divisors z 1) as Hd.
    destruct (Z.ggcd z 1) as (g, (n, d)). simpl in Hg, Hd.
    rewrite Z.gcd_1_r in Hg. subst g. destruct Hd as [Hn Hd].
    assert (En : n = z) by lia. assert (Ed : d = 1%Z) by lia.
    rewrite En, Ed. reflexivity. }
  destruct (Z.eq_dec z 0) as [-> | Hne]; [reflexivity|].
  assert (Hpos : 0 < inject_Z z).
  { change 0 with (inject_Z 0). rewrite <- Zlt_Qlt. lia. }
  rewrite binary64_positive; [|exact Hpos | rewrite <- Zle_Qle; lia].
  f_equal. transitivity (Qred (inject_Z z)); [|exact Hred].
  apply Qred_complete.
  apply nearest_exact; [exact Hpos|]. apply isDouble_Z. lia.
Qed.

(** Adding integers is exact as long as the sum is at most 2^53. *)
Lemma add_exact (a z : Z) :
  (0 <= a)%Z -> (0 <= z)%Z -> (a + z <= 2 ^ 53)%Z ->
  add (ofZ a) z = ofZ (a + z).
Proof.
  intros Ha Hz Hsum. unfold add, ofZ at 1.
  assert (E : inject_Z a + inject_Z z = inject_Z (a + z)).
  { unfold inject_Z, Qplus. simpl. f_equal. lia. }
  rewrite E. apply binary64_Z. lia.
Qed.

Lemma add_not_NaN (x : t) (z : Z) : x <> NaN -> add x z <> NaN.
Proof.
  destruct x; simpl; [intros _; apply binary64_not_NaN | congruence
                      | discriminate].
Qed.

Lemma divide_not_NaN (x : t) (length : Z) :
  (0 < length)%Z -> x <> NaN -> divide x length <> NaN.
Proof.
  intros Hlen. destruct x; simpl; [|congruence | discriminate].
  intros _. destruct (length =? 0)%Z eqn:E; [apply Z.eqb_eq in E; lia|].
  apply binary64_not_NaN.
Qed.

(** Dividing a double that is an integer. *)
Lemma divide_ofZ (a b : Z) : (0 < b)%Z -> divide (ofZ a) b = div a b.
Proof.
  intros Hb. unfold divide, div, ofZ.
  now destruct (b =? 0)%Z eqn:E; [apply Z.eqb_eq in E; lia|].
Qed.

(** The quotient of two positive integers, the dividend up to 2^53. *)
Lemma div_positive (a b : Z) :
  (0 < b)%Z -> (0 < a <= 2 ^ 53)%Z ->
  0 < inject_Z a / inject_Z b
  /\ inject_Z a / inject_Z b <= inject_Z (2 ^ 53)
  /\ div a b = Num (Qred (nearest (inject_Z a / inject_Z b))).
Proof.
  intros Hb Ha.
  destruct (@ratio_bounds a b 0 (2 ^ 53) Hb) as [H0 H1]; [lia | nia|].
  assert (Hpos : 0 < inject_Z a / inject_Z b).
  { apply Qlt_shift_div_l.
    - change 0 with (inject_Z 0). rewrite <- Zlt_Qlt. exact Hb.
    - rewrite Qmult_0_l. change 0 with (inject_Z 0).
      rewrite <- Zlt_Qlt. lia. }
  split; [exact Hpos|]. split; [exact H1|].
  unfold div. destruct (b =? 0)%Z eqn:E; [apply Z.eqb_eq in E; lia|].
  now apply binary64_positive.
Qed.

End NumberFacts.

(* ================================================================== *)
(** ** The summary statistics *)

Module Summary.
Import DataProcessor IndexFacts MostFrequent.

Local Abbreviation freq := ProcessedVillain.frequency.
Local Abbreviation firstApp := ProcessedVillain.firstAppearance.

Definition record (n : Z) (names : list jsstring) : IssueData.t :=
  IssueData.make (Some n) (js "Issue") None names.

(** Issue 2 comes before issue 1 in the input. *)
Definition unordered : option RawVillainData.t :=
  issues_of (js "Test Series") [record 2 [js "A"]; record 1 [js "B"]].

(** Scenario E of the specification. *)
Definition scenarioE : option RawVillainData.t :=
  issues_of (js "Test Series")
    [record 1 [js "A"; js "B"]; record 2 [js "A"]].

Definition villainA : ProcessedVillain.t :=
  ProcessedVillain.make (js "a") [js "A"] (Some 1) [Some 1; Some 2] 2.
Definition villainB : ProcessedVillain.t :=
  ProcessedVillain.make (js "b") [js "B"] (Some 1) [Some 1] 1.

(** C2 as stated fails: on records that are not in ascending order of
    issue key, two villains tie on the counter and the one kept is the
    first seen, not the one with the earliest first appearance. *)
Lemma most_frequent_earliest_counterexample :
  exists out a b,
    processVillainData [] unordered = Completion.Return out
    /\ ProcessedData.villains out = [a; b]
    /\ VillainStats.mostFrequent (ProcessedData.stats out) = a
    /\ freq a = 1 /\ freq b = 1
    /\ firstApp a = Some 2 /\ firstApp b = Some 1
    /\ ~ specMostFrequent (ProcessedData.villains out)
           (VillainStats.mostFrequent (ProcessedData.stats out)).
Proof.
  eexists. eexists. eexists.
  split; [reflexivity|]. split; [reflexivity|].
  split; [reflexivity|]. repeat (split; [reflexivity|]).
  intros [i [Hi H]].
  destruct (H 1%nat _ eq_refl) as (_ & Hle & _).
  specialize (Hle eq_refl). simpl in Hle. lia.
Qed.

Lemma mostFrequent_of_values (m : VillainMap) (issues : list IssueData.t) :
  JsMap.values m <> [] ->
  firstMostFrequent (JsMap.values m)
    (VillainStats.mostFrequent (generateStats m issues)).
Proof.
  unfold generateStats. simpl.
  destruct (JsMap.values m) as [|first rest]; [congruence|].
  intros _. apply reduce_firstMostFrequent.
Qed.

(** C2, amended. When the index is not empty, [mostFrequent] is the entry
    with the maximal counter, ties resolved by first-seen insertion order
    alone; when the records come in ascending order of issue key, that
    entry is also the tied one with the earliest first appearance, so the
    rule of the specification holds. *)
Theorem most_frequent_first_seen
        (now : jsstring) (raw : RawVillainData.t)
        (issues : list IssueData.t) (out : ProcessedData.t) :
  RawVillainData.issues raw = RawVillainData.IssueArray issues ->
  processVillainData now (Some raw) = Completion.Return out ->
  ProcessedData.villains out <> [] ->
  firstMostFrequent (ProcessedData.villains out)
    (VillainStats.mostFrequent (ProcessedData.stats out))
  /\ (StronglySorted IssueKey.le (map IssueData.issueNumber issues) ->
      specMostFrequent (ProcessedData.villains out)
        (VillainStats.mostFrequent (ProcessedData.stats out))).
Proof.
  intros Hissues Hret Hne.
  apply processVillainData_returns in Hret.
  destruct Hret as (raw' & issues' & E & Hissues' & ->).
  injection E as <-. rewrite Hissues in Hissues'.
  injection Hissues' as <-. simpl in *.
  rewrite <- values_sortAppearances in *.
  pose proof (@mostFrequent_of_values _ issues Hne) as Hfirst.
  split; [exact Hfirst|]. intros Hsorted.
  apply spec_of_first; [|exact Hfirst].
  rewrite values_sortAppearances, firstApp_sortVillain.
  apply firstApp_sorted; [exact Hsorted | constructor | constructor].
Qed.

Lemma most_frequent_first_seen_witness :
  firstMostFrequent [villainA; villainB] villainA
  /\ specMostFrequent [villainA; villainB] villainA.
Proof.
  destruct (@most_frequent_first_seen []
              (RawVillainData.make (js "Test Series") []
                 (RawVillainData.IssueArray
                    [record 1 [js "A"; js "B"]; record 2 [js "A"]]))
              _ _ eq_refl eq_refl) as [Hfirst Hspec].
  - discriminate.
  - split; [exact Hfirst|]. apply Hspec. simpl.
    apply SSorted_cons;
      [apply SSorted_cons; [apply SSorted_nil | apply Forall_nil]|].
    apply Forall_cons; [unfold IssueKey.le; lia | apply Forall_nil].
Defined.

(** *** The mean *)

Definition sumFrequencies (vs : list ProcessedVillain.t) : Z :=
  fold_right Z.add 0 (map freq vs).

(** The exact mean of the frequencies. *)
Definition meanOf (vs : list ProcessedVillain.t) : Q :=
  Qdiv (inject_Z (sumFrequencies vs))
       (inject_Z (Z.of_nat (List.length vs))).

Lemma sum_nonnegative (vs : list ProcessedVillain.t) :
  Forall (fun v => 0 <= freq v) vs -> 0 <= sumFrequencies vs.
Proof.
  unfold sumFrequencies. induction 1 as [|v r Hv Hr IH]; simpl; lia.
Qed.

(** The additions of the second [reduce] are exact as long as the sum is
    a safe integer. *)
Lemma fold_left_sum (vs : list ProcessedVillain.t) (acc : Z) :
  0 <= acc -> Forall (fun v => 0 <= freq v) vs ->
  acc + sumFrequencies vs <= JsNumber.MAX_SAFE_INTEGER ->
  fold_left (fun sum v => JsNumber.add sum (freq v)) vs (JsNumber.ofZ acc)
  = JsNumber.ofZ (acc + sumFrequencies vs).
Proof.
  intros Hacc Hall. revert acc Hacc.
  induction Hall as [|v r Hv Hr IH]; intros acc Hacc Hsafe.
  - simpl. now rewrite Z.add_0_r.
  - pose proof (sum_nonnegative Hr) as Hsum.
    change (sumFrequencies (v :: r)) with (freq v + sumFrequencies r) in *.
    cbn [fold_left].
    rewrite NumberFacts.add_exact;
      [|exact Hacc | exact Hv
       | unfold JsNumber.MAX_SAFE_INTEGER in Hsafe; lia].
    rewrite IH; [f_equal; lia | lia | lia].
Qed.

Lemma fold_left_sum_not_NaN (vs : list ProcessedVillain.t)
      (x : JsNumber.t) :
  x <> JsNumber.NaN ->
  fold_left (fun sum v => JsNumber.add sum (freq v)) vs x <> JsNumber.NaN.
Proof.
  revert x. induction vs as [|v r IH]; intros x Hx; [exact Hx|].
  simpl. apply IH. now apply NumberFacts.add_not_NaN.
Qed.

(** The average, when the sum of the frequencies is a safe integer. *)
Lemma average_of_index (m : VillainMap) (issues : list IssueData.t) :
  Forall (fun v => 0 <= freq v) (JsMap.values m) ->
  sumFrequencies (JsMap.values m) <= JsNumber.MAX_SAFE_INTEGER ->
  VillainStats.averageFrequency (generateStats m issues)
  = if (0 <? List.length (JsMap.values m))%nat
    then JsNumber.div (sumFrequencies (JsMap.values m))
                      (Z.of_nat (List.length (JsMap.values m)))
    else JsNumber.ofZ 0.
Proof.
  intros Hall Hsafe.
  unfold generateStats. cbn [VillainStats.averageFrequency].
  destruct (0 <? List.length (JsMap.values m))%nat eqn:E; [|reflexivity].
  apply Nat.ltb_lt in E.
  rewrite fold_left_sum; [|lia | exact Hall | lia].
  rewrite Z.add_0_l. apply NumberFacts.divide_ofZ. lia.
Qed.

Lemma average_not_NaN (m : VillainMap) (issues : list IssueData.t) :
  VillainStats.averageFrequency (generateStats m issues) <> JsNumber.NaN.
Proof.
  unfold generateStats. cbn [VillainStats.averageFrequency].
  destruct (0 <? List.length (JsMap.values m))%nat eqn:E; [|discriminate].
  apply Nat.ltb_lt in E.
  apply NumberFacts.divide_not_NaN; [lia|].
  apply fold_left_sum_not_NaN. discriminate.
Qed.

End Summary.

(* ================================================================== *)
(** ** An input without any usable name *)

Module EmptyIndex.
Import JsString DataProcessor IndexFacts.

(** A raw name passes both [continue] tests of the inner loop. *)
Definition countsAsName (rawName : jsstring) : bool :=
  negb (negb (truthy rawName) || (List.length (trim rawName) =? 0)%nat)
  && negb (List.length (normalizeVillainName rawName) =? 0)%nat.

Definition noUsableName (issues : list IssueData.t) : Prop :=
  Forall (fun issue =>
            Forall (fun rawName => countsAsName rawName = false)
                   (IssueData.antagonists issue))
         issues.

Lemma recordName_skipped (k : issueKey) (m : VillainMap)
      (rawName : jsstring) :
  countsAsName rawName = false -> recordName k m rawName = m.
Proof.
  unfold countsAsName, recordName.
  destruct (_ || _); [reflexivity|].
  destruct (_ =? _)%nat; [reflexivity | discriminate].
Qed.

Lemma recordIssue_skipped (m : VillainMap) (issue : IssueData.t) :
  Forall (fun rawName => countsAsName rawName = false)
         (IssueData.antagonists issue) ->
  recordIssue m issue = m.
Proof.
  unfold recordIssue. induction 1 as [|n r Hn Hr IH]; simpl.
  - reflexivity.
  - now rewrite recordName_skipped.
Qed.

Lemma buildVillainMap_empty (issues : list IssueData.t) :
  noUsableName issues -> buildVillainMap issues = [].
Proof.
  unfold buildVillainMap, JsMap.empty.
  induction 1 as [|i r Hi Hr IH]; simpl.
  - reflexivity.
  - now rewrite recordIssue_skipped.
Qed.

Definition emptySlot (issue : IssueData.t) : Serialized.Timeline.t :=
  Serialized.Timeline.make (IssueData.issueNumber issue) 0 [].

(** C10. When no record yields a name that survives normalization, the
    index is empty: [processVillainData] returns [totalVillains] 0 and,
    for [mostFrequent], the object with no name and counter 0, and
    [serializeProcessedData] gives [stats.mostFrequent] as [undefined]
    next to the counts 0, no villain and one empty timeline slot per
    record. *)
Theorem empty_index_serialization
        (now : jsstring) (raw : RawVillainData.t)
        (issues : list IssueData.t) :
  RawVillainData.issues raw = RawVillainData.IssueArray issues ->
  noUsableName issues ->
  exists out,
    processVillainData now (Some raw) = Completion.Return out
    /\ ProcessedData.villains out = []
    /\ VillainStats.totalVillains (ProcessedData.stats out) = 0
    /\ VillainStats.mostFrequent (ProcessedData.stats out) = noVillain
    /\ ProcessedVillain.names noVillain = []
    /\ ProcessedVillain.frequency noVillain = 0
    /\ serializeProcessedData out
       = Serialized.make (RawVillainData.series raw) now
           (Serialized.Stats.make 0 None 0 (JsNumber.Num (inject_Z 0)))
           [] (map emptySlot issues).
Proof.
  intros Hissues Hnone. unfold processVillainData. rewrite Hissues.
  rewrite (buildVillainMap_empty Hnone). eexists.
  split; [reflexivity|]. simpl.
  repeat (split; [reflexivity|]).
  unfold serializeProcessedData. simpl. f_equal.
  unfold generateTimeline. rewrite map_map. reflexivity.
Qed.

Lemma empty_index_serialization_witness :
  exists out,
    processVillainData (js "2026-01-01T00:00:00.000Z")
      (issues_of (js "Test Series")
         [IssueData.make (Some 1) (js "Issue 1 (Failed)") None [];
          IssueData.make (Some 2) (js "Issue 2") None
            [js "  "; js "(unnamed)"]])
    = Completion.Return out
    /\ Serialized.Stats.mostFrequent
         (Serialized.stats (serializeProcessedData out)) = None
    /\ Serialized.timeline (serializeProcessedData out)
       = [Serialized.Timeline.make (Some 1) 0 [];
          Serialized.Timeline.make (Some 2) 0 []].
Proof.
  destruct (@empty_index_serialization (js "2026-01-01T00:00:00.000Z")
              (RawVillainData.make (js "Test Series") []
                 (RawVillainData.IssueArray
                    [IssueData.make (Some 1) (js "Issue 1 (Failed)") None [];
                     IssueData.make (Some 2) (js "Issue 2") None
                       [js "  "; js "(unnamed)"]]))
              _ eq_refl) as (out & Hret & _ & _ & _ & _ & _ & Hser).
  - apply Forall_cons; [apply Forall_nil|].
    apply Forall_cons; [|apply Forall_nil]. simpl.
    apply Forall_cons; [reflexivity|].
    apply Forall_cons; [reflexivity | apply Forall_nil].
  - exists out. split; [exact Hret|]. rewrite Hser. simpl.
    split; reflexivity.
Defined.

End EmptyIndex.

(* ================================================================== *)
(** ** Two calls on the same input: the heap and the clock *)

Module StatefulExamples.
Import Stateful DataProcessor.

(** A heap with two records and a villain left by an earlier call. *)
Definition h0 : heap :=
  [IssueObject (Summary.record 1 [js "A"; js "B"]);
   IssueObject (Summary.record 2 [js "A"]);
   VillainObject Summary.villainB].

Definition w0 : world := mkWorld h0 (fun n => [N.of_nat n]) 7.

Definition raw : RawRef.t :=
  RawRef.make (js "Test Series") [] (RawRef.IssueArray [0%nat; 1%nat]).

Example run_once :
  derefCompletion
    (objects (snd (Stateful.processVillainData (Some raw) w0)))
    (fst (Stateful.processVillainData (Some raw) w0))
  = DataProcessor.processVillainData [7%N] (Some (derefRaw h0 raw)).
Proof. vm_compute. reflexivity. Qed.

End StatefulExamples.

Module StatefulFacts.
Import JsString DataProcessor Stateful.
Local Open Scope nat_scope.

(** *** The heap *)

Lemma store_app (hp hs : heap) (i : nat) (o : object) :
  store (List.length hp + i) o (hp ++ hs) = hp ++ store i o hs.
Proof. induction hp as [|x r IH]; simpl; [reflexivity | now rewrite IH]. Qed.

Lemma store_first (hp hs : heap) (x o : object) :
  store (List.length hp) o (hp ++ x :: hs) = hp ++ o :: hs.
Proof. induction hp as [|y r IH]; simpl; [reflexivity | now rewrite IH]. Qed.

Lemma nth_error_prefix (hp hs : heap) (l : loc) :
  (l < List.length hp)%nat -> nth_error (hp ++ hs) l = nth_error hp l.
Proof. intros H. now apply nth_error_app1. Qed.

Lemma readIssue_prefix (hp hs : heap) (l : loc) :
  (l < List.length hp)%nat -> readIssue (hp ++ hs) l = readIssue hp l.
Proof. intros H. unfold readIssue. now rewrite nth_error_prefix. Qed.

Lemma readVillain_prefix (hp hs : heap) (l : loc) :
  (l < List.length hp)%nat -> readVillain (hp ++ hs) l = readVillain hp l.
Proof. intros H. unfold readVillain. now rewrite nth_error_prefix. Qed.

Lemma readVillain_first (hp hs : heap) (v : ProcessedVillain.t) :
  readVillain (hp ++ VillainObject v :: hs) (List.length hp) = v.
Proof.
  unfold readVillain. rewrite nth_error_app2 by lia.
  now rewrite Nat.sub_diag.
Qed.

(** *** The index by value and the index by reference *)

(** The references of an index [m] whose villains were created one after
    the other from address [base] on, and the heap that holds them behind
    [h0]. *)
Definition refs (base : nat) (m : VillainMap) : RefMap :=
  combine (JsMap.keys m) (seq base (List.length m)).

Definition holds (h0 : heap) (m : VillainMap) : heap :=
  h0 ++ map VillainObject (JsMap.values m).

Lemma refs_cons (base : nat) (k : jsstring) (v : ProcessedVillain.t)
      (m : VillainMap) :
  refs base ((k, v) :: m) = (k, base) :: refs (S base) m.
Proof. reflexivity. Qed.

Lemma refs_snoc (base : nat) (m : VillainMap) (k : jsstring)
      (v : ProcessedVillain.t) :
  refs base (m ++ [(k, v)])
  = refs base m ++ [(k, (base + List.length m)%nat)].
Proof.
  revert base. induction m as [|[k' v'] r IH]; intros base.
  - simpl. unfold refs. simpl. now rewrite Nat.add_0_r.
  - change (((k', v') :: r) ++ [(k, v)]) with ((k', v') :: (r ++ [(k, v)])).
    rewrite !refs_cons, IH. simpl. now rewrite Nat.add_succ_r.
Qed.

Lemma has_refs (base : nat) (m : VillainMap) (n : jsstring) :
  JsMap.has JsString.eqb n (refs base m) = has n m.
Proof.
  unfold has, JsMap.has. revert base.
  induction m as [|[k v] r IH]; intros base; [reflexivity|].
  rewrite refs_cons. simpl. destruct (JsString.eqb n k); [reflexivity|].
  apply IH.
Qed.

Lemma values_refs (base : nat) (m : VillainMap) :
  JsMap.values (refs base m) = seq base (List.length m).
Proof.
  unfold JsMap.values. revert base.
  induction m as [|[k v] r IH]; intros base; [reflexivity|].
  rewrite refs_cons. simpl. now rewrite IH.
Qed.

Lemma keys_refs (base : nat) (m : VillainMap) :
  JsMap.keys (refs base m) = JsMap.keys m.
Proof.
  unfold JsMap.keys. revert base.
  induction m as [|[k v] r IH]; intros base; [reflexivity|].
  rewrite refs_cons. simpl. now rewrite IH.
Qed.

Lemma holds_snoc (h0 : heap) (m : VillainMap) (k : jsstring)
      (v : ProcessedVillain.t) :
  holds h0 (m ++ [(k, v)]) = holds h0 m ++ [VillainObject v].
Proof.
  unfold holds, JsMap.values. rewrite !map_app. simpl.
  now rewrite app_assoc.
Qed.

Lemma length_holds (h0 : heap) (m : VillainMap) :
  List.length (holds h0 m) = (List.length h0 + List.length m)%nat.
Proof.
  unfold holds, JsMap.values. now rewrite length_app, !length_map.
Qed.

(** A villain that is in the index is updated where it stands. *)
Lemma update_in_place (f : ProcessedVillain.t -> ProcessedVillain.t)
      (n : jsstring) (m : VillainMap) (hp : heap) :
  has n m = true ->
  exists l,
    JsMap.get JsString.eqb n (refs (List.length hp) m) = Some l
    /\ store l
         (VillainObject
            (f (readVillain (hp ++ map VillainObject (JsMap.values m)) l)))
         (hp ++ map VillainObject (JsMap.values m))
       = hp ++ map VillainObject (JsMap.values (update n f m))
    /\ refs (List.length hp) (update n f m) = refs (List.length hp) m.
Proof.
  unfold has, update, JsMap.has. revert hp.
  induction m as [|[k v] r IH]; intros hp H; [discriminate H|].
  rewrite refs_cons. simpl in *. destruct (JsString.eqb n k) eqn:E.
  - exists (List.length hp). split; [reflexivity|]. split.
    + now rewrite readVillain_first, store_first.
    + reflexivity.
  - destruct (IH (hp ++ [VillainObject v]) H) as (l & Hget & Hstore & Hrefs).
    rewrite length_app in *. simpl in *.
    rewrite Nat.add_1_r in *.
    exists l. split; [exact Hget|]. split.
    + rewrite <- !app_assoc in Hstore. simpl in Hstore. exact Hstore.
    + rewrite refs_cons. now rewrite Hrefs.
Qed.


(** *** The loops *)

(** The record at [issue] is [i], in the part of the heap that was there
    before the call. *)
Definition pointsTo (h0 : heap) (issue : loc) (i : IssueData.t) : Prop :=
  nth_error h0 issue = Some (IssueObject i).

Lemma pointsTo_read (h0 hs : heap) (issue : loc) (i : IssueData.t) :
  pointsTo h0 issue i -> readIssue (h0 ++ hs) issue = i.
Proof.
  intros H. unfold pointsTo in H.
  assert (Hlt : issue < List.length h0)
    by (apply nth_error_Some; congruence).
  rewrite readIssue_prefix by exact Hlt. unfold readIssue. now rewrite H.
Qed.

Lemma recordName_sim (h0 : heap) (m : VillainMap) (issue : loc)
      (i : IssueData.t) (rawName : jsstring) :
  pointsTo h0 issue i ->
  Stateful.recordName issue (refs (List.length h0) m, holds h0 m) rawName
  = (refs (List.length h0)
          (DataProcessor.recordName (IssueData.issueNumber i) m rawName),
     holds h0 (DataProcessor.recordName (IssueData.issueNumber i) m rawName)).
Proof.
  intros Hi. unfold Stateful.recordName, DataProcessor.recordName.
  destruct (_ || _); [reflexivity|].
  destruct (_ =? _); [reflexivity|].
  rewrite has_refs.
  assert (Hr : readIssue (holds h0 m) issue = i)
    by (apply pointsTo_read; exact Hi).
  rewrite !Hr.
  destruct (has (normalizeVillainName rawName) m) eqn:Hhas; simpl negb;
    cbv iota.
  - destruct (@update_in_place
                (addAppearance (IssueData.issueNumber i))
                (normalizeVillainName rawName) m h0 Hhas)
      as (l & Hget & Hstore & Hrefs).
    rewrite Hget. unfold holds. rewrite Hstore.
    now rewrite Hrefs.
  - unfold alloc. rewrite length_holds.
    unfold set.
    rewrite (MapFacts.set_absent JsString.eqb _ _ _ Hhas).
    rewrite refs_snoc, holds_snoc.
    rewrite MapFacts.set_absent; [reflexivity|].
    now rewrite has_refs.
Qed.

Lemma recordIssue_sim (h0 : heap) (m : VillainMap) (issue : loc)
      (i : IssueData.t) :
  pointsTo h0 issue i ->
  Stateful.recordIssue (refs (List.length h0) m, holds h0 m) issue
  = (refs (List.length h0) (DataProcessor.recordIssue m i),
     holds h0 (DataProcessor.recordIssue m i)).
Proof.
  intros Hi. unfold Stateful.recordIssue, DataProcessor.recordIssue.
  cbn [snd].
  assert (Hr : readIssue (holds h0 m) issue = i)
    by (apply pointsTo_read; exact Hi).
  rewrite Hr. clear Hr. revert m.
  induction (IssueData.antagonists i) as [|n r IH]; intros m;
    cbn [fold_left].
  - reflexivity.
  - rewrite (recordName_sim _ _ Hi). apply IH.
Qed.

(** The records behind the references [issues]. *)
Definition recordsAt (h0 : heap) (issues : list loc)
                     (records : list IssueData.t) : Prop :=
  Forall2 (pointsTo h0) issues records.

Lemma recordIssues_sim (h0 : heap) (issues : list loc)
      (records : list IssueData.t) (m : VillainMap) :
  recordsAt h0 issues records ->
  fold_left Stateful.recordIssue issues (refs (List.length h0) m, holds h0 m)
  = (refs (List.length h0) (fold_left DataProcessor.recordIssue records m),
     holds h0 (fold_left DataProcessor.recordIssue records m)).
Proof.
  intros H. revert m.
  induction H as [|issue i issues records Hi Hr IH]; intros m;
    cbn [fold_left].
  - reflexivity.
  - rewrite (recordIssue_sim _ Hi). apply IH.
Qed.

Lemma buildVillainMap_sim (h0 : heap) (issues : list loc)
      (records : list IssueData.t) :
  recordsAt h0 issues records ->
  Stateful.buildVillainMap issues h0
  = (refs (List.length h0) (DataProcessor.buildVillainMap records),
     holds h0 (DataProcessor.buildVillainMap records)).
Proof.
  intros H. unfold Stateful.buildVillainMap, DataProcessor.buildVillainMap.
  rewrite <- (recordIssues_sim _ H).
  unfold refs, holds, JsMap.empty. simpl. now rewrite app_nil_r.
Qed.

Lemma sort_in_place (vs : list ProcessedVillain.t) (hp : heap) :
  fold_left (fun h villain =>
               store villain
                     (VillainObject (sortVillain (readVillain h villain))) h)
            (seq (List.length hp) (List.length vs))
            (hp ++ map VillainObject vs)
  = hp ++ map VillainObject (map sortVillain vs).
Proof.
  revert hp. induction vs as [|v r IH]; intros hp; simpl; [reflexivity|].
  rewrite readVillain_first, store_first.
  change (hp ++ VillainObject (sortVillain v) :: map VillainObject r)
    with (hp ++ [VillainObject (sortVillain v)] ++ map VillainObject r).
  rewrite app_assoc.
  replace (S (List.length hp))
    with (List.length (hp ++ [VillainObject (sortVillain v)]))
    by (rewrite length_app; simpl; lia).
  rewrite IH. now rewrite <- app_assoc.
Qed.

Lemma length_values (m : VillainMap) :
  List.length (JsMap.values m) = List.length m.
Proof. apply length_map. Qed.

Lemma sortAppearances_sim (h0 : heap) (m : VillainMap) :
  Stateful.sortAppearances (refs (List.length h0) m) (holds h0 m)
  = holds h0 (DataProcessor.sortAppearances m)
  /\ refs (List.length h0) (DataProcessor.sortAppearances m)
     = refs (List.length h0) m.
Proof.
  split.
  - unfold Stateful.sortAppearances, holds.
    rewrite values_refs, <- length_values, sort_in_place.
    now rewrite IndexFacts.values_sortAppearances.
  - unfold refs, DataProcessor.sortAppearances, JsMap.keys.
    rewrite map_map, length_map. reflexivity.
Qed.


(** *** Reading the result *)

Lemma read_refs (vs : list ProcessedVillain.t) (hp extra : heap) :
  map (readVillain ((hp ++ map VillainObject vs) ++ extra))
      (seq (List.length hp) (List.length vs))
  = vs.
Proof.
  revert hp. induction vs as [|v r IH]; intros hp; simpl; [reflexivity|].
  f_equal.
  - rewrite <- app_assoc. simpl. apply readVillain_first.
  - change (hp ++ VillainObject v :: map VillainObject r)
      with (hp ++ [VillainObject v] ++ map VillainObject r).
    rewrite app_assoc.
    replace (S (List.length hp))
      with (List.length (hp ++ [VillainObject v]))
      by (rewrite length_app; simpl; lia).
    apply IH.
Qed.

Lemma read_values (h0 extra : heap) (m : VillainMap) :
  map (readVillain (holds h0 m ++ extra))
      (JsMap.values (refs (List.length h0) m))
  = JsMap.values m.
Proof.
  rewrite values_refs, <- length_values. apply read_refs.
Qed.

Lemma read_extended (h0 extra : heap) (m : VillainMap) (l : loc) :
  In l (JsMap.values (refs (List.length h0) m)) ->
  readVillain (holds h0 m) l = readVillain (holds h0 m ++ extra) l.
Proof.
  rewrite values_refs. intros H. apply in_seq in H.
  symmetry. apply readVillain_prefix. rewrite length_holds. lia.
Qed.

Lemma map_filter_read (A B : Type) (f : A -> B) (p : B -> bool)
      (l : list A) :
  map f (filter (fun a => p (f a)) l) = filter p (map f l).
Proof.
  induction l as [|a r IH]; simpl; [reflexivity|].
  destruct (p (f a)); simpl; now rewrite IH.
Qed.

Lemma fold_left_read (A B C : Type) (f : A -> B) (g : C -> B -> C)
      (l : list A) (c : C) :
  fold_left (fun acc a => g acc (f a)) l c = fold_left g (map f l) c.
Proof.
  revert c. induction l as [|a r IH]; intros c; simpl; [reflexivity|].
  apply IH.
Qed.

Lemma timeline_sim (h0 extra : heap) (issues : list loc)
      (records : list IssueData.t) (m : VillainMap) :
  recordsAt h0 issues records ->
  map (derefTimeline (holds h0 m ++ extra))
      (Stateful.generateTimeline issues (refs (List.length h0) m)
                                 (holds h0 m))
  = DataProcessor.generateTimeline records m.
Proof.
  intros H. unfold Stateful.generateTimeline, DataProcessor.generateTimeline.
  rewrite map_map.
  induction H as [|issue i issues records Hi Hr IH]; simpl; [reflexivity|].
  rewrite IH. f_equal.
  assert (Hread : readIssue (holds h0 m) issue = i)
    by (apply pointsTo_read; exact Hi).
  rewrite Hread. unfold derefTimeline. simpl.
  set (p := fun villain =>
              IssueKey.includes (IssueData.issueNumber i)
                (ProcessedVillain.appearances villain)).
  assert (Hf : filter (fun villain => p (readVillain (holds h0 m) villain))
                      (JsMap.values (refs (List.length h0) m))
               = filter (fun villain =>
                           p (readVillain (holds h0 m ++ extra) villain))
                        (JsMap.values (refs (List.length h0) m))).
  { apply filter_ext_in. intros l Hl.
    now rewrite (read_extended h0 extra m l Hl). }
  unfold p in Hf at 1. rewrite Hf.
  rewrite (map_filter_read (readVillain (holds h0 m ++ extra)) p).
  rewrite read_values. f_equal.
  rewrite <- (length_map (readVillain (holds h0 m ++ extra))).
  rewrite (map_filter_read (readVillain (holds h0 m ++ extra)) p).
  now rewrite read_values.
Qed.

Lemma reduce_sim (h : heap) (rest : list loc) (first : loc) :
  readVillain h (reduce1 (Stateful.moreFrequent h) first rest)
  = reduce1 DataProcessor.moreFrequent (readVillain h first)
            (map (readVillain h) rest).
Proof.
  unfold reduce1. revert first.
  induction rest as [|l r IH]; intros first; simpl; [reflexivity|].
  rewrite IH. f_equal.
  unfold Stateful.moreFrequent, DataProcessor.moreFrequent.
  now destruct (_ >? _)%Z.
Qed.

Lemma reduce_In (h : heap) (rest : list loc) (first : loc) :
  In (reduce1 (Stateful.moreFrequent h) first rest) (first :: rest).
Proof.
  unfold reduce1. revert first.
  induction rest as [|l r IH]; intros first; simpl; [now left|].
  destruct (IH (Stateful.moreFrequent h first l)) as [H | H].
  - rewrite <- H. unfold Stateful.moreFrequent.
    destruct (_ >? _)%Z; auto.
  - auto.
Qed.

Lemma stats_sim (h0 : heap) (issues : list loc)
      (records : list IssueData.t) (m : VillainMap) :
  exists extra,
    snd (Stateful.generateStats (refs (List.length h0) m) issues (holds h0 m))
    = holds h0 m ++ extra
    /\ forall later,
        derefStats ((holds h0 m ++ extra) ++ later)
          (fst (Stateful.generateStats (refs (List.length h0) m) issues
                                       (holds h0 m)))
        = DataProcessor.generateStats m records.
Proof.
  unfold Stateful.generateStats, DataProcessor.generateStats.
  pose proof (read_values h0 [] m) as Hvals. rewrite app_nil_r in Hvals.
  rewrite (fold_left_read (readVillain (holds h0 m))
             (fun sum v => JsNumber.add sum (ProcessedVillain.frequency v))).
  rewrite (fold_left_read (readVillain (holds h0 m)) recordFirstAppearance).
  rewrite Hvals.
  assert (Hlen : List.length (JsMap.values (refs (List.length h0) m))
                 = List.length (JsMap.values m))
    by (now rewrite values_refs, length_seq, length_values).
  rewrite Hlen.
  destruct (JsMap.values (refs (List.length h0) m)) as [|first rest] eqn:E.
  - exists [VillainObject noVillain]. simpl. split; [reflexivity|].
    intros later. unfold derefStats. simpl. rewrite <- Hvals. simpl.
    f_equal. rewrite <- app_assoc. simpl. apply readVillain_first.
  - exists []. simpl. rewrite app_nil_r. split; [reflexivity|].
    intros later. unfold derefStats. simpl.
    rewrite <- (read_extended h0 later m).
    + rewrite reduce_sim. rewrite <- Hvals. reflexivity.
    + rewrite E. apply reduce_In.
Qed.

(** *** The call *)

Lemma recordsAt_extended (h0 extra : heap) (issues : list loc)
      (records : list IssueData.t) :
  recordsAt h0 issues records -> recordsAt (h0 ++ extra) issues records.
Proof.
  intros H. eapply Forall2_impl; [|exact H].
  unfold pointsTo. intros l i Hl. rewrite nth_error_app1; [exact Hl|].
  apply nth_error_Some. congruence.
Qed.

Lemma recordsAt_read (h0 : heap) (issues : list loc)
      (records : list IssueData.t) :
  recordsAt h0 issues records -> map (readIssue h0) issues = records.
Proof.
  induction 1 as [|l i issues records Hl Hr IH]; simpl; [reflexivity|].
  rewrite IH. f_equal. unfold readIssue. unfold pointsTo in Hl.
  now rewrite Hl.
Qed.

(** A call on an array of records returns; the values behind what it
    returns are those that the function of the records and of the clock
    reading gives, also after the heap has grown; the objects that were
    there before the call are as they were; and the clock has been read
    once. *)
Lemma call_sim (w : world) (rawData : RawRef.t) (issues : list loc)
      (records : list IssueData.t) :
  RawRef.issues rawData = RawRef.IssueArray issues ->
  recordsAt (objects w) issues records ->
  exists d new,
    Stateful.processVillainData (Some rawData) w
    = (Completion.Return d,
       mkWorld (objects w ++ new) (readings w) (S (tick w)))
    /\ forall later,
        Completion.Return (deref ((objects w ++ new) ++ later) d)
        = DataProcessor.processVillainData (readings w (tick w))
            (Some (RawVillainData.make (RawRef.series rawData)
                     (RawRef.baseUrl rawData)
                     (RawVillainData.IssueArray records))).
Proof.
  intros Hraw Hrec. unfold Stateful.processVillainData. rewrite Hraw.
  rewrite (buildVillainMap_sim Hrec).
  set (m := DataProcessor.buildVillainMap records).
  destruct (sortAppearances_sim (objects w) m) as [Hsort Hrefs].
  rewrite Hsort. rewrite <- Hrefs.
  set (ms := DataProcessor.sortAppearances m).
  destruct (stats_sim (objects w) issues records ms)
    as (extra & Hheap & Hstats).
  destruct (Stateful.generateStats (refs (List.length (objects w)) ms)
              issues (holds (objects w) ms)) as [stats h'] eqn:Eg.
  simpl in Hheap, Hstats. subst h'.
  unfold readClock. simpl.
  eexists. exists (map VillainObject (JsMap.values ms) ++ extra).
  split.
  - unfold holds. now rewrite <- app_assoc.
  - intros later. simpl. unfold deref. simpl. fold m. fold ms.
    replace ((objects w ++ map VillainObject (JsMap.values ms) ++ extra)
             ++ later)
      with (holds (objects w) ms ++ (extra ++ later))
      by (unfold holds; now rewrite <- !app_assoc).
    fold (holds (objects w) ms).
    rewrite read_values, (timeline_sim _ _ Hrec).
    rewrite app_assoc, Hstats. reflexivity.
Qed.

End StatefulFacts.

Module Determinism.
Import DataProcessor Stateful StatefulFacts.

(** What is left of a result when [processedAt] is not looked at. *)
Definition withoutProcessedAt (c : Completion.t ProcessedData.t)
  : Completion.t (jsstring * list ProcessedVillain.t
                  * list TimelineData.t * VillainStats.t) :=
  match c with
  | Completion.Return out =>
      Completion.Return
        (ProcessedData.series out, ProcessedData.villains out,
         ProcessedData.timeline out, ProcessedData.stats out)
  | Completion.Throw message => Completion.Throw message
  end.

(** The references of [rawData.issues] lead to records. *)
Definition recordsIn (h : heap) (rawData : option RawRef.t) : Prop :=
  match rawData with
  | Some rawData =>
      match RawRef.issues rawData with
      | RawRef.IssueArray issues =>
          Forall (fun issue => exists i, pointsTo h issue i) issues
      | RawRef.NotAnArray => True
      end
  | None => True
  end.

Lemma recordsAt_of (h : heap) (issues : list loc) :
  Forall (fun issue => exists i, pointsTo h issue i) issues ->
  recordsAt h issues (map (readIssue h) issues).
Proof.
  induction 1 as [|l issues [i Hl] Hr IH]; simpl; constructor; [|exact IH].
  unfold readIssue. unfold pointsTo in Hl. now rewrite Hl.
Qed.

Lemma clock_only (now1 now2 : jsstring) (rawData : option RawVillainData.t) :
  withoutProcessedAt (DataProcessor.processVillainData now1 rawData)
  = withoutProcessedAt (DataProcessor.processVillainData now2 rawData).
Proof.
  unfold DataProcessor.processVillainData.
  destruct rawData as [raw|]; [|reflexivity].
  now destruct (RawVillainData.issues raw).
Qed.

(** C9. Two calls on the same input give the same result once
    [processedAt] is left out, whatever the clock says and whatever else
    the heap holds: run one after the other on the same references, both
    throw the same error, or both return data whose values are the same
    series, villains, timeline and statistics. Each result is the value of
    one function of the records and of the clock reading of its call, which
    it puts in [processedAt]; the second call changes nothing of what the
    first returned; the records read the same after both calls; the objects
    that were there before are as they were; and the clock is read at most
    once per call. *)
Theorem same_input_same_output (w0 : world) (rawData : option RawRef.t) :
  recordsIn (objects w0) rawData ->
  let first := Stateful.processVillainData rawData w0 in
  let second := Stateful.processVillainData rawData (snd first) in
  let h1 := objects (snd first) in
  let h2 := objects (snd second) in
  let records := option_map (derefRaw (objects w0)) rawData in
  withoutProcessedAt (derefCompletion h2 (fst first))
  = withoutProcessedAt (derefCompletion h2 (fst second))
  /\ derefCompletion h1 (fst first)
     = DataProcessor.processVillainData (readings w0 (tick w0)) records
  /\ derefCompletion h2 (fst first) = derefCompletion h1 (fst first)
  /\ derefCompletion h2 (fst second)
     = DataProcessor.processVillainData
         (readings w0 (tick (snd first))) records
  /\ option_map (derefRaw h2) rawData = records
  /\ (exists new, h2 = objects w0 ++ new)
  /\ readings (snd second) = readings w0
  /\ (tick (snd second) <= tick w0 + 2)%nat.
Proof.
  intros Hin first second h1 h2 records.
  assert (Hmain :
            derefCompletion h1 (fst first)
            = DataProcessor.processVillainData (readings w0 (tick w0)) records
            /\ derefCompletion h2 (fst first) = derefCompletion h1 (fst first)
            /\ derefCompletion h2 (fst second)
               = DataProcessor.processVillainData
                   (readings w0 (tick (snd first))) records
            /\ option_map (derefRaw h2) rawData = records
            /\ (exists new, h2 = objects w0 ++ new)
            /\ readings (snd second) = readings w0
            /\ (tick (snd second) <= tick w0 + 2)%nat).
  { subst first second h1 h2 records.
    destruct rawData as [raw|]; cbn [option_map] in *;
      unfold recordsIn in Hin.
    2:{ repeat split; try reflexivity;
          [exists []; simpl; now rewrite app_nil_r | simpl; lia]. }
    destruct (RawRef.issues raw) as [|issues] eqn:Eraw.
    { unfold Stateful.processVillainData, derefRaw. rewrite !Eraw. simpl.
      rewrite ?Eraw. simpl.
      repeat split; try reflexivity;
        [exists []; simpl; now rewrite app_nil_r | simpl; lia]. }
    pose proof (recordsAt_of Hin) as Hrec.
    destruct (call_sim w0 raw Eraw Hrec) as (d1 & new1 & E1 & Hd1).
    rewrite E1. cbn [fst snd].
    pose proof (recordsAt_extended new1 Hrec) as Hrec1.
    destruct (call_sim (mkWorld (objects w0 ++ new1) (readings w0)
                                (S (tick w0)))
                       raw Eraw Hrec1) as (d2 & new2 & E2 & Hd2).
    rewrite E2.
    cbn [fst snd objects readings tick derefCompletion] in *.
    assert (Eraw' : derefRaw (objects w0) raw
                    = RawVillainData.make (RawRef.series raw)
                        (RawRef.baseUrl raw)
                        (RawVillainData.IssueArray
                           (map (readIssue (objects w0)) issues)))
      by (unfold derefRaw; now rewrite Eraw).
    rewrite Eraw'.
    split; [|split; [|split; [|split; [|split; [|split]]]]].
    - pose proof (Hd1 []) as H. rewrite app_nil_r in H. exact H.
    - pose proof (Hd1 []) as H. rewrite app_nil_r in H.
      now rewrite H, (Hd1 new2).
    - pose proof (Hd2 []) as H. rewrite app_nil_r in H. exact H.
    - f_equal. unfold derefRaw. rewrite Eraw. f_equal. f_equal.
      pose proof (recordsAt_extended new2 Hrec1) as Hrec2.
      now rewrite (recordsAt_read Hrec2).
    - exists (new1 ++ new2). now rewrite app_assoc.
    - reflexivity.
    - lia. }
  destruct Hmain as (H1 & H2 & H3 & H4 & H5 & H6 & H7).
  split; [|repeat split; assumption].
  rewrite H2, H1, H3. apply clock_only.
Qed.

Lemma same_input_same_output_witness :
  let first := Stateful.processVillainData (Some StatefulExamples.raw)
                 StatefulExamples.w0 in
  let second := Stateful.processVillainData (Some StatefulExamples.raw)
                  (snd first) in
  withoutProcessedAt (derefCompletion (objects (snd second)) (fst first))
  = withoutProcessedAt (derefCompletion (objects (snd second)) (fst second))
  /\ fst first <> fst second.
Proof.
  intros first second. split.
  - apply (@same_input_same_output StatefulExamples.w0
             (Some StatefulExamples.raw)).
    simpl. repeat constructor; eexists; reflexivity.
  - vm_compute. discriminate.
Defined.

End Determinism.

(* ================================================================== *)
(** ** When the aggregation fails *)

Module FailureSemantics.
Import DataProcessor IndexFacts.

Definition invalid : Completion.t ProcessedData.t :=
  Completion.Throw "Invalid raw data format".

(** A record without [issueNumber]. *)
Definition keyless : IssueData.t :=
  IssueData.make None (js "Issue") None [js "Villain A"].

(** C3 as stated fails: a record that lacks its issue key does not make
    the call fail. The villain is registered under [undefined]. *)
Lemma record_without_issue_key_counterexample :
  exists out,
    processVillainData [] (issues_of (js "Test Series") [keyless])
    = Completion.Return out
    /\ ProcessedData.villains out
       = [ProcessedVillain.make (js "villain-a") [js "Villain A"]
            None [None] 1]
    /\ processVillainData [] (issues_of (js "Test Series") [keyless])
       <> invalid.
Proof.
  eexists. split; [reflexivity|]. split; [reflexivity | discriminate].
Qed.

(** Every issue key in the index comes from a record that lists a
    name. *)
Section Provenance.
Variable P : issueKey -> Prop.

Definition fromP (v : ProcessedVillain.t) : Prop :=
  Forall P (ProcessedVillain.appearances v).

Lemma recordName_fromP (k : issueKey) (m : VillainMap)
      (rawName : jsstring) :
  P k -> Forall fromP (JsMap.values m) ->
  Forall fromP (JsMap.values (recordName k m rawName)).
Proof.
  intros Hk H. unfold recordName.
  destruct (_ || _); [exact H|].
  destruct (_ =? _)%nat; [exact H|].
  destruct (negb _).
  - apply MapFacts.Forall_values_set; [|exact H].
    unfold fromP. simpl. now repeat constructor.
  - apply MapFacts.Forall_values_update; [|exact H].
    intros v Hv. unfold addAppearance, fromP in *.
    destruct (negb _); [|exact Hv]. simpl.
    apply Forall_app. split; [exact Hv | now repeat constructor].
Qed.

Lemma recordIssue_fromP (m : VillainMap) (issue : IssueData.t) :
  (IssueData.antagonists issue <> [] -> P (IssueData.issueNumber issue)) ->
  Forall fromP (JsMap.values m) ->
  Forall fromP (JsMap.values (recordIssue m issue)).
Proof.
  unfold recordIssue. intros Hk.
  destruct (IssueData.antagonists issue) as [|n names]; [auto|].
  assert (Hp : P (IssueData.issueNumber issue)) by (apply Hk; discriminate).
  clear Hk. revert m.
  induction (n :: names) as [|x r IH]; simpl; intros m H.
  - exact H.
  - apply IH. now apply recordName_fromP.
Qed.

Lemma recordIssues_fromP (issues : list IssueData.t) (m : VillainMap) :
  Forall (fun issue => IssueData.antagonists issue <> [] ->
                       P (IssueData.issueNumber issue)) issues ->
  Forall fromP (JsMap.values m) ->
  Forall fromP (JsMap.values (fold_left recordIssue issues m)).
Proof.
  intros Hall. revert m.
  induction Hall as [|i r Hi Hr IH]; simpl; intros m H.
  - exact H.
  - apply IH. now apply recordIssue_fromP.
Qed.

End Provenance.

Lemma appearance_has_record (issues : list IssueData.t)
      (v : ProcessedVillain.t) (k : issueKey) :
  In v (JsMap.values (sortAppearances (buildVillainMap issues))) ->
  In k (ProcessedVillain.appearances v) ->
  exists issue, In issue issues
                /\ IssueData.issueNumber issue = k
                /\ IssueData.antagonists issue <> [].
Proof.
  set (P := fun k => exists issue, In issue issues
                       /\ IssueData.issueNumber issue = k
                       /\ IssueData.antagonists issue <> []).
  intros Hv Hk. rewrite values_sortAppearances in Hv.
  apply in_map_iff in Hv. destruct Hv as (u & <- & Hu).
  assert (Hall : Forall (fromP P) (JsMap.values (buildVillainMap issues))).
  { apply recordIssues_fromP; [|constructor].
    rewrite Forall_forall. intros issue Hin Hne. exists issue. auto. }
  rewrite Forall_forall in Hall. specialize (Hall u Hu).
  unfold fromP in Hall. rewrite Forall_forall in Hall. apply Hall.
  simpl in Hk.
  eapply Permutation_in; [apply KeyFacts.sort_perm | exact Hk].
Qed.

End FailureSemantics.

(* ================================================================== *)
(** ** Records that are not of the declared type *)

Module UntypedFacts.
Import DataProcessor IndexFacts Untyped.

(** A record that the loops accept: an object whose [antagonists] can be
    iterated and holds strings and falsy values only. *)
Definition accepted (issue : record) : Prop :=
  match issue with
  | Object _ (Names elements) => ~ In NotAString elements
  | _ => False
  end.

Lemma recordNames_thrown (k : issueKey) (elements : list nameValue) :
  fold_left (Untyped.recordName k) elements None = None.
Proof. induction elements as [|e r IH]; simpl; [reflexivity | exact IH]. Qed.

Lemma recordIssues_thrown (issues : list record) :
  fold_left Untyped.recordIssue issues None = None.
Proof. induction issues as [|i r IH]; simpl; [reflexivity | exact IH]. Qed.

Lemma recordName_falsy (k : issueKey) (m : VillainMap) :
  DataProcessor.recordName k m [] = m.
Proof. reflexivity. Qed.

Lemma recordNames_typed (k : issueKey) (elements : list nameValue)
      (m : VillainMap) :
  (~ In NotAString elements ->
   fold_left (Untyped.recordName k) elements (Some m)
   = Some (fold_left (DataProcessor.recordName k)
                     (map stringOf elements) m))
  /\ (In NotAString elements ->
      fold_left (Untyped.recordName k) elements (Some m) = None).
Proof.
  revert m. induction elements as [|e r IH]; intros m; simpl.
  - split; [reflexivity | intros []].
  - destruct e; simpl.
    + destruct (IH m) as [H1 H2]. split.
      * intros H. apply H1. intros Hin. apply H. now right.
      * intros [H | H]; [discriminate | now apply H2].
    + destruct (IH (DataProcessor.recordName k m s)) as [H1 H2]. split.
      * intros H. apply H1. intros Hin. apply H. now right.
      * intros [H | H]; [discriminate | now apply H2].
    + split; [intros H; exfalso; apply H; now left|].
      intros _. apply recordNames_thrown.
Qed.

Lemma recordIssue_typed (m : VillainMap) (issue : record) :
  (accepted issue ->
   Untyped.recordIssue (Some m) issue
   = Some (DataProcessor.recordIssue m (typed issue)))
  /\ (~ accepted issue -> Untyped.recordIssue (Some m) issue = None).
Proof.
  destruct issue as [|k [|elements]]; simpl.
  - split; [intros [] | reflexivity].
  - split; [intros [] | reflexivity].
  - destruct (recordNames_typed k elements m) as [H1 H2]. split.
    + exact H1.
    + intros H. apply H2.
      destruct (in_dec (fun a b : nameValue =>
                          ltac:(decide equality; apply list_eq_dec, N.eq_dec)
                          : {a = b} + {a <> b})
                       NotAString elements) as [Hin | Hin];
        [exact Hin | contradiction].
Qed.

Lemma recordIssues_typed (issues : list record) (m : VillainMap) :
  (Forall accepted issues ->
   fold_left Untyped.recordIssue issues (Some m)
   = Some (fold_left DataProcessor.recordIssue (map typed issues) m))
  /\ (~ Forall accepted issues ->
      fold_left Untyped.recordIssue issues (Some m) = None).
Proof.
  revert m. induction issues as [|i r IH]; intros m; cbn [fold_left map].
  - split; [reflexivity|]. intros H. exfalso. apply H. constructor.
  - destruct (recordIssue_typed m i) as [Hok Hbad]. split.
    + intros H. inversion H as [|? ? Hi Hr]; subst.
      rewrite (Hok Hi). now apply IH.
    + intros H.
      assert (Hdec : accepted i \/ ~ accepted i).
      { destruct i as [|k [|elements]]; simpl; [now right | now right|].
        destruct (in_dec (fun a b : nameValue =>
                            ltac:(decide equality;
                                  apply list_eq_dec, N.eq_dec)
                            : {a = b} + {a <> b})
                         NotAString elements); [right | left]; tauto. }
      destruct Hdec as [Hi | Hi].
      * rewrite (Hok Hi). apply IH. intros Hr. apply H. now constructor.
      * rewrite (Hbad Hi). apply recordIssues_thrown.
Qed.

Lemma buildVillainMap_typed (issues : list record) :
  (Forall accepted issues ->
   Untyped.buildVillainMap issues
   = Some (DataProcessor.buildVillainMap (map typed issues)))
  /\ (~ Forall accepted issues -> Untyped.buildVillainMap issues = None).
Proof. apply recordIssues_typed. Qed.

End UntypedFacts.

Module InvalidInput.
Import DataProcessor IndexFacts Untyped UntypedFacts.

Definition invalidInput : outcome := ThrowsError "Invalid raw data format".

(** A record with a list of strings for [antagonists], with or without
    an issue number. *)
Definition hasNameList (issue : record) : Prop :=
  exists k names, issue = Object k (Names (map Str names)).

Lemma hasNameList_accepted (issue : record) :
  hasNameList issue -> accepted issue.
Proof.
  intros (k & names & ->). simpl. intros H. apply in_map_iff in H.
  destruct H as (s & H & _). discriminate H.
Qed.

Lemma timeline_keys (issues : list IssueData.t) (m : VillainMap) :
  map TimelineData.issue (generateTimeline issues m)
  = map IssueData.issueNumber issues.
Proof. unfold generateTimeline. rewrite map_map. reflexivity. Qed.

Lemma returns_typed (now : jsstring) (series : jsstring)
      (issues : list record) :
  Forall accepted issues ->
  Untyped.processVillainData now
    (Some (Untyped.make series (IssueArray issues)))
  = Returns
      (ProcessedData.make series now
         (JsMap.values
            (sortAppearances
               (DataProcessor.buildVillainMap (map typed issues))))
         (generateTimeline (map typed issues)
            (sortAppearances
               (DataProcessor.buildVillainMap (map typed issues))))
         (generateStats
            (sortAppearances
               (DataProcessor.buildVillainMap (map typed issues)))
            (map typed issues))).
Proof.
  intros H. unfold Untyped.processVillainData. simpl.
  now rewrite (proj1 (buildVillainMap_typed issues) H).
Qed.

(** C3, amended. The call fails with the error "Invalid raw data format"
    when it is given nothing or when [issues] is not an array. It does not
    check that the records carry an issue number: on an array of records
    that each have a list of names it returns, with one timeline slot per
    record in input order that carries the issue number of the record,
    [undefined] included. A record with no antagonist leaves the index as
    it is, and its slot is empty (count 0) when no record with the same
    issue number lists a name. *)
Theorem invalid_without_array_not_without_key :
  (forall now, Untyped.processVillainData now None = invalidInput)
  /\ (forall now series,
        Untyped.processVillainData now
          (Some (Untyped.make series NotAnArray)) = invalidInput)
  /\ (forall now series issues,
        Forall hasNameList issues ->
        exists out,
          Untyped.processVillainData now
            (Some (Untyped.make series (IssueArray issues)))
          = Returns out
          /\ map TimelineData.issue (ProcessedData.timeline out)
             = map issueNumberOf issues
          /\ (forall m k,
                Untyped.recordIssue (Some m) (Object k (Names []))
                = Some m)
          /\ (forall i issue,
                nth_error issues i = Some issue ->
                (forall other, In other issues ->
                   issueNumberOf other = issueNumberOf issue ->
                   namesOf other = []) ->
                nth_error (ProcessedData.timeline out) i
                = Some (TimelineData.make (issueNumberOf issue) [] 0))).
Proof.
  split; [reflexivity|]. split; [reflexivity|].
  intros now series issues Hall.
  assert (Hacc : Forall accepted issues).
  { eapply Forall_impl; [|exact Hall]. apply hasNameList_accepted. }
  rewrite (returns_typed now series Hacc).
  eexists. split; [reflexivity|]. simpl. split; [|split].
  - now rewrite timeline_keys, map_map.
  - reflexivity.
  - intros i issue Hi Hnone. unfold generateTimeline.
    rewrite nth_error_map, nth_error_map, Hi. simpl.
    destruct (filter _ _) as [|v r] eqn:Ef; [reflexivity|]. exfalso.
    assert (Hv : In v (v :: r)) by now left.
    rewrite <- Ef in Hv. apply filter_In in Hv.
    destruct Hv as [Hv Hk]. apply KeyFacts.includes_In in Hk.
    destruct (@FailureSemantics.appearance_has_record _ v _ Hv Hk)
      as (other & Hin & Hkey & Hne).
    apply in_map_iff in Hin. destruct Hin as (o & <- & Ho).
    apply Hne. simpl. now apply Hnone.
Qed.

Lemma invalid_without_array_not_without_key_witness :
  exists out,
    Untyped.processVillainData []
      (Some (Untyped.make (js "Test Series")
               (IssueArray
                  [Object (Some 1) (Names []);
                   Object None (Names [Str (js "Villain A")])])))
    = Returns out
    /\ map TimelineData.issue (ProcessedData.timeline out)
       = [Some 1; None]
    /\ nth_error (ProcessedData.timeline out) 0
       = Some (TimelineData.make (Some 1) [] 0).
Proof.
  destruct invalid_without_array_not_without_key as (_ & _ & H).
  destruct (H [] (js "Test Series")
              [Object (Some 1) (Names []);
               Object None (Names [Str (js "Villain A")])])
    as (out & Hret & Hkeys & _ & Hslot).
  - constructor; [now exists (Some 1), [] |].
    constructor; [now exists None, [js "Villain A"] | constructor].
  - exists out. split; [exact Hret|]. split; [exact Hkeys|].
    apply (Hslot 0%nat _ eq_refl).
    intros other [<- | [<- | []]] Hkey; [reflexivity | discriminate Hkey].
Defined.

Lemma accepted_dec (issue : record) : accepted issue \/ ~ accepted issue.
Proof.
  destruct issue as [|k [|elements]]; simpl; [now right | now right|].
  induction elements as [|e r IH]; simpl; [now left|].
  destruct e.
  - destruct IH as [IH | IH]; [left | right].
    + intros [H | H]; [discriminate H | contradiction].
    + intros H. apply IH. intros Hin. apply H. now right.
  - destruct IH as [IH | IH]; [left | right].
    + intros [H | H]; [discriminate H | contradiction].
    + intros H. apply IH. intros Hin. apply H. now right.
  - right. intros H. apply H. now left.
Qed.

Lemma accepted_all_dec (issues : list record) :
  Forall accepted issues \/ ~ Forall accepted issues.
Proof.
  induction issues as [|i r IH]; [left; constructor|].
  destruct (accepted_dec i) as [Hi | Hi].
  - destruct IH as [IH | IH]; [left; now constructor|].
    right. intros H. inversion H. contradiction.
  - right. intros H. inversion H. contradiction.
Qed.

(** X22. On an array, the call never throws the error of the validation.
    It throws a [TypeError] exactly when some element of the array is
    [null] or [undefined], or has an [antagonists] that cannot be
    iterated, or lists a truthy value that is not a string; it returns
    otherwise, whether the records carry an issue number or not. *)
Theorem type_error_on_malformed_record
        (now series : jsstring) (issues : list record) :
  let call :=
    Untyped.processVillainData now
      (Some (Untyped.make series (IssueArray issues))) in
  call <> invalidInput
  /\ (call = ThrowsTypeError <-> Exists (fun issue => ~ accepted issue) issues)
  /\ ((exists out, call = Returns out) <-> Forall accepted issues).
Proof.
  intros call. subst call. unfold Untyped.processVillainData. simpl.
  destruct (accepted_all_dec issues) as [H | H].
  - rewrite (proj1 (buildVillainMap_typed issues) H).
    split; [discriminate|]. split.
    + split; [discriminate|]. intros Hex. exfalso.
      apply Exists_exists in Hex. destruct Hex as (i & Hin & Hi).
      rewrite Forall_forall in H. apply Hi, H, Hin.
    + split; [intros _; exact H|]. intros _. eexists. reflexivity.
  - rewrite (proj2 (buildVillainMap_typed issues) H).
    split; [discriminate|]. split.
    + split; [|reflexivity]. intros _.
      clear - H. induction issues as [|i r IH].
      * exfalso. apply H. constructor.
      * destruct (accepted_dec i) as [Hi | Hi]; [|now left].
        right. apply IH. intros Hr. apply H. now constructor.
    + split; [intros [out Hout]; discriminate Hout | contradiction].
Qed.

Lemma type_error_on_malformed_record_witness :
  Untyped.processVillainData []
    (Some (Untyped.make [] (IssueArray [Nullish])))
  = ThrowsTypeError
  /\ Untyped.processVillainData []
       (Some (Untyped.make []
                (IssueArray [Object (Some 1) (Names [Str (js "A")]);
                             Object (Some 2) NotIterable])))
     = ThrowsTypeError
  /\ Untyped.processVillainData []
       (Some (Untyped.make []
                (IssueArray [Object (Some 1)
                               (Names [Falsy; Str (js "A"); NotAString])])))
     = ThrowsTypeError.
Proof.
  split; [|split].
  - apply (proj1 (proj2 (type_error_on_malformed_record [] [] [Nullish]))).
    left. simpl. tauto.
  - apply (proj1 (proj2 (type_error_on_malformed_record [] []
                           [Object (Some 1) (Names [Str (js "A")]);
                            Object (Some 2) NotIterable]))).
    right. left. simpl. tauto.
  - apply (proj1 (proj2 (type_error_on_malformed_record [] []
                           [Object (Some 1)
                              (Names [Falsy; Str (js "A"); NotAString])]))).
    left. simpl. tauto.
Defined.

(** On records of the declared type, the call is the typed one. *)
Lemma recordIssue_untyped (m : VillainMap) (issue : IssueData.t) :
  DataProcessor.recordIssue m (typed (untyped issue))
  = DataProcessor.recordIssue m issue.
Proof.
  unfold DataProcessor.recordIssue, typed, untyped. simpl.
  rewrite map_map. simpl. now rewrite map_id.
Qed.

Lemma typed_call (now : jsstring) (raw : RawVillainData.t)
      (issues : list IssueData.t) :
  RawVillainData.issues raw = RawVillainData.IssueArray issues ->
  Untyped.processVillainData now
    (Some (Untyped.make (RawVillainData.series raw)
             (IssueArray (map untyped issues))))
  = match DataProcessor.processVillainData now (Some raw) with
    | Completion.Return out => Returns out
    | Completion.Throw message => ThrowsError message
    end.
Proof.
  intros Hraw. unfold DataProcessor.processVillainData. rewrite Hraw.
  rewrite returns_typed.
  2:{ rewrite Forall_map, Forall_forall. intros issue _.
      apply hasNameList_accepted. now eexists _, _. }
  assert (Hm : DataProcessor.buildVillainMap (map typed (map untyped issues))
               = DataProcessor.buildVillainMap issues).
  { unfold DataProcessor.buildVillainMap. clear Hraw.
    generalize (JsMap.empty jsstring ProcessedVillain.t).
    induction issues as [|i r IH]; intros m; simpl; [reflexivity|].
    rewrite recordIssue_untyped. apply IH. }
  rewrite Hm. f_equal. f_equal.
  unfold generateTimeline. rewrite !map_map. reflexivity.
Qed.

End InvalidInput.

(* ================================================================== *)
(** ** The arrow filter and the text fallback of the scraper *)

Module ScraperFacts.
Import JsString Regex Dom Scraper.

(** *** The reading of the specification *)

(** The navigation-arrow glyphs in the words of the specification:
    single-direction arrows and triangles, left, right, up or down
    pointers of any style. The blocks taken here are the arrows U+2190 to
    U+21FF, the triangles and pointers U+25B2 to U+25C5 and the media
    triangles U+23F4 to U+23F7. *)
Definition specArrowGlyph (c : N) : bool :=
  (((0x2190 <=? c) && (c <=? 0x21FF)) || ((0x25B2 <=? c) && (c <=? 0x25C5))
   || ((0x23F4 <=? c) && (c <=? 0x23F7)))%N.

(** A text composed entirely of white space or such glyphs. *)
Definition specArrowOnly (s : jsstring) : bool :=
  forallb (fun c => isWhiteSpace c || specArrowGlyph c) s.

(** *** What the code skips *)

(** A link text that the link loop can never take for a name because of
    its size or of the class of the filter: at most one code unit, or
    white space and [⏴◀▶→←↑↓] only. *)
Definition navOnly (s : jsstring) : bool :=
  (List.length s <=? 1)%nat || matchNav s.

Lemma navOnly_not_qualifies (s : jsstring) :
  navOnly s = true -> qualifies s = false.
Proof.
  unfold navOnly, qualifies. intros H. apply orb_true_iff in H.
  destruct H as [H | H].
  - apply Nat.leb_le in H.
    destruct (1 <? List.length s)%nat eqn:E.
    + apply Nat.ltb_lt in E. lia.
    + now rewrite andb_false_r.
  - rewrite H. simpl. now rewrite andb_false_r.
Qed.

Lemma qualifies_pushed (s : jsstring) :
  qualifies s = true ->
  truthy s = true /\ (1 <? List.length s)%nat = true
  /\ matchNav s = false /\ matchSee s = false.
Proof.
  unfold qualifies. intros H.
  apply andb_true_iff in H. destruct H as [H Hsee].
  apply andb_true_iff in H. destruct H as [H Hnav].
  apply andb_true_iff in H. destruct H as [Ht Hl].
  apply negb_true_iff in Hsee, Hnav. auto.
Qed.

Lemma scanLinks_none (links : list node) :
  Forall (fun l => qualifies (trim (text l)) = false) links ->
  scanLinks links = [].
Proof.
  induction 1 as [|l r Hl Hr IH]; simpl; [reflexivity|].
  now rewrite Hl.
Qed.

(** The result of a page is the concatenation of what each visited list
    item gives. *)
Lemma pushItem_app (acc : list jsstring) (item : node) :
  pushItem acc item = acc ++ pushItem [] item.
Proof.
  unfold pushItem. destruct (_ && _); [reflexivity|].
  now rewrite app_nil_r.
Qed.

Lemma pushItems_app (items : list node) (acc : list jsstring) :
  fold_left pushItem items acc = acc ++ parseListItems items.
Proof.
  unfold parseListItems. revert acc.
  induction items as [|item r IH] using rev_ind; intros acc.
  - simpl. now rewrite app_nil_r.
  - rewrite !fold_left_app. simpl.
    rewrite pushItem_app, IH, (pushItem_app (fold_left _ _ _)).
    now rewrite app_assoc.
Qed.

Lemma parseListItems_app (items1 items2 : list node) :
  parseListItems (items1 ++ items2)
  = parseListItems items1 ++ parseListItems items2.
Proof.
  unfold parseListItems at 1. rewrite fold_left_app.
  fold (parseListItems items1). apply pushItems_app.
Qed.

Lemma visitElement_items (acc : list jsstring) (el : node * option node) :
  visitElement acc el = acc ++ parseListItems (itemsOfElement el).
Proof.
  unfold visitElement, itemsOfElement.
  destruct (hasAntagonistLabel (fst el)).
  - destruct (nextList (fst el) (snd el)).
    + apply pushItems_app.
    + now rewrite app_nil_r.
  - now rewrite app_nil_r.
Qed.

Lemma visitElements_items (els : list (node * option node))
      (acc : list jsstring) :
  fold_left visitElement els acc
  = acc ++ parseListItems (flat_map itemsOfElement els).
Proof.
  revert acc. induction els as [|el r IH]; simpl; intros acc.
  - now rewrite app_nil_r.
  - rewrite IH, visitElement_items, parseListItems_app.
    now rewrite app_assoc.
Qed.

Lemma visitHeading_items (acc : list jsstring) (h : node * list node) :
  visitHeading acc h = acc ++ parseListItems (itemsOfHeading h).
Proof.
  unfold visitHeading, itemsOfHeading.
  destruct (includes _ _).
  - apply visitElements_items.
  - now rewrite app_nil_r.
Qed.

Lemma parseAntagonistsFromHtml_items (document : node) :
  parseAntagonistsFromHtml document
  = parseListItems (antagonistItems document).
Proof.
  unfold parseAntagonistsFromHtml, antagonistItems.
  change (parseListItems (flat_map itemsOfHeading (headings document)))
    with ([] ++ parseListItems
                  (flat_map itemsOfHeading (headings document))).
  generalize (@nil jsstring) as acc.
  induction (headings document) as [|h r IH]; simpl; intros acc.
  - now rewrite app_nil_r.
  - rewrite IH, visitHeading_items, parseListItems_app.
    now rewrite app_assoc.
Qed.

(** What a page gives around one of its visited list items. *)
Lemma parse_around_item (document : node) (before after : list node)
      (item : node) :
  antagonistItems document = before ++ item :: after ->
  parseAntagonistsFromHtml document
  = parseListItems before ++ pushItem [] item ++ parseListItems after.
Proof.
  intros H. rewrite parseAntagonistsFromHtml_items, H.
  rewrite parseListItems_app.
  change (item :: after) with ([item] ++ after).
  now rewrite parseListItems_app.
Qed.

(** A page with one story and the antagonist list [items]. *)
Definition storyPage (items : list node) : node :=
  Element "body"
    [ Element "h2" [Text (js "Appearing in Story")];
      Element "p" [Element "b" [Text (js "Antagonists:")]];
      Element "ul" items ].

Definition pointer (c : N) : node := a [c; c].

(** A name between two double pointers, [◄◄] and [►►]. *)
Definition rewindItem : node :=
  li [pointer 0x25C4%N; a (js "Chameleon"); pointer 0x25BA%N].

(** The same with the right-hand arrow of the wiki, doubled. *)
Definition doubledArrowItem : node :=
  li [pointer 0x23F5%N; a (js "Chameleon"); pointer 0x23F5%N].

(** C1 as stated fails: the class of the filter holds seven glyphs, and a
    link made of two pointers of another style is taken for the name. *)
Lemma arrow_filter_counterexample :
  find "a" rewindItem
  = [pointer 0x25C4%N; a (js "Chameleon"); pointer 0x25BA%N]
  /\ specArrowOnly (trim (text (pointer 0x25C4%N))) = true
  /\ specArrowOnly (trim (text (a (js "Chameleon")))) = false
  /\ specArrowOnly (trim (text (pointer 0x25BA%N))) = true
  /\ antagonistItems (storyPage [rewindItem]) = [rewindItem]
  /\ parseAntagonistsFromHtml (storyPage [rewindItem])
     = [[0x25C4; 0x25C4]%N]
  /\ parseAntagonistsFromHtml (storyPage [rewindItem]) <> [js "Chameleon"].
Proof. repeat (split; [reflexivity|]). discriminate. Qed.

Example doubled_wiki_arrow :
  parseAntagonistsFromHtml (storyPage [doubledArrowItem])
  = [[0x23F5; 0x23F5]%N].
Proof. reflexivity. Qed.

(** C1, amended. For a list item whose links are a navigation-only link,
    a real-name link and another navigation-only link, the extractor
    returns the trimmed text of the real-name link and nothing else, on
    every page where the item is in an antagonist list.
    Navigation-only means here: trimmed text of at most one code unit, or
    made of white space and the glyphs [⏴◀▶→←↑↓] only; real name means:
    more than one code unit, not so made, and not starting with "see" in
    any letter case. *)
Theorem arrow_links_skipped
        (item l1 l2 l3 : node) (antagonists : list jsstring) :
  find "a" item = [l1; l2; l3] ->
  navOnly (trim (text l1)) = true ->
  qualifies (trim (text l2)) = true ->
  navOnly (trim (text l3)) = true ->
  itemName item = trim (text l2)
  /\ pushItem antagonists item = antagonists ++ [trim (text l2)]
  /\ matchNav (trim (text l2)) = false
  /\ (forall document before after,
        antagonistItems document = before ++ item :: after ->
        parseAntagonistsFromHtml document
        = parseListItems before ++ [trim (text l2)]
          ++ parseListItems after).
Proof.
  intros Hlinks H1 H2 _.
  apply navOnly_not_qualifies in H1.
  destruct (qualifies_pushed _ H2) as (Ht & Hl & Hnav & _).
  assert (Hname : itemName item = trim (text l2)).
  { unfold itemName. rewrite Hlinks. simpl. rewrite H1, H2, Ht.
    reflexivity. }
  assert (Hpush : forall acc, pushItem acc item = acc ++ [trim (text l2)]).
  { intros acc. unfold pushItem. rewrite Hname, Ht, Hl. reflexivity. }
  repeat split; [exact Hname | apply Hpush | exact Hnav |].
  intros document before after Hitems.
  rewrite (@parse_around_item _ _ _ _ Hitems). now rewrite (Hpush []).
Qed.

(** Scenario B of the specification. *)
Definition scenarioB : node :=
  li [a [0x23F4%N]; a (js "Chameleon"); a [0x23F5%N]].

Lemma arrow_links_skipped_witness :
  parseAntagonistsFromHtml (storyPage [scenarioB]) = [js "Chameleon"].
Proof.
  destruct (@arrow_links_skipped scenarioB
              (a [0x23F4%N]) (a (js "Chameleon")) (a [0x23F5%N]) []
              eq_refl eq_refl eq_refl eq_refl) as (_ & _ & _ & Hpage).
  apply (Hpage (storyPage [scenarioB]) [] []). reflexivity.
Defined.

End ScraperFacts.

Module TextFallback.
Import JsString Regex Dom Scraper ScraperFacts.

(** The first line of the text of an item, trimmed. *)
Definition ownText (item : node) : jsstring :=
  trim (firstLine (text item)).

(** A plain name followed by the arrow to the next appearance. *)
Definition burglarItem : node :=
  li [Text (js "Burglar "); a [0x23F5%N]].

(** The item [<li>Burglar <a>⏵</a></li>]: its only link is an arrow, which
    yields no qualifying name, and the text of the item passes the filter
    of the text branch, yet the item gives nothing. The text branch is not
    entered because the link text, though too short to be kept, is not
    empty. *)
Lemma lone_arrow_link_gives_nothing :
  find "a" burglarItem = [a [0x23F5%N]]
  /\ qualifies (trim (text (a [0x23F5%N]))) = false
  /\ (1 <? List.length (trim (text (a [0x23F5%N]))))%nat = false
  /\ ownText burglarItem = js "Burglar " ++ [0x23F5%N]
  /\ textPasses (ownText burglarItem) = true
  /\ antagonistItems (storyPage [burglarItem]) = [burglarItem]
  /\ parseAntagonistsFromHtml (storyPage [burglarItem]) = []
  /\ parseAntagonistsFromHtml (storyPage [burglarItem])
     <> [ownText burglarItem].
Proof. repeat (split; [reflexivity|]). discriminate. Qed.

(** The links yield the empty name: there is no link, or one link with
    an empty trimmed text, or several links none of which passes the test
    of the loop. *)
Definition noNameFromLinks (links : list node) : Prop :=
  links = []
  \/ (exists l, links = [l] /\ trim (text l) = [])
  \/ ((2 <= List.length links)%nat
      /\ Forall (fun l => qualifies (trim (text l)) = false) links).

Lemma noNameFromLinks_empty (links : list node) :
  noNameFromLinks links -> nameFromLinks links = [].
Proof.
  intros [-> | [[l [-> E]] | [Hlen Hall]]].
  - reflexivity.
  - exact E.
  - destruct links as [|l1 [|l2 r]]; simpl in Hlen; try lia.
    unfold nameFromLinks. now apply scanLinks_none.
Qed.

Lemma textPasses_pushed (t : jsstring) :
  textPasses t = true ->
  truthy t && (1 <? List.length t)%nat = true.
Proof.
  unfold textPasses. intros H. apply andb_true_iff in H. tauto.
Qed.

(** C4. The text branch is guarded by [if (!name)]. When the links of a
    list item leave [name] empty (no link, one link with an empty text, or
    several links none of which passes the test of the loop), the extractor
    takes the text of the item up to its first line break, trimmed, and
    keeps it exactly when it passes the filter. The branch for exactly one
    link assigns the trimmed text of that link without any test, so an item
    whose only link has a text that does not qualify never reaches the text
    branch, unlike an item with several such links: the link text is kept
    when longer than one code unit and the item gives nothing otherwise.
    Both hold for the callback and for every page where the item is in an
    antagonist list. *)
Theorem single_link_skips_text_fallback
        (item : node) (antagonists : list jsstring) :
  (noNameFromLinks (find "a" item) ->
   let kept := if textPasses (ownText item) then [ownText item] else [] in
   pushItem antagonists item = antagonists ++ kept
   /\ (forall document before after,
         antagonistItems document = before ++ item :: after ->
         parseAntagonistsFromHtml document
         = parseListItems before ++ kept ++ parseListItems after))
  /\ (forall l, find "a" item = [l] -> trim (text l) <> [] ->
      let kept := if (1 <? List.length (trim (text l)))%nat
                  then [trim (text l)] else [] in
      pushItem antagonists item = antagonists ++ kept
      /\ (forall document before after,
            antagonistItems document = before ++ item :: after ->
            parseAntagonistsFromHtml document
            = parseListItems before ++ kept ++ parseListItems after)).
Proof.
  split.
  - intros H kept. apply noNameFromLinks_empty in H.
    assert (Hpush : forall acc, pushItem acc item = acc ++ kept).
    { intros acc. unfold pushItem, itemName. rewrite H. simpl.
      unfold nameFromText. fold (ownText item). subst kept.
      destruct (textPasses (ownText item)) eqn:E.
      - now rewrite (textPasses_pushed _ E).
      - simpl. now rewrite app_nil_r. }
    split; [apply Hpush|]. intros document before after Hitems.
    rewrite (@parse_around_item _ _ _ _ Hitems). now rewrite (Hpush []).
  - intros l Hl Hne kept.
    assert (Hpush : forall acc, pushItem acc item = acc ++ kept).
    { intros acc. unfold pushItem, itemName. rewrite Hl. simpl. subst kept.
      destruct (trim (text l)) as [|c r] eqn:E; [congruence|]. simpl.
      destruct (1 <? S (List.length r))%nat; [reflexivity|].
      now rewrite app_nil_r. }
    split; [apply Hpush|]. intros document before after Hitems.
    rewrite (@parse_around_item _ _ _ _ Hitems). now rewrite (Hpush []).
Qed.

Definition arrowsAroundText : node :=
  li [a [0x23F4%N]; Text (js " Kraven "); a [0x23F5%N]].

Lemma single_link_skips_text_fallback_witness :
  parseAntagonistsFromHtml
    (storyPage [li [Text (js "Burglar (Only in recap)")]])
  = [js "Burglar (Only in recap)"]
  /\ parseAntagonistsFromHtml (storyPage [arrowsAroundText])
     = [[0x23F4%N] ++ js " Kraven " ++ [0x23F5%N]]
  /\ parseAntagonistsFromHtml (storyPage [burglarItem]) = [].
Proof.
  split; [|split].
  - destruct (single_link_skips_text_fallback
                (li [Text (js "Burglar (Only in recap)")]) []) as [H _].
    destruct H as [_ H]; [left; reflexivity|].
    apply (H (storyPage [li [Text (js "Burglar (Only in recap)")]]) [] []).
    reflexivity.
  - destruct (single_link_skips_text_fallback arrowsAroundText [])
      as [H _].
    destruct H as [_ H].
    + right. right. simpl. split; [lia|].
      apply Forall_cons; [reflexivity|].
      apply Forall_cons; [reflexivity | apply Forall_nil].
    + apply (H (storyPage [arrowsAroundText]) [] []). reflexivity.
  - destruct (single_link_skips_text_fallback burglarItem [])
      as [_ H].
    destruct (H (a [0x23F5%N])) as [_ H']; [reflexivity | discriminate|].
    apply (H' (storyPage [burglarItem]) [] []). reflexivity.
Defined.

End TextFallback.

(* ================================================================== *)
(** ** More on strings: trimmed results *)

Module TrimFacts.
Import JsString Regex.

Lemma dropWhile_idem (p : N -> bool) (s : jsstring) :
  dropWhile p (dropWhile p s) = dropWhile p s.
Proof.
  induction s as [|c r IH]; simpl; [reflexivity|].
  destruct (p c) eqn:E; [exact IH|]. simpl. now rewrite E.
Qed.

Lemma dropWhile_snoc (p : N -> bool) (s : jsstring) (c : N) :
  dropWhile p (s ++ [c])
  = if forallb p s then (if p c then [] else [c])
    else dropWhile p s ++ [c].
Proof.
  induction s as [|d r IH]; simpl; [reflexivity|].
  destruct (p d); simpl; [exact IH | reflexivity].
Qed.

Lemma trimEnd_cons (c : N) (s : jsstring) :
  trimEnd (c :: s)
  = if forallb isWhiteSpace (rev s)
    then (if isWhiteSpace c then [] else [c])
    else c :: trimEnd s.
Proof.
  unfold trimEnd. simpl. rewrite dropWhile_snoc.
  destruct (forallb isWhiteSpace (rev s)).
  - destruct (isWhiteSpace c); reflexivity.
  - rewrite rev_app_distr. reflexivity.
Qed.

(** A string without white space at either end. *)
Definition trimmed (s : jsstring) : Prop := trim s = s.

Lemma trimStart_fixed (s : jsstring) :
  match s with [] => True | c :: _ => isWhiteSpace c = false end ->
  trimStart s = s.
Proof.
  destruct s as [|c r]; simpl; [reflexivity|]. intros H.
  unfold trimStart. simpl. now rewrite H.
Qed.

Lemma trimStart_head (s : jsstring) :
  match trimStart s with [] => True | c :: _ => isWhiteSpace c = false end.
Proof.
  unfold trimStart. induction s as [|c r IH]; simpl; [exact I|].
  destruct (isWhiteSpace c) eqn:E; [exact IH | exact E].
Qed.

Lemma trimEnd_head (s : jsstring) :
  match s with [] => True | c :: _ => isWhiteSpace c = false end ->
  match trimEnd s with [] => True | c :: _ => isWhiteSpace c = false end.
Proof.
  destruct s as [|c r]; [intros _; exact I|]. intros H.
  rewrite trimEnd_cons. destruct (forallb _ _).
  - rewrite H. exact H.
  - exact H.
Qed.

Lemma trimEnd_idem (s : jsstring) : trimEnd (trimEnd s) = trimEnd s.
Proof.
  unfold trimEnd. now rewrite rev_involutive, dropWhile_idem.
Qed.

Lemma trim_trimmed (s : jsstring) : trimmed (trim s).
Proof.
  unfold trimmed, trim.
  rewrite (trimStart_fixed (trimEnd (trimStart s))).
  - apply trimEnd_idem.
  - apply trimEnd_head, trimStart_head.
Qed.

Lemma trimmed_ends (s : jsstring) :
  trimmed s ->
  match s with [] => True | c :: _ => isWhiteSpace c = false end
  /\ match rev s with [] => True | c :: _ => isWhiteSpace c = false end.
Proof.
  intros H. unfold trimmed, trim in H. split.
  - rewrite <- H. apply trimEnd_head, trimStart_head.
  - rewrite <- H. unfold trimEnd. rewrite rev_involutive.
    generalize (rev (trimStart s)). intros l.
    induction l as [|c r IH]; simpl; [exact I|].
    destruct (isWhiteSpace c) eqn:E; [exact IH | exact E].
Qed.

Lemma ends_trimmed (s : jsstring) :
  match s with [] => True | c :: _ => isWhiteSpace c = false end ->
  match rev s with [] => True | c :: _ => isWhiteSpace c = false end ->
  trimmed s.
Proof.
  intros Hh Hl. unfold trimmed, trim. rewrite (trimStart_fixed _ Hh).
  unfold trimEnd. destruct (rev s) as [|c r] eqn:E.
  - simpl. apply (f_equal (@rev N)) in E. now rewrite rev_involutive in E.
  - simpl. rewrite Hl. rewrite <- E. apply rev_involutive.
Qed.

Lemma collapseFrom_snoc (b : bool) (s : jsstring) (c : N) :
  isWhiteSpace c = false ->
  collapseFrom b (s ++ [c]) = collapseFrom b s ++ [c].
Proof.
  intros Hc. revert b. induction s as [|d r IH]; intros b; simpl.
  - now rewrite Hc.
  - destruct (isWhiteSpace d); [destruct b|]; simpl; now rewrite IH.
Qed.

Lemma collapse_trimmed (s : jsstring) :
  trimmed s -> trimmed (collapseSpaces s).
Proof.
  intros H. destruct (trimmed_ends H) as [Hh Hl].
  unfold collapseSpaces. apply ends_trimmed.
  - destruct s as [|c r]; simpl; [exact I|]. now rewrite Hh.
  - destruct (rev s) as [|c r] eqn:E.
    + apply (f_equal (@rev N)) in E. rewrite rev_involutive in E.
      subst s. exact I.
    + apply (f_equal (@rev N)) in E. rewrite rev_involutive in E.
      simpl in E. subst s. rewrite (collapseFrom_snoc _ _ _ Hl).
      rewrite rev_app_distr. simpl. exact Hl.
Qed.

Lemma collapsed_fixed (b : bool) (s : jsstring) :
  StringFacts.collapsed b s -> collapseFrom b s = s.
Proof.
  induction 1 as [b | r Hr IH | b c r Hc Hr IH]; simpl.
  - reflexivity.
  - change (isWhiteSpace 32%N) with true. cbv iota. now rewrite IH.
  - rewrite Hc. now rewrite IH.
Qed.

(** *** Parenthesized spans, decided *)

Fixpoint spanFreeb (s : jsstring) : bool :=
  match s with
  | [] => true
  | c :: r => negb (isOpen c && existsb isClose r) && spanFreeb r
  end.

Lemma spanFreeb_spec (s : jsstring) :
  spanFreeb s = true <-> StringFacts.spanFree s.
Proof.
  induction s as [|c r IH]; simpl.
  - split; [|reflexivity]. intros _ [|? ?] ? E; discriminate E.
  - rewrite andb_true_iff, negb_true_iff, IH. split.
    + intros [Hc Hr]. apply StringFacts.spanFree_cons; [|exact Hr].
      intros Ho. rewrite Ho in Hc. exact Hc.
    + intros H. split.
      * destruct (isOpen c) eqn:Ho; [|reflexivity]. simpl.
        apply (H [] r). simpl. f_equal.
        unfold isOpen in Ho. apply N.eqb_eq in Ho. exact Ho.
      * intros pre post E. apply (H (c :: pre) post). simpl. now f_equal.
Qed.

Lemma existsb_dropWhile (p q : N -> bool) (s : jsstring) :
  existsb q (dropWhile p s) = true -> existsb q s = true.
Proof.
  induction s as [|c r IH]; simpl; [auto|].
  destruct (p c); simpl; [|auto].
  intros H. rewrite (IH H). apply orb_true_r.
Qed.

Lemma spanFreeb_dropWhile (p : N -> bool) (s : jsstring) :
  spanFreeb s = true -> spanFreeb (dropWhile p s) = true.
Proof.
  induction s as [|c r IH]; simpl; [auto|].
  intros H. apply andb_true_iff in H. destruct H as [Hc Hr].
  destruct (p c); [now apply IH|]. simpl. now rewrite Hc, Hr.
Qed.

Lemma spanFreeb_app_l (s1 s2 : jsstring) :
  spanFreeb (s1 ++ s2) = true -> spanFreeb s1 = true.
Proof.
  induction s1 as [|c r IH]; simpl; [reflexivity|].
  intros H. apply andb_true_iff in H. destruct H as [Hc Hr].
  rewrite (IH Hr), andb_true_r.
  destruct (isOpen c); [|reflexivity]. simpl in *.
  rewrite existsb_app in Hc. apply negb_true_iff, orb_false_iff in Hc.
  destruct Hc as [Hc _]. now rewrite Hc.
Qed.

Lemma dropWhile_rev_prefix (p : N -> bool) (s : jsstring) :
  exists t, s = rev (dropWhile p (rev s)) ++ t.
Proof.
  induction s as [|c r IH] using rev_ind.
  - exists []. reflexivity.
  - rewrite rev_app_distr. simpl. destruct (p c).
    + destruct IH as [t E]. exists (t ++ [c]).
      rewrite app_assoc, <- E. reflexivity.
    + exists []. simpl. rewrite rev_involutive, app_nil_r. reflexivity.
Qed.

Lemma spanFreeb_trim (s : jsstring) :
  spanFreeb s = true -> spanFreeb (trim s) = true.
Proof.
  intros H. unfold trim, trimEnd.
  destruct (dropWhile_rev_prefix isWhiteSpace (trimStart s)) as [t E].
  apply spanFreeb_app_l with (s2 := t). rewrite <- E.
  now apply spanFreeb_dropWhile.
Qed.

Lemma spanFreeb_removeTrailingPunct (s : jsstring) :
  spanFreeb s = true -> spanFreeb (removeTrailingPunct s) = true.
Proof.
  intros H. rewrite StringFacts.removeTrailingPunct_suffix.
  destruct (dropWhile_rev_prefix isPunct s) as [t E].
  apply spanFreeb_app_l with (s2 := t). now rewrite <- E.
Qed.

Lemma existsb_close_collapse (b : bool) (s : jsstring) :
  existsb isClose (collapseFrom b s) = existsb isClose s.
Proof.
  revert b. induction s as [|c r IH]; intros b; simpl; [reflexivity|].
  destruct (isWhiteSpace c) eqn:Hc.
  - assert (isClose c = false) as ->.
    { unfold isClose. destruct (N.eqb_spec c 41); [subst; discriminate|].
      reflexivity. }
    destruct b; simpl; apply IH.
  - simpl. now rewrite IH.
Qed.

Lemma spanFreeb_collapse (b : bool) (s : jsstring) :
  spanFreeb s = true -> spanFreeb (collapseFrom b s) = true.
Proof.
  revert b. induction s as [|c r IH]; intros b; simpl; [reflexivity|].
  intros H. apply andb_true_iff in H. destruct H as [Hc Hr].
  destruct (isWhiteSpace c) eqn:Hw.
  - destruct b; [now apply IH|]. simpl.
    change (isOpen 32%N) with false. simpl. now apply IH.
  - simpl. rewrite existsb_close_collapse, Hc. simpl. now apply IH.
Qed.

End TrimFacts.

(* ================================================================== *)
(** ** The steps of the normalization *)

Module Steps.
Import JsString Regex.

(** *** The steps in the words of the specification *)








End Steps.

Module StepFacts.
Import JsString Regex Steps.

(** *** Stripping both ends *)












(** *** Trailing punctuation *)


(** *** Parenthesized spans *)





(** *** Runs of white space *)





End StepFacts.

(* ================================================================== *)
(** ** Normalization and Scenario A *)

Module Normalization.
Import JsString Regex DataProcessor IndexFacts Steps StepFacts.



End Normalization.

(* ================================================================== *)
(** ** Shape of normalized names and of ids *)

Module NameShape.
Import JsString Regex DataProcessor TrimFacts.

(** X1. Whatever the raw name, the normalized name has no white space at
    either end, is left unchanged by a further collapse of white space (its
    only white space is single spaces), and holds no opening parenthesis
    that is followed by a closing one. *)
Theorem normalized_name_shape (rawName : jsstring) :
  trim (normalizeVillainName rawName) = normalizeVillainName rawName
  /\ collapseSpaces (normalizeVillainName rawName)
     = normalizeVillainName rawName
  /\ StringFacts.spanFree (normalizeVillainName rawName).
Proof.
  unfold normalizeVillainName. repeat split.
  - apply collapse_trimmed, trim_trimmed.
  - apply collapsed_fixed, StringFacts.collapseSpaces_collapsed.
  - apply spanFreeb_spec. unfold collapseSpaces.
    apply spanFreeb_collapse, spanFreeb_trim, spanFreeb_removeTrailingPunct,
      spanFreeb_trim, spanFreeb_spec, StringFacts.removeParens_spanFree.
Qed.

(** *** Ids *)

(** A string of [a-z0-9] and single hyphens that does not end with a
    hyphen and, when [afterHyphen] is set, does not start with one. *)
Fixpoint idShape (afterHyphen : bool) (s : jsstring) : bool :=
  match s with
  | [] => negb afterHyphen
  | c :: r =>
      if isSlugChar c then idShape false r
      else isHyphen c && negb afterHyphen && idShape true r
  end.

(** The empty string, or groups of [a-z0-9] separated by single
    hyphens. *)
Definition wellFormedId (s : jsstring) : bool :=
  match s with
  | [] => true
  | _ :: _ => idShape true s
  end.

(** The same, a trailing hyphen allowed. *)
Fixpoint hyphenated (afterHyphen : bool) (s : jsstring) : bool :=
  match s with
  | [] => true
  | c :: r =>
      if isSlugChar c then hyphenated false r
      else isHyphen c && negb afterHyphen && hyphenated true r
  end.

Lemma hyphenateFrom_hyphenated (b : bool) (s : jsstring) :
  hyphenated b (hyphenateFrom b s) = true.
Proof.
  revert b. induction s as [|c r IH]; intros b; simpl; [reflexivity|].
  destruct (isSlugChar c) eqn:E; simpl.
  - rewrite E. apply IH.
  - destruct b; [apply IH|]. simpl. apply IH.
Qed.

Lemma hyphen_not_slug (c : N) : isHyphen c = true -> isSlugChar c = false.
Proof.
  unfold isHyphen. intros H. apply N.eqb_eq in H. subst. reflexivity.
Qed.

Lemma dropLastHyphen_nil (s : jsstring) :
  dropLastHyphen s = [] -> s = [] \/ exists c, s = [c] /\ isHyphen c = true.
Proof.
  destruct s as [|c [|d r]]; simpl; intros H.
  - now left.
  - right. exists c. destruct (isHyphen c); [auto | discriminate].
  - discriminate.
Qed.

Lemma dropLastHyphen_shape (s : jsstring) (b : bool) :
  hyphenated b s = true ->
  dropLastHyphen s = [] \/ idShape b (dropLastHyphen s) = true.
Proof.
  revert b. induction s as [|c r IH]; intros b H; [now left|].
  destruct r as [|d r'].
  - simpl. destruct (isHyphen c) eqn:Hc; [now left|]. right. simpl in *.
    destruct (isSlugChar c); [reflexivity|].
    rewrite Hc in H. discriminate.
  - right. change (dropLastHyphen (c :: d :: r'))
             with (c :: dropLastHyphen (d :: r')).
    simpl in H. cbn [idShape].
    destruct (isSlugChar c).
    + destruct (IH false H) as [E | E]; [|exact E].
      rewrite E. reflexivity.
    + apply andb_true_iff in H. destruct H as [Hc H]. rewrite Hc.
      destruct (IH true H) as [E | E]; [|exact E].
      apply dropLastHyphen_nil in E.
      destruct E as [E | [x [E Hx]]]; [discriminate|].
      injection E as -> ->. simpl in H.
      rewrite (hyphen_not_slug _ Hx), Hx in H. discriminate.
Qed.

Lemma generateVillainId_shape (name : jsstring) :
  wellFormedId (generateVillainId name) = true.
Proof.
  unfold generateVillainId, hyphenate.
  pose proof (hyphenateFrom_hyphenated false (toLowerCase name)) as H.
  destruct (hyphenateFrom false (toLowerCase name)) as [|c r]; [reflexivity|].
  unfold trimHyphens. destruct (isHyphen c) eqn:Hc.
  - simpl in H. rewrite (hyphen_not_slug _ Hc), Hc in H. simpl in H.
    destruct (dropLastHyphen_shape _ _ H) as [E | E].
    + now rewrite E.
    + unfold wellFormedId. destruct (dropLastHyphen r); [reflexivity|exact E].
  - assert (Hs : isSlugChar c = true).
    { simpl in H. destruct (isSlugChar c); [reflexivity|].
      rewrite Hc in H. discriminate. }
    assert (H' : hyphenated true (c :: r) = true).
    { simpl in *. now rewrite Hs in *. }
    destruct (dropLastHyphen_shape _ _ H') as [E | E].
    + now rewrite E.
    + unfold wellFormedId.
      destruct (dropLastHyphen (c :: r)); [reflexivity|exact E].
Qed.

Lemma idShape_lower (b : bool) (s : jsstring) :
  idShape b s = true -> toLowerCase s = s.
Proof.
  revert b. induction s as [|c r IH]; intros b H; [reflexivity|].
  simpl in H. unfold toLowerCase. simpl. fold (toLowerCase r).
  assert (E : lowerUnit c = [c]).
  { unfold lowerUnit. destruct (isSlugChar c) eqn:Hs.
    - unfold isSlugChar in Hs.
      destruct ((65 <=? c) && (c <=? 90))%N eqn:E1.
      { apply andb_true_iff in E1. destruct E1 as [A B].
        apply N.leb_le in A, B.
        apply orb_true_iff in Hs. destruct Hs as [Hs | Hs];
          apply andb_true_iff in Hs; destruct Hs as [C D];
          apply N.leb_le in C, D; lia. }
      destruct (c =? 8490)%N eqn:E2.
      { apply N.eqb_eq in E2. subst. discriminate. }
      destruct (c =? 304)%N eqn:E3.
      { apply N.eqb_eq in E3. subst. discriminate. }
      reflexivity.
    - apply andb_true_iff in H. destruct H as [H _].
      apply andb_true_iff in H. destruct H as [H _].
      unfold isHyphen in H. apply N.eqb_eq in H. subst. reflexivity. }
  rewrite E. simpl. f_equal.
  destruct (isSlugChar c); [now apply (IH false)|].
  apply andb_true_iff in H. destruct H as [_ H]. now apply (IH true).
Qed.

Lemma idShape_hyphenate (b b' : bool) (s : jsstring) :
  idShape b s = true -> (b' = true -> b = true) ->
  hyphenateFrom b' s = s.
Proof.
  revert b b'. induction s as [|c r IH]; intros b b' H Hb; [reflexivity|].
  simpl in *. destruct (isSlugChar c).
  - f_equal. apply (IH false false H). discriminate.
  - apply andb_true_iff in H. destruct H as [H Hr].
    apply andb_true_iff in H. destruct H as [Hc Hnb].
    apply negb_true_iff in Hnb. subst b.
    destruct b'; [specialize (Hb eq_refl); discriminate|].
    unfold isHyphen in Hc. apply N.eqb_eq in Hc. subst c. f_equal.
    apply (IH true true Hr). reflexivity.
Qed.

Lemma idShape_dropLast (b : bool) (s : jsstring) :
  idShape b s = true -> dropLastHyphen s = s.
Proof.
  revert b. induction s as [|c r IH]; intros b H; [reflexivity|].
  destruct r as [|d r'].
  - simpl in *. destruct (isHyphen c) eqn:Hc; [|reflexivity].
    rewrite (hyphen_not_slug _ Hc) in H.
    rewrite andb_false_r in H. discriminate.
  - change (dropLastHyphen (c :: d :: r'))
      with (c :: dropLastHyphen (d :: r')).
    f_equal. simpl in H. destruct (isSlugChar c).
    + apply (IH false H).
    + apply andb_true_iff in H. destruct H as [_ H]. apply (IH true H).
Qed.

(** X2. The id of any name is empty or made of groups of [a-z0-9]
    separated by single hyphens: no other character, no hyphen at either
    end, no two hyphens in a row. [generateVillainId] leaves every such
    string as it is, so the id of an id is that id. *)
Theorem villain_id_well_formed (name : jsstring) :
  wellFormedId (generateVillainId name) = true
  /\ (forall id, wellFormedId id = true -> generateVillainId id = id)
  /\ generateVillainId (generateVillainId name) = generateVillainId name.
Proof.
  assert (H : forall id, wellFormedId id = true -> generateVillainId id = id).
  { intros id Hid. destruct id as [|c r]; [reflexivity|].
    unfold wellFormedId in Hid. unfold generateVillainId, hyphenate.
    rewrite (@idShape_lower _ _ Hid).
    rewrite (@idShape_hyphenate true false _ Hid) by discriminate.
    unfold trimHyphens. destruct (isHyphen c) eqn:Hc.
    - simpl in Hid. rewrite (hyphen_not_slug _ Hc), Hc in Hid. discriminate.
    - apply (@idShape_dropLast _ _ Hid). }
  split; [apply generateVillainId_shape|]. split; [exact H|].
  apply H, generateVillainId_shape.
Qed.

Lemma villain_id_well_formed_witness :
  generateVillainId (js "doctor-octopus-s") = js "doctor-octopus-s".
Proof.
  apply (proj1 (proj2 (villain_id_well_formed []))). reflexivity.
Defined.

End NameShape.

(* ================================================================== *)
(** ** The villain index, entry by entry *)

Module RegistryFacts.
Import JsString DataProcessor IndexFacts EmptyIndex.

Local Abbreviation names := ProcessedVillain.names.
Local Abbreviation apps := ProcessedVillain.appearances.
Local Abbreviation firstApp := ProcessedVillain.firstAppearance.
Local Abbreviation freq := ProcessedVillain.frequency.

(** The raw names of all records in the order of the two loops, each with
    the issue key of its record. *)
Definition events (issues : list IssueData.t) : list (issueKey * jsstring) :=
  flat_map (fun issue =>
              map (fun rawName => (IssueData.issueNumber issue, rawName))
                  (IssueData.antagonists issue))
           issues.

Definition recordEvent (m : VillainMap) (e : issueKey * jsstring)
  : VillainMap :=
  recordName (fst e) m (snd e).

Lemma recordIssue_events (issue : IssueData.t) (m : VillainMap) :
  recordIssue m issue
  = fold_left recordEvent
      (map (fun rawName => (IssueData.issueNumber issue, rawName))
           (IssueData.antagonists issue)) m.
Proof.
  unfold recordIssue. revert m.
  induction (IssueData.antagonists issue) as [|n r IH]; simpl; intros m.
  - reflexivity.
  - apply IH.
Qed.

Lemma buildVillainMap_events (issues : list IssueData.t) :
  buildVillainMap issues = fold_left recordEvent (events issues) [].
Proof.
  unfold buildVillainMap, JsMap.empty.
  generalize (@nil (jsstring * ProcessedVillain.t)) as m.
  induction issues as [|i r IH]; simpl; intros m.
  - reflexivity.
  - rewrite fold_left_app, <- recordIssue_events. apply IH.
Qed.

(** Some record with issue key [k] lists a raw name that passes both tests
    of the inner loop and normalizes to [n]. *)
Definition mentioned (evs : list (issueKey * jsstring)) (n : jsstring)
                     (k : issueKey) : Prop :=
  exists rawName,
    In (k, rawName) evs
    /\ countsAsName rawName = true
    /\ normalizeVillainName rawName = n.

Lemma mentioned_snoc (evs : list (issueKey * jsstring)) (k : issueKey)
      (rawName n : jsstring) (k' : issueKey) :
  mentioned (evs ++ [(k, rawName)]) n k'
  <-> mentioned evs n k'
      \/ (k' = k /\ countsAsName rawName = true
          /\ normalizeVillainName rawName = n).
Proof.
  unfold mentioned. split.
  - intros (raw & Hin & Hc & Hn). apply in_app_or in Hin.
    destruct Hin as [Hin | [E | []]].
    + left. exists raw. auto.
    + injection E as <- <-. right. auto.
  - intros [(raw & Hin & Hc & Hn) | (-> & Hc & Hn)].
    + exists raw. split; [apply in_or_app; now left | auto].
    + exists rawName. split; [apply in_or_app; right; now left | auto].
Qed.

Lemma mentioned_events (issues : list IssueData.t) (n : jsstring)
      (k : issueKey) :
  mentioned (events issues) n k
  <-> exists issue rawName,
        In issue issues
        /\ IssueData.issueNumber issue = k
        /\ In rawName (IssueData.antagonists issue)
        /\ countsAsName rawName = true
        /\ normalizeVillainName rawName = n.
Proof.
  unfold mentioned, events. split.
  - intros (raw & Hin & Hc & Hn). apply in_flat_map in Hin.
    destruct Hin as (issue & Hi & Hin). apply in_map_iff in Hin.
    destruct Hin as (raw' & E & Hraw). injection E as <- <-.
    exists issue, raw'. auto.
  - intros (issue & raw & Hi & <- & Hraw & Hc & Hn). exists raw.
    split; [|auto]. apply in_flat_map. exists issue. split; [exact Hi|].
    apply in_map_iff. exists raw. auto.
Qed.

(** *** Entries of a map *)

Lemma has_false_keys (n : jsstring) (m : VillainMap) :
  has n m = false <-> ~ In n (JsMap.keys m).
Proof.
  unfold has, JsMap.has, JsMap.keys.
  induction m as [|[k v] r IH]; simpl.
  - split; [intros _ [] | reflexivity].
  - destruct (JsString.eqb n k) eqn:E.
    + apply StringFacts.string_eqb_eq in E. subst.
      split; [discriminate | intros H; exfalso; apply H; now left].
    + rewrite IH. split.
      * intros H [<- | Hin]; [|contradiction].
        rewrite (proj2 (StringFacts.string_eqb_eq k k) eq_refl) in E.
        discriminate.
      * intros H Hin. apply H. now right.
Qed.

Lemma keys_update (n : jsstring) (f : ProcessedVillain.t -> ProcessedVillain.t)
      (m : VillainMap) :
  JsMap.keys (update n f m) = JsMap.keys m.
Proof.
  unfold update, JsMap.keys. induction m as [|[k v] r IH].
  - reflexivity.
  - simpl. destruct (JsString.eqb n k); simpl; [reflexivity|].
    now rewrite IH.
Qed.

Lemma Forall_update (P Q : jsstring * ProcessedVillain.t -> Prop)
      (n : jsstring) (f : ProcessedVillain.t -> ProcessedVillain.t)
      (m : VillainMap) :
  NoDup (JsMap.keys m) ->
  Forall Q m ->
  (forall v, Q (n, v) -> P (n, f v)) ->
  (forall n' v, n' <> n -> Q (n', v) -> P (n', v)) ->
  Forall P (update n f m).
Proof.
  unfold update, JsMap.keys. intros Hnd HQ Hsame Hother.
  induction m as [|[k v] r IH]; simpl; [constructor|].
  inversion Hnd as [|? ? Hnin Hnd']; subst.
  inversion HQ as [|? ? Hq HQ']; subst.
  destruct (JsString.eqb n k) eqn:E.
  - apply StringFacts.string_eqb_eq in E. subst k.
    constructor; [now apply Hsame|].
    rewrite Forall_forall in *. intros [n' v'] Hin.
    apply Hother; [|now apply HQ'].
    intros ->. apply Hnin. apply in_map_iff. exists (n, v'). auto.
  - constructor; [|now apply IH].
    apply Hother; [|exact Hq]. intros ->.
    rewrite (proj2 (StringFacts.string_eqb_eq n n) eq_refl) in E.
    discriminate.
Qed.

(** What [recordName] does, by cases. *)
Lemma recordName_cases (k : issueKey) (m : VillainMap) (rawName : jsstring) :
  let n := normalizeVillainName rawName in
  (countsAsName rawName = false /\ recordName k m rawName = m)
  \/ (countsAsName rawName = true /\ n <> [] /\ ~ In n (JsMap.keys m)
      /\ recordName k m rawName
         = m ++ [(n, ProcessedVillain.make (generateVillainId n) [n] k [k] 1)])
  \/ (countsAsName rawName = true /\ n <> [] /\ In n (JsMap.keys m)
      /\ recordName k m rawName = update n (addAppearance k) m).
Proof.
  intros n. unfold countsAsName, recordName. fold n.
  destruct (_ || _); [now left|]. simpl.
  destruct (List.length n =? 0)%nat eqn:El; [now left|]. simpl.
  assert (Hn : n <> []) by (intros E; rewrite E in El; discriminate).
  destruct (has n m) eqn:Hhas; simpl.
  - right. right.
    split; [reflexivity|]. split; [exact Hn|]. split; [|reflexivity].
    destruct (in_dec (list_eq_dec N.eq_dec) n (JsMap.keys m)) as [H | H];
      [exact H|].
    apply has_false_keys in H. congruence.
  - right. left.
    split; [reflexivity|]. split; [exact Hn|].
    split; [now apply has_false_keys|].
    unfold set. now apply MapFacts.set_absent.
Qed.

(** *** The invariant of the two loops *)

Definition entryOk (evs : list (issueKey * jsstring))
                   (entry : jsstring * ProcessedVillain.t) : Prop :=
  let (n, v) := entry in
  names v = [n]
  /\ ProcessedVillain.id v = generateVillainId n
  /\ n <> []
  /\ (exists rest, apps v = firstApp v :: rest)
  /\ (forall k, In k (apps v) <-> mentioned evs n k).

Definition indexOk (evs : list (issueKey * jsstring)) (m : VillainMap)
  : Prop :=
  NoDup (JsMap.keys m)
  /\ Forall (entryOk evs) m
  /\ (forall n k, mentioned evs n k -> In n (JsMap.keys m)).

Lemma recordName_indexOk (evs : list (issueKey * jsstring)) (m : VillainMap)
      (k : issueKey) (rawName : jsstring) :
  indexOk evs m ->
  indexOk (evs ++ [(k, rawName)]) (recordName k m rawName).
Proof.
  intros (Hnd & Hall & Hcomp).
  destruct (recordName_cases k m rawName)
    as [[Hc ->] | [(Hc & Hn & Hnew & ->) | (Hc & Hn & Hold & ->)]].
  - (* the name is skipped *)
    assert (Hm : forall n k', mentioned (evs ++ [(k, rawName)]) n k'
                              <-> mentioned evs n k').
    { intros n k'. rewrite mentioned_snoc. split; [|auto].
      intros [H | (_ & H & _)]; [exact H | congruence]. }
    split; [exact Hnd|]. split.
    + eapply Forall_impl; [|exact Hall]. intros [n v] H.
      destruct H as (H1 & H2 & H3 & H4 & H5).
      repeat split; try assumption; intros H.
      * apply Hm, H5, H.
      * apply H5, Hm, H.
    + intros n k' H. apply Hm in H. eapply Hcomp, H.
  - (* a new villain *)
    remember (normalizeVillainName rawName) as n0 eqn:En0.
    assert (Hnone : forall k', ~ mentioned evs n0 k').
    { intros k' H. apply Hnew. eapply Hcomp, H. }
    split; [|split].
    + unfold JsMap.keys. rewrite map_app. simpl.
      apply NoDup_app; [exact Hnd | repeat constructor; intros [] |].
      intros x Hx [<- | []]. contradiction.
    + apply Forall_app. split.
      * rewrite Forall_forall in *. intros [n v] Hin.
        destruct (Hall _ Hin) as (H1 & H2 & H3 & H4 & H5).
        assert (n <> n0).
        { intros ->. apply Hnew. apply in_map_iff. exists (n0, v). auto. }
        repeat split; try assumption; intros H'.
        -- apply mentioned_snoc. left. now apply H5.
        -- apply mentioned_snoc in H'.
           destruct H' as [H' | (_ & _ & H')]; [now apply H5 | congruence].
      * constructor; [|constructor]. simpl.
        repeat split; try reflexivity; try assumption.
        -- now exists [].
        -- intros [<- | []]. apply mentioned_snoc. right. auto.
        -- intros H. apply mentioned_snoc in H.
           destruct H as [H | (-> & _)]; [now apply Hnone in H | now left].
    + intros n k' H. unfold JsMap.keys. rewrite map_app. apply in_or_app.
      apply mentioned_snoc in H. destruct H as [H | (_ & _ & <-)].
      * left. eapply Hcomp, H.
      * right. now left.
  - (* a villain that is there *)
    remember (normalizeVillainName rawName) as n0 eqn:En0.
    split; [|split].
    + now rewrite keys_update.
    + apply Forall_update with (Q := entryOk evs); [exact Hnd | exact Hall | |].
      * intros v (H1 & H2 & H3 & [rest H4] & H5). unfold addAppearance.
        destruct (IssueKey.includes k (apps v)) eqn:Hin; simpl.
        -- apply KeyFacts.includes_In in Hin.
           repeat split; try assumption; [now exists rest | |].
           ++ intros H. apply mentioned_snoc. left. now apply H5.
           ++ intros H. apply mentioned_snoc in H.
              destruct H as [H | (-> & _)]; [now apply H5 | exact Hin].
        -- repeat split; try assumption.
           ++ exists (rest ++ [k]). now rewrite H4.
           ++ intros H. apply mentioned_snoc. apply in_app_or in H.
              destruct H as [H | [<- | []]]; [left; now apply H5 | right; auto].
           ++ intros H. apply mentioned_snoc in H. apply in_or_app.
              destruct H as [H | (-> & _)];
                [left; now apply H5 | right; now left].
      * intros n v Hne (H1 & H2 & H3 & H4 & H5).
        repeat split; try assumption; intros H.
        -- apply mentioned_snoc. left. now apply H5.
        -- apply mentioned_snoc in H.
           destruct H as [H | (_ & _ & H)]; [now apply H5 | congruence].
    + intros n k' H. rewrite keys_update. apply mentioned_snoc in H.
      destruct H as [H | (_ & _ & <-)]; [eapply Hcomp, H | now rewrite <- En0].
Qed.

Lemma recordEvents_indexOk (evs : list (issueKey * jsstring)) :
  indexOk evs (fold_left recordEvent evs []).
Proof.
  induction evs as [|[k raw] r IH] using rev_ind.
  - split; [constructor|]. split; [constructor|].
    intros n k (raw & [] & _).
  - rewrite fold_left_app. simpl. unfold recordEvent at 1. simpl.
    now apply recordName_indexOk.
Qed.

Lemma buildVillainMap_indexOk (issues : list IssueData.t) :
  indexOk (events issues) (buildVillainMap issues).
Proof. rewrite buildVillainMap_events. apply recordEvents_indexOk. Qed.

End RegistryFacts.

(* ================================================================== *)
(** ** What the aggregation returns, villain by villain *)

Module Registry.
Import JsString DataProcessor IndexFacts EmptyIndex RegistryFacts.

Local Abbreviation names := ProcessedVillain.names.
Local Abbreviation apps := ProcessedVillain.appearances.
Local Abbreviation firstApp := ProcessedVillain.firstAppearance.
Local Abbreviation freq := ProcessedVillain.frequency.

Lemma output_of (now : jsstring) (raw : RawVillainData.t)
      (issues : list IssueData.t) (out : ProcessedData.t) :
  RawVillainData.issues raw = RawVillainData.IssueArray issues ->
  processVillainData now (Some raw) = Completion.Return out ->
  out = ProcessedData.make (RawVillainData.series raw) now
          (map sortVillain (JsMap.values (buildVillainMap issues)))
          (generateTimeline issues (sortAppearances (buildVillainMap issues)))
          (generateStats (sortAppearances (buildVillainMap issues)) issues).
Proof.
  intros Hissues Hret. apply processVillainData_returns in Hret.
  destruct Hret as (raw' & issues' & E & Hissues' & ->).
  injection E as <-. rewrite Hissues in Hissues'.
  now injection Hissues' as <-.
Qed.

Lemma In_values (v : ProcessedVillain.t) (m : VillainMap) :
  In v (JsMap.values m) -> exists n, In (n, v) m.
Proof.
  unfold JsMap.values. intros H. apply in_map_iff in H.
  destruct H as ([n u] & E & Hin). simpl in E. subst. now exists n.
Qed.

(** A villain of the output is a sorted entry of the index. *)
Lemma output_villain (issues : list IssueData.t) (v : ProcessedVillain.t) :
  In v (map sortVillain (JsMap.values (buildVillainMap issues))) ->
  exists n u,
    v = sortVillain u
    /\ In (n, u) (buildVillainMap issues)
    /\ entryOk (events issues) (n, u)
    /\ wellCounted u.
Proof.
  intros H. apply in_map_iff in H. destruct H as (u & <- & Hu).
  pose proof (buildVillainMap_wellCounted issues) as Hw.
  rewrite Forall_forall in Hw. specialize (Hw u Hu).
  apply In_values in Hu. destruct Hu as [n Hin]. exists n, u.
  destruct (buildVillainMap_indexOk issues) as (_ & Hall & _).
  rewrite Forall_forall in Hall. auto.
Qed.

Lemma In_sorted (k : issueKey) (u : ProcessedVillain.t) :
  In k (apps (sortVillain u)) <-> In k (apps u).
Proof.
  simpl. split; intros H.
  - eapply Permutation_in; [apply KeyFacts.sort_perm | exact H].
  - eapply Permutation_in; [apply Permutation_sym, KeyFacts.sort_perm|].
    exact H.
Qed.

(** The input of the examples below: issue 3 before issue 1, a name under
    two spellings, an empty and an unusable name. *)
Definition sample : RawVillainData.t :=
  RawVillainData.make (js "Test Series") []
    (RawVillainData.IssueArray
       [IssueData.make (Some 3) (js "Issue 3") None
          [js "Vulture"; js "Mysterio (Quentin Beck)"];
        IssueData.make (Some 1) (js "Issue 1") None
          [js "Vulture,"; js "  "; js "(unnamed)"];
        IssueData.make (Some 2) (js "Issue 2") None []]).

Definition sampleIssues : list IssueData.t :=
  match RawVillainData.issues sample with
  | RawVillainData.IssueArray issues => issues
  | RawVillainData.NotAnArray => []
  end.

Definition vulture : ProcessedVillain.t :=
  ProcessedVillain.make (js "vulture") [js "Vulture"] (Some 3)
    [Some 1; Some 3] 2.

Definition mysterio : ProcessedVillain.t :=
  ProcessedVillain.make (js "mysterio") [js "Mysterio"] (Some 3) [Some 3] 1.

Lemma sample_output :
  exists out,
    processVillainData [] (Some sample) = Completion.Return out
    /\ ProcessedData.villains out = [vulture; mysterio].
Proof. eexists. split; reflexivity. Qed.

(** X3. The villains of the output are one per normalized name: their name
    lists are pairwise distinct, and each villain has exactly one name,
    which is not empty and is the normalization of a raw name of the input,
    and the id derived from that name. *)
Theorem one_villain_per_normalized_name
        (now : jsstring) (raw : RawVillainData.t)
        (issues : list IssueData.t) (out : ProcessedData.t) :
  RawVillainData.issues raw = RawVillainData.IssueArray issues ->
  processVillainData now (Some raw) = Completion.Return out ->
  NoDup (map names (ProcessedData.villains out))
  /\ (forall v, In v (ProcessedData.villains out) ->
        exists n issue rawName,
          names v = [n] /\ n <> []
          /\ ProcessedVillain.id v = generateVillainId n
          /\ In issue issues
          /\ In rawName (IssueData.antagonists issue)
          /\ normalizeVillainName rawName = n).
Proof.
  intros Hissues Hret. rewrite (output_of _ _ Hissues Hret). simpl. split.
  - destruct (buildVillainMap_indexOk issues) as (Hnd & Hall & _).
    assert (E : map names (map sortVillain
                             (JsMap.values (buildVillainMap issues)))
                = map (fun n => [n]) (JsMap.keys (buildVillainMap issues))).
    { unfold JsMap.values, JsMap.keys. rewrite !map_map.
      apply map_ext_in. intros [n u] Hin. rewrite Forall_forall in Hall.
      destruct (Hall _ Hin) as (H1 & _). exact H1. }
    rewrite E. clear E Hall. induction Hnd as [|n l Hnin Hnd IH]; simpl.
    + constructor.
    + constructor; [|exact IH]. intros Hin. apply in_map_iff in Hin.
      destruct Hin as (n' & E & Hin). injection E as ->. contradiction.
  - intros v Hv. apply output_villain in Hv.
    destruct Hv as (n & u & -> & Hin & (H1 & H2 & H3 & [rest H4] & H5) & _).
    assert (Hm : mentioned (events issues) n (firstApp u)).
    { apply H5. rewrite H4. now left. }
    apply mentioned_events in Hm.
    destruct Hm as (issue & rawName & Hi & _ & Hr & _ & Hn).
    exists n, issue, rawName. simpl. auto 10.
Qed.

Lemma one_villain_per_normalized_name_witness :
  NoDup [[js "Vulture"]; [js "Mysterio"]]
  /\ exists n issue rawName,
      names vulture = [n] /\ n <> []
      /\ ProcessedVillain.id vulture = generateVillainId n
      /\ In issue sampleIssues
      /\ In rawName (IssueData.antagonists issue)
      /\ normalizeVillainName rawName = n.
Proof.
  destruct (@one_villain_per_normalized_name [] sample sampleIssues _
              eq_refl eq_refl) as [Hnd Hall].
  split; [exact Hnd|]. apply Hall. left. reflexivity.
Defined.

(** X4. A villain of the output appears in issue key [k] exactly when some
    record with issue key [k] lists a raw name that passes the two tests of
    the loop and normalizes to the name of the villain; and every such raw
    name of a record is covered by a villain. *)
Theorem appearances_are_the_mentions
        (now : jsstring) (raw : RawVillainData.t)
        (issues : list IssueData.t) (out : ProcessedData.t) :
  RawVillainData.issues raw = RawVillainData.IssueArray issues ->
  processVillainData now (Some raw) = Completion.Return out ->
  (forall v n k,
      In v (ProcessedData.villains out) -> names v = [n] ->
      (In k (apps v)
       <-> exists issue rawName,
             In issue issues
             /\ IssueData.issueNumber issue = k
             /\ In rawName (IssueData.antagonists issue)
             /\ countsAsName rawName = true
             /\ normalizeVillainName rawName = n))
  /\ (forall issue rawName,
        In issue issues ->
        In rawName (IssueData.antagonists issue) ->
        countsAsName rawName = true ->
        exists v,
          In v (ProcessedData.villains out)
          /\ names v = [normalizeVillainName rawName]
          /\ In (IssueData.issueNumber issue) (apps v)).
Proof.
  intros Hissues Hret. rewrite (output_of _ _ Hissues Hret). simpl. split.
  - intros v n k Hv Hn. apply output_villain in Hv.
    destruct Hv as (n' & u & -> & Hin & (H1 & _ & _ & _ & H5) & _).
    simpl in Hn. rewrite H1 in Hn. injection Hn as ->.
    rewrite In_sorted, H5. apply mentioned_events.
  - intros issue rawName Hi Hr Hc.
    assert (Hm : mentioned (events issues) (normalizeVillainName rawName)
                   (IssueData.issueNumber issue)).
    { apply mentioned_events. exists issue, rawName. auto. }
    destruct (buildVillainMap_indexOk issues) as (_ & Hall & Hcomp).
    pose proof (Hcomp _ _ Hm) as Hk. unfold JsMap.keys in Hk.
    apply in_map_iff in Hk. destruct Hk as ([n u] & E & Hin).
    simpl in E. subst n. rewrite Forall_forall in Hall.
    destruct (Hall _ Hin) as (H1 & _ & _ & _ & H5).
    exists (sortVillain u). split; [|split].
    + apply in_map. unfold JsMap.values.
      apply in_map_iff. exists (normalizeVillainName rawName, u). auto.
    + exact H1.
    + apply In_sorted, H5, Hm.
Qed.

Lemma appearances_are_the_mentions_witness :
  (In (Some 1) (apps vulture)
   <-> exists issue rawName,
         In issue sampleIssues
         /\ IssueData.issueNumber issue = Some 1
         /\ In rawName (IssueData.antagonists issue)
         /\ countsAsName rawName = true
         /\ normalizeVillainName rawName = js "Vulture")
  /\ exists v,
      In v [vulture; mysterio]
      /\ names v = [normalizeVillainName (js "Mysterio (Quentin Beck)")]
      /\ In (Some 3) (apps v).
Proof.
  destruct (@appearances_are_the_mentions [] sample sampleIssues _
              eq_refl eq_refl) as [Hiff Hall].
  split.
  - apply (Hiff vulture (js "Vulture") (Some 1)); [left|]; reflexivity.
  - apply (Hall (IssueData.make (Some 3) (js "Issue 3") None
                   [js "Vulture"; js "Mysterio (Quentin Beck)"])
                (js "Mysterio (Quentin Beck)")).
    + left. reflexivity.
    + right. left. reflexivity.
    + reflexivity.
Defined.

End Registry.

(* ================================================================== *)
(** ** First appearances *)

Module FirstAppearance.
Import JsString DataProcessor IndexFacts EmptyIndex RegistryFacts Registry.

Local Abbreviation names := ProcessedVillain.names.
Local Abbreviation apps := ProcessedVillain.appearances.
Local Abbreviation firstApp := ProcessedVillain.firstAppearance.
Local Abbreviation freq := ProcessedVillain.frequency.

(** The first appearance of a villain is one of the keys read so far and is
    below all its appearances. *)
Definition firstIsLeast (seen : list issueKey) (v : ProcessedVillain.t)
  : Prop :=
  Forall (IssueKey.le (firstApp v)) (apps v) /\ In (firstApp v) seen.

Lemma sorted_snoc (l : list issueKey) (k : issueKey) :
  StronglySorted IssueKey.le (l ++ [k]) ->
  StronglySorted IssueKey.le l /\ Forall (fun a => IssueKey.le a k) l.
Proof.
  induction l as [|a r IH]; simpl; intros H.
  - split; constructor.
  - inversion H as [|? ? Hr Ha]; subst. destruct (IH Hr) as [Hs Hk].
    apply Forall_app in Ha. destruct Ha as [Ha Hak].
    split; constructor; try assumption. now inversion Hak.
Qed.

Lemma recordEvents_firstIsLeast (evs : list (issueKey * jsstring)) :
  StronglySorted IssueKey.le (map fst evs) ->
  Forall (firstIsLeast (map fst evs))
         (JsMap.values (fold_left recordEvent evs [])).
Proof.
  induction evs as [|[k raw] r IH] using rev_ind; intros Hs.
  - constructor.
  - rewrite map_app in Hs. simpl in Hs.
    destruct (sorted_snoc _ _ Hs) as [Hr Hk].
    specialize (IH Hr). rewrite fold_left_app. simpl.
    unfold recordEvent at 1. simpl.
    set (m := fold_left recordEvent r []) in *.
    assert (Hold : Forall (fun v => firstIsLeast (map fst (r ++ [(k, raw)])) v
                                    /\ IssueKey.le (firstApp v) k)
                          (JsMap.values m)).
    { eapply Forall_impl; [|exact IH]. intros v [Hle Hin]. split.
      - split; [exact Hle|]. rewrite map_app. apply in_or_app. now left.
      - rewrite Forall_forall in Hk. now apply Hk. }
    assert (Hnew : Forall (fun v => firstIsLeast (map fst (r ++ [(k, raw)])) v
                                    /\ IssueKey.le (firstApp v) k)
                          (JsMap.values (recordName k m raw))).
    { unfold recordName.
      destruct (_ || _); [exact Hold|].
      destruct (_ =? _)%nat; [exact Hold|].
      destruct (negb _).
      - apply MapFacts.Forall_values_set; [|exact Hold]. simpl.
        repeat split.
        + constructor; [apply KeyFacts.le_refl | constructor].
        + rewrite map_app. apply in_or_app. right. now left.
        + apply KeyFacts.le_refl.
      - apply MapFacts.Forall_values_update; [|exact Hold].
        intros v [[Hle Hin] Hvk]. unfold addAppearance.
        destruct (negb _); [|repeat split; assumption].
        repeat split; simpl; try assumption.
        apply Forall_app. split; [exact Hle|]. now constructor. }
    eapply Forall_impl; [|exact Hnew]. now intros v [H _].
Qed.

Lemma events_keys_sorted (issues : list IssueData.t) :
  StronglySorted IssueKey.le (map IssueData.issueNumber issues) ->
  StronglySorted IssueKey.le (map fst (events issues)).
Proof.
  induction issues as [|i r IH]; simpl; intros H; [constructor|].
  inversion H as [|? ? Hr Hi]; subst. unfold events. simpl.
  rewrite map_app, map_map. simpl. fold (events r).
  assert (E : map (fun _ : jsstring => IssueData.issueNumber i)
                  (IssueData.antagonists i)
              = repeat (IssueData.issueNumber i)
                       (List.length (IssueData.antagonists i))).
  { induction (IssueData.antagonists i); simpl; [reflexivity|]. now f_equal. }
  rewrite E. apply MostFrequent.sorted_app;
    [apply MostFrequent.sorted_repeat | now apply IH |].
  rewrite Forall_forall. intros a Ha. apply repeat_spec in Ha. subst a.
  rewrite Forall_forall. intros b Hb. apply in_map_iff in Hb.
  destruct Hb as ([k raw] & <- & Hin). simpl.
  unfold events in Hin. apply in_flat_map in Hin.
  destruct Hin as (j & Hj & Hin). apply in_map_iff in Hin.
  destruct Hin as (raw' & E' & _). injection E' as <- <-.
  rewrite Forall_forall in Hi. apply Hi. now apply in_map.
Qed.

Lemma lt_le_absurd (a b : issueKey) :
  IssueKey.lt a b -> IssueKey.le b a -> False.
Proof. destruct a, b; simpl; intros; try lia; auto. Qed.

Lemma least_is_head (l : list issueKey) (a : issueKey) :
  StronglySorted IssueKey.lt l -> In a l -> Forall (IssueKey.le a) l ->
  exists rest, l = a :: rest.
Proof.
  intros Hs Hin Hle. destruct l as [|h t]; [destruct Hin|].
  destruct Hin as [-> | Hin]; [now exists t|]. exfalso.
  inversion Hs as [|? ? _ Hh]; subst. inversion Hle as [|? ? Hah _]; subst.
  rewrite Forall_forall in Hh. apply (lt_le_absurd _ _ (Hh a Hin) Hah).
Qed.

(** X5. Every villain of the output has been seen at least once, and its
    first appearance is one of its appearances; when the records come in
    ascending order of issue key, the first appearance is the first, hence
    the least, element of the sorted appearances. *)
Theorem first_appearance_among_appearances
        (now : jsstring) (raw : RawVillainData.t)
        (issues : list IssueData.t) (out : ProcessedData.t)
        (v : ProcessedVillain.t) :
  RawVillainData.issues raw = RawVillainData.IssueArray issues ->
  processVillainData now (Some raw) = Completion.Return out ->
  In v (ProcessedData.villains out) ->
  1 <= freq v
  /\ In (firstApp v) (apps v)
  /\ (StronglySorted IssueKey.le (map IssueData.issueNumber issues) ->
      exists rest, apps v = firstApp v :: rest).
Proof.
  intros Hissues Hret Hv. rewrite (output_of _ _ Hissues Hret) in Hv.
  simpl in Hv. pose proof Hv as Hv'. apply output_villain in Hv.
  destruct Hv as (n & u & -> & Hin & (_ & _ & _ & [rest H4] & _) & [Hf Hnd]).
  assert (Hfa : In (firstApp u) (apps (sortVillain u))).
  { apply In_sorted. rewrite H4. now left. }
  split; [|split].
  - simpl. rewrite Hf, H4. simpl. lia.
  - exact Hfa.
  - intros Hs. apply least_is_head.
    + simpl. now apply KeyFacts.sort_strict.
    + exact Hfa.
    + pose proof (@recordEvents_firstIsLeast _ (@events_keys_sorted _ Hs))
        as Hall.
      rewrite <- buildVillainMap_events in Hall.
      rewrite Forall_forall in Hall.
      assert (Hu : In u (JsMap.values (buildVillainMap issues))).
      { unfold JsMap.values. apply in_map_iff. exists (n, u). auto. }
      destruct (Hall u Hu) as [Hle _]. simpl.
      eapply Permutation_Forall;
        [apply Permutation_sym, KeyFacts.sort_perm | exact Hle].
Qed.

Definition ascending : RawVillainData.t :=
  RawVillainData.make (js "Test Series") []
    (RawVillainData.IssueArray
       [IssueData.make (Some 1) (js "Issue 1") None [js "Vulture"];
        IssueData.make (Some 4) (js "Issue 4") None [js "Vulture"]]).

Lemma first_appearance_among_appearances_witness :
  1 <= 2
  /\ In (Some 1) [Some 1; Some 4]
  /\ exists rest, [Some 1; Some 4] = Some 1 :: rest.
Proof.
  destruct (@first_appearance_among_appearances [] ascending _ _
              (ProcessedVillain.make (js "vulture") [js "Vulture"] (Some 1)
                 [Some 1; Some 4] 2)
              eq_refl eq_refl) as (H1 & H2 & H3).
  - left. reflexivity.
  - split; [exact H1|]. split; [exact H2|]. apply H3. simpl.
    apply SSorted_cons;
      [apply SSorted_cons; [apply SSorted_nil | apply Forall_nil]|].
    apply Forall_cons; [unfold IssueKey.le; lia | apply Forall_nil].
Defined.

(** *** The map of first appearances *)

Definition debutsAt (k : issueKey) (vs : list ProcessedVillain.t)
  : list ProcessedVillain.t :=
  filter (fun v => IssueKey.eqb k (firstApp v)) vs.

Lemma firstAppearances_lookup (vs : list ProcessedVillain.t) (k : issueKey) :
  JsMap.get IssueKey.eqb k
    (fold_left recordFirstAppearance vs
       (JsMap.empty issueKey (list (option jsstring))))
  = match debutsAt k vs with
    | [] => None
    | _ :: _ => Some (map (fun v => hd_error (names v)) (debutsAt k vs))
    end.
Proof.
  induction vs as [|v r IH] using rev_ind; [reflexivity|].
  rewrite fold_left_app. simpl.
  set (M := fold_left recordFirstAppearance r
              (JsMap.empty issueKey (list (option jsstring)))) in *.
  unfold recordFirstAppearance, debutsAt. rewrite filter_app. simpl.
  fold (debutsAt k r).
  rewrite (MapFacts.get_update IssueKey.eqb KeyFacts.key_eqb_eq).
  destruct (IssueKey.eqb k (firstApp v)) eqn:E.
  - apply KeyFacts.key_eqb_eq in E. subst k.
    unfold JsMap.has. rewrite IH.
    destruct (debutsAt (firstApp v) r) as [|d ds] eqn:Ed; simpl.
    + rewrite (MapFacts.get_set IssueKey.eqb KeyFacts.key_eqb_eq).
      rewrite (proj2 (KeyFacts.key_eqb_eq _ _) eq_refl). reflexivity.
    + rewrite IH. simpl. rewrite map_app. reflexivity.
  - rewrite app_nil_r.
    destruct (negb _); [|exact IH].
    rewrite (MapFacts.get_set IssueKey.eqb KeyFacts.key_eqb_eq), E.
    exact IH.
Qed.

(** X6. In the statistics of the output, [firstAppearances] has an entry
    for an issue key exactly when some villain has it as first appearance,
    and the entry lists the names of all those villains, in the order of the
    villains. *)
Theorem first_appearances_lookup
        (now : jsstring) (rawData : option RawVillainData.t)
        (out : ProcessedData.t) (k : issueKey) :
  processVillainData now rawData = Completion.Return out ->
  JsMap.get IssueKey.eqb k
    (VillainStats.firstAppearances (ProcessedData.stats out))
  = match debutsAt k (ProcessedData.villains out) with
    | [] => None
    | _ :: _ =>
        Some (map (fun v => hd_error (names v))
                  (debutsAt k (ProcessedData.villains out)))
    end.
Proof.
  intros Hret. apply processVillainData_returns in Hret.
  destruct Hret as (raw & issues & _ & _ & ->). simpl.
  rewrite values_sortAppearances. apply firstAppearances_lookup.
Qed.

Lemma first_appearances_lookup_witness :
  exists out,
    processVillainData [] (Some sample) = Completion.Return out
    /\ JsMap.get IssueKey.eqb (Some 3)
         (VillainStats.firstAppearances (ProcessedData.stats out))
       = Some [Some (js "Vulture"); Some (js "Mysterio")]
    /\ JsMap.get IssueKey.eqb (Some 1)
         (VillainStats.firstAppearances (ProcessedData.stats out))
       = None.
Proof.
  eexists. split; [reflexivity|]. split.
  - apply (@first_appearances_lookup [] (Some sample) _ (Some 3) eq_refl).
  - apply (@first_appearances_lookup [] (Some sample) _ (Some 1) eq_refl).
Defined.

End FirstAppearance.

(* ================================================================== *)
(** ** The timeline and the counts *)

Module TimelineFacts.
Import JsString DataProcessor IndexFacts EmptyIndex RegistryFacts Registry.

Local Abbreviation names := ProcessedVillain.names.
Local Abbreviation apps := ProcessedVillain.appearances.
Local Abbreviation firstApp := ProcessedVillain.firstAppearance.
Local Abbreviation freq := ProcessedVillain.frequency.

Lemma sorted_apps_mentions (issues : list IssueData.t) (n : jsstring)
      (u : ProcessedVillain.t) (k : issueKey) :
  In (n, u) (buildVillainMap issues) ->
  (In k (apps (sortVillain u)) <-> mentioned (events issues) n k).
Proof.
  intros Hin. destruct (buildVillainMap_indexOk issues) as (_ & Hall & _).
  rewrite Forall_forall in Hall.
  destruct (Hall _ Hin) as (_ & _ & _ & _ & H5).
  rewrite In_sorted. apply H5.
Qed.

Lemma mentioned_key (issues : list IssueData.t) (n : jsstring)
      (k : issueKey) :
  mentioned (events issues) n k -> In k (map IssueData.issueNumber issues).
Proof.
  intros H. apply mentioned_events in H.
  destruct H as (issue & _ & Hi & <- & _). now apply in_map.
Qed.

(** X7. The timeline has one slot per record, in input order. The slot of
    a record carries the issue key of the record and the villains of the
    output that appear in that issue, with their number as [villainCount];
    a villain named [n] is in the slot exactly when some record with the
    same issue key lists a usable raw name that normalizes to [n]. *)
Theorem timeline_slot_members
        (now : jsstring) (raw : RawVillainData.t)
        (issues : list IssueData.t) (out : ProcessedData.t)
        (i : nat) (issue : IssueData.t) :
  RawVillainData.issues raw = RawVillainData.IssueArray issues ->
  processVillainData now (Some raw) = Completion.Return out ->
  nth_error issues i = Some issue ->
  exists slot,
    nth_error (ProcessedData.timeline out) i = Some slot
    /\ TimelineData.issue slot = IssueData.issueNumber issue
    /\ TimelineData.villainCount slot
       = Z.of_nat (List.length (TimelineData.villains slot))
    /\ (forall v, In v (TimelineData.villains slot)
                  <-> In v (ProcessedData.villains out)
                      /\ In (IssueData.issueNumber issue) (apps v))
    /\ (forall n,
          (exists v, In v (TimelineData.villains slot) /\ names v = [n])
          <-> exists other rawName,
                In other issues
                /\ IssueData.issueNumber other = IssueData.issueNumber issue
                /\ In rawName (IssueData.antagonists other)
                /\ countsAsName rawName = true
                /\ normalizeVillainName rawName = n).
Proof.
  intros Hissues Hret Hi. rewrite (output_of _ _ Hissues Hret). simpl.
  unfold generateTimeline. rewrite nth_error_map, Hi. simpl.
  rewrite values_sortAppearances.
  eexists. split; [reflexivity|]. simpl.
  split; [reflexivity|]. split; [reflexivity|].
  assert (Hmem : forall v,
             In v (filter (fun villain =>
                             IssueKey.includes (IssueData.issueNumber issue)
                               (apps villain))
                     (map sortVillain (JsMap.values (buildVillainMap issues))))
             <-> In v (map sortVillain
                         (JsMap.values (buildVillainMap issues)))
                 /\ In (IssueData.issueNumber issue) (apps v)).
  { intros v. rewrite filter_In, KeyFacts.includes_In. reflexivity. }
  split; [exact Hmem|]. intros n. rewrite <- mentioned_events. split.
  - intros (v & Hv & Hn). apply Hmem in Hv. destruct Hv as [Hv Hk].
    apply output_villain in Hv.
    destruct Hv as (n' & u & -> & Hin & (H1 & _) & _).
    simpl in Hn. rewrite H1 in Hn. injection Hn as ->.
    now apply (sorted_apps_mentions _ _ _ _ Hin).
  - intros Hm.
    destruct (buildVillainMap_indexOk issues) as (_ & Hall & Hcomp).
    pose proof (Hcomp _ _ Hm) as Hk. unfold JsMap.keys in Hk.
    apply in_map_iff in Hk. destruct Hk as ([n' u] & E & Hin).
    simpl in E. subst n'. rewrite Forall_forall in Hall.
    destruct (Hall _ Hin) as (H1 & _).
    exists (sortVillain u). split; [|exact H1]. apply Hmem. split.
    + apply in_map. unfold JsMap.values. apply in_map_iff.
      exists (n, u). auto.
    + now apply (sorted_apps_mentions _ _ _ _ Hin).
Qed.

Lemma timeline_slot_members_witness :
  exists slot,
    nth_error
      (generateTimeline sampleIssues
         (sortAppearances (buildVillainMap sampleIssues))) 1
    = Some slot
    /\ TimelineData.issue slot = Some 1
    /\ TimelineData.villains slot = [vulture]
    /\ TimelineData.villainCount slot = 1
    /\ (exists v, In v (TimelineData.villains slot)
                  /\ names v = [js "Vulture"]).
Proof.
  destruct (@timeline_slot_members [] sample sampleIssues _ 1%nat
              (IssueData.make (Some 1) (js "Issue 1") None
                 [js "Vulture,"; js "  "; js "(unnamed)"])
              eq_refl eq_refl eq_refl)
    as (slot & Hslot & Hkey & Hcount & _ & Hname).
  simpl in Hslot. injection Hslot as <-.
  eexists. split; [reflexivity|]. split; [exact Hkey|].
  split; [reflexivity|]. split; [exact Hcount|].
  apply Hname.
  exists (IssueData.make (Some 1) (js "Issue 1") None
            [js "Vulture,"; js "  "; js "(unnamed)"]), (js "Vulture,").
  split; [right; left; reflexivity|]. split; [reflexivity|].
  split; [left; reflexivity|]. split; reflexivity.
Defined.

(** *** Counting appearances twice *)

Lemma count_swap (K V : Type) (R : K -> V -> bool) (ks : list K)
      (vs : list V) :
  list_sum (map (fun k => List.length (filter (R k) vs)) ks)
  = list_sum (map (fun v => List.length (filter (fun k => R k v) ks)) vs).
Proof.
  induction ks as [|k ks IH]; simpl.
  - induction vs as [|v vs IHv]; simpl; [reflexivity | exact IHv].
  - rewrite IH. clear IH. induction vs as [|v vs IHv]; simpl; [reflexivity|].
    destruct (R k v); simpl; rewrite <- IHv; lia.
Qed.

Lemma filter_included_length (keys arr : list issueKey) :
  NoDup keys -> NoDup arr -> incl arr keys ->
  List.length (filter (fun k => IssueKey.includes k arr) keys)
  = List.length arr.
Proof.
  intros Hk Ha Hincl. apply Permutation_length, NoDup_Permutation.
  - now apply NoDup_filter.
  - exact Ha.
  - intros x. rewrite filter_In, KeyFacts.includes_In. split.
    + now intros [_ H].
    + intros H. split; [now apply Hincl | exact H].
Qed.

Definition sumCounts (timeline : list TimelineData.t) : Z :=
  fold_right Z.add 0 (map TimelineData.villainCount timeline).

Lemma sum_of_nat (A : Type) (f : A -> nat) (l : list A) :
  fold_right Z.add 0 (map (fun x => Z.of_nat (f x)) l)
  = Z.of_nat (list_sum (map f l)).
Proof.
  induction l as [|x r IH]; simpl; [reflexivity|]. rewrite IH. lia.
Qed.

Lemma apps_within_keys (issues : list IssueData.t) (v : ProcessedVillain.t) :
  In v (map sortVillain (JsMap.values (buildVillainMap issues))) ->
  freq v = Z.of_nat (List.length (apps v))
  /\ NoDup (apps v)
  /\ incl (apps v) (map IssueData.issueNumber issues).
Proof.
  intros Hv. apply output_villain in Hv.
  destruct Hv as (n & u & -> & Hin & _ & [Hf Hnd]).
  pose proof (KeyFacts.sort_perm (fun a b => a - b) (apps u)) as Hp.
  split; [|split].
  - simpl. rewrite Hf. f_equal. symmetry. now apply Permutation_length.
  - simpl. eapply Permutation_NoDup; [apply Permutation_sym, Hp | exact Hnd].
  - intros k Hk. apply (sorted_apps_mentions _ _ _ _ Hin) in Hk.
    eapply mentioned_key, Hk.
Qed.

(** X8. When no two records carry the same issue key, the villain counts
    of the timeline add up to the frequencies of the villains: every
    appearance is in exactly one slot. *)
Theorem timeline_counts_add_up
        (now : jsstring) (raw : RawVillainData.t)
        (issues : list IssueData.t) (out : ProcessedData.t) :
  RawVillainData.issues raw = RawVillainData.IssueArray issues ->
  processVillainData now (Some raw) = Completion.Return out ->
  NoDup (map IssueData.issueNumber issues) ->
  sumCounts (ProcessedData.timeline out)
  = Summary.sumFrequencies (ProcessedData.villains out).
Proof.
  intros Hissues Hret Hnd. rewrite (output_of _ _ Hissues Hret). simpl.
  unfold sumCounts, Summary.sumFrequencies, generateTimeline.
  rewrite values_sortAppearances.
  set (vs := map sortVillain (JsMap.values (buildVillainMap issues))).
  rewrite map_map. simpl.
  rewrite (sum_of_nat
             (fun issue =>
                List.length
                  (filter (fun villain =>
                             IssueKey.includes (IssueData.issueNumber issue)
                               (apps villain)) vs)) issues).
  assert (E : map freq vs
              = map (fun v => Z.of_nat
                       (List.length
                          (filter (fun k => IssueKey.includes k (apps v))
                                  (map IssueData.issueNumber issues)))) vs).
  { apply map_ext_in. intros v Hv.
    destruct (apps_within_keys issues v Hv) as (Hf & Hv1 & Hv2).
    rewrite Hf. f_equal. symmetry. now apply filter_included_length. }
  rewrite E.
  rewrite (sum_of_nat
             (fun v => List.length
                         (filter (fun k => IssueKey.includes k (apps v))
                                 (map IssueData.issueNumber issues))) vs).
  f_equal.
  rewrite <- (count_swap (fun k v => IssueKey.includes k (apps v))
                (map IssueData.issueNumber issues) vs).
  now rewrite map_map.
Qed.

Lemma timeline_counts_add_up_witness :
  exists out,
    processVillainData [] (Some sample) = Completion.Return out
    /\ sumCounts (ProcessedData.timeline out) = 3
    /\ Summary.sumFrequencies (ProcessedData.villains out) = 3.
Proof.
  eexists. split; [reflexivity|]. split; [reflexivity|].
  rewrite <- (@timeline_counts_add_up [] sample sampleIssues _
                eq_refl eq_refl).
  - reflexivity.
  - simpl. repeat constructor; simpl; intuition discriminate.
Defined.

End TimelineFacts.

(* ================================================================== *)
(** ** The serialized object and the mean *)

Module SerializedFacts.
Import JsString DataProcessor IndexFacts EmptyIndex RegistryFacts Registry
       TimelineFacts.

Local Abbreviation names := ProcessedVillain.names.
Local Abbreviation apps := ProcessedVillain.appearances.
Local Abbreviation freq := ProcessedVillain.frequency.

Lemma output_name (issues : list IssueData.t) (v : ProcessedVillain.t) :
  In v (map sortVillain (JsMap.values (buildVillainMap issues))) ->
  exists n, names v = [n] /\ n <> []
            /\ ProcessedVillain.id v = generateVillainId n.
Proof.
  intros Hv. apply output_villain in Hv.
  destruct Hv as (n & u & -> & _ & (H1 & H2 & H3 & _) & _).
  exists n. auto.
Qed.

Lemma firstMostFrequent_In (vs : list ProcessedVillain.t)
      (r : ProcessedVillain.t) :
  MostFrequent.firstMostFrequent vs r -> In r vs.
Proof.
  intros (pre & post & -> & _). apply in_or_app. right. now left.
Qed.

(** X9. The object serialized from an output of [processVillainData]
    holds no undefined name: every villain has a name, which is not empty,
    no alias, and the id of its name; every timeline entry lists as many
    names as its count says, all defined; and [stats.mostFrequent] is
    undefined only when there is no villain at all. *)
Theorem serialized_names_defined
        (now : jsstring) (rawData : option RawVillainData.t)
        (out : ProcessedData.t) :
  processVillainData now rawData = Completion.Return out ->
  let s := serializeProcessedData out in
  Forall (fun sv =>
            exists n, Serialized.Villain.name sv = Some n /\ n <> []
                      /\ Serialized.Villain.aliases sv = []
                      /\ Serialized.Villain.id sv = generateVillainId n)
         (Serialized.villains s)
  /\ Forall (fun st =>
               Serialized.Timeline.villainCount st
               = Z.of_nat (List.length (Serialized.Timeline.villains st))
               /\ ~ In None (Serialized.Timeline.villains st))
            (Serialized.timeline s)
  /\ (Serialized.Stats.mostFrequent (Serialized.stats s) = None
      <-> ProcessedData.villains out = []).
Proof.
  intros Hret. apply processVillainData_returns in Hret.
  destruct Hret as (raw & issues & _ & _ & ->).
  cbv zeta. unfold serializeProcessedData. simpl.
  set (vs := map sortVillain (JsMap.values (buildVillainMap issues))).
  split; [|split].
  - rewrite Forall_map, Forall_forall. intros v Hv. simpl.
    destruct (output_name issues v Hv) as (n & Hn & Hne & Hid).
    exists n. rewrite Hn. auto.
  - unfold generateTimeline. rewrite map_map, Forall_map, Forall_forall.
    intros issue _. simpl. rewrite values_sortAppearances. fold vs.
    split; [now rewrite length_map|].
    intros Hin. apply in_map_iff in Hin. destruct Hin as (v & Hnone & Hv).
    apply filter_In in Hv. destruct Hv as [Hv _].
    destruct (output_name issues v Hv) as (n & Hn & _).
    rewrite Hn in Hnone. discriminate.
  - unfold generateStats. simpl. rewrite values_sortAppearances. fold vs.
    destruct vs as [|first rest] eqn:Evs.
    + split; reflexivity.
    + split; [|discriminate]. intros Hnone. exfalso.
      pose proof (MostFrequent.reduce_firstMostFrequent first rest) as Hm.
      apply firstMostFrequent_In in Hm. rewrite <- Evs in Hm.
      destruct (output_name issues _ Hm) as (n & Hn & _).
      rewrite Hn in Hnone. discriminate.
Qed.

Lemma serialized_names_defined_witness :
  exists out,
    processVillainData [] (Some sample) = Completion.Return out
    /\ map Serialized.Villain.name
           (Serialized.villains (serializeProcessedData out))
       = [Some (js "Vulture"); Some (js "Mysterio")]
    /\ (Serialized.Stats.mostFrequent
          (Serialized.stats (serializeProcessedData out)) = None
        <-> ProcessedData.villains out = []).
Proof.
  eexists. split; [reflexivity|]. split; [reflexivity|].
  apply (@serialized_names_defined [] (Some sample) _ eq_refl).
Defined.

(** *** Bounds of the mean *)

Lemma div_bounds (a b lo hi : Z) :
  0 < b -> 0 < lo -> hi <= 2 ^ 53 -> lo * b <= a -> a <= hi * b ->
  exists q, JsNumber.div a b = JsNumber.Num q
            /\ Qle (inject_Z lo) q /\ Qle q (inject_Z hi).
Proof.
  intros Hb Hlo Hhi Ha1 Ha2.
  destruct (@NumberFacts.ratio_bounds a b lo hi Hb Ha1 Ha2) as [H1 H2].
  assert (Hl : Qlt 0 (inject_Z lo)).
  { change 0%Q with (inject_Z 0). now rewrite <- Zlt_Qlt. }
  assert (Hpos : Qlt 0 (Qdiv (inject_Z a) (inject_Z b)))
    by (eapply Qlt_le_trans; eassumption).
  assert (Hdlo : Binary64.isDouble (inject_Z lo))
    by (apply Binary64Facts.isDouble_Z; nia).
  assert (Hdhi : Binary64.isDouble (inject_Z hi))
    by (apply Binary64Facts.isDouble_Z; nia).
  exists (Qred (Binary64.nearest (Qdiv (inject_Z a) (inject_Z b)))).
  split; [|rewrite Qred_correct; split].
  - unfold JsNumber.div.
    destruct (b =? 0) eqn:E; [apply Z.eqb_eq in E; lia|].
    apply NumberFacts.binary64_positive; [exact Hpos|].
    eapply Qle_trans; [exact H2|]. rewrite <- Zle_Qle. exact Hhi.
  - now apply Binary64Facts.nearest_above.
  - now apply Binary64Facts.nearest_below.
Qed.

Lemma sum_bounds (vs : list ProcessedVillain.t) (lo hi : Z) :
  Forall (fun v => lo <= freq v <= hi) vs ->
  lo * Z.of_nat (List.length vs) <= Summary.sumFrequencies vs
  /\ Summary.sumFrequencies vs <= hi * Z.of_nat (List.length vs).
Proof.
  unfold Summary.sumFrequencies.
  induction 1 as [|v r Hv Hr IH]; simpl List.length; simpl map;
    simpl fold_right; [lia|].
  rewrite Nat2Z.inj_succ. lia.
Qed.

Lemma frequency_below_sum (vs : list ProcessedVillain.t) :
  Forall (fun v => 0 <= freq v) vs ->
  Forall (fun v => freq v <= Summary.sumFrequencies vs) vs.
Proof.
  unfold Summary.sumFrequencies.
  induction 1 as [|v r Hv Hr IH]; simpl; constructor.
  - assert (0 <= fold_right Z.add 0 (map freq r)).
    { clear IH. induction Hr as [|u r' Hu Hr' IH']; simpl; lia. }
    lia.
  - eapply Forall_impl; [|exact IH]. simpl. intros u Hu. lia.
Qed.

(** Every villain of the output is counted at least once and at most
    once per record. *)
Lemma frequency_range (issues : list IssueData.t) :
  Forall (fun v => 1 <= freq v <= Z.of_nat (List.length issues))
         (map sortVillain (JsMap.values (buildVillainMap issues))).
Proof.
  rewrite Forall_forall. intros v Hv. pose proof Hv as Hv'.
  apply output_villain in Hv.
  destruct Hv as (n & u & Ev & _ & (_ & _ & _ & [rest H4] & _) & _).
  destruct (apps_within_keys issues v Hv') as (Hf & Hnd & Hincl).
  rewrite Hf. split.
  - subst v. simpl.
    rewrite (Permutation_length
               (KeyFacts.sort_perm (fun a b => a - b) (apps u))), H4.
    simpl. lia.
  - apply inj_le. rewrite <- (length_map IssueData.issueNumber issues).
    now apply NoDup_incl_length.
Qed.

(** X10. When the output has villains, the mean of their frequencies
    lies between 1 and the number of records: every villain is counted at
    least once and at most once per record. [averageFrequency] is never
    [NaN], and when the sum of the frequencies is a safe integer it is a
    number within the same bounds: up to 2^53 the additions of [reduce]
    are exact and the bounds are doubles, so that rounding the quotient
    keeps it between them. *)
Theorem average_frequency_bounds
        (now : jsstring) (raw : RawVillainData.t)
        (issues : list IssueData.t) (out : ProcessedData.t) :
  RawVillainData.issues raw = RawVillainData.IssueArray issues ->
  processVillainData now (Some raw) = Completion.Return out ->
  ProcessedData.villains out <> [] ->
  let vs := ProcessedData.villains out in
  let avg := VillainStats.averageFrequency (ProcessedData.stats out) in
  let records := inject_Z (Z.of_nat (List.length issues)) in
  (Qle (inject_Z 1) (Summary.meanOf vs) /\ Qle (Summary.meanOf vs) records)
  /\ avg <> JsNumber.NaN
  /\ (Summary.sumFrequencies vs <= JsNumber.MAX_SAFE_INTEGER ->
      exists q, avg = JsNumber.Num q
                /\ Qle (inject_Z 1) q /\ Qle q records).
Proof.
  intros Hissues Hret Hne. rewrite (output_of _ _ Hissues Hret) in *.
  cbn [ProcessedData.villains ProcessedData.stats] in *.
  rewrite ?values_sortAppearances in *.
  pose proof (frequency_range issues) as Hall.
  pose proof (Summary.average_not_NaN
                (sortAppearances (buildVillainMap issues)) issues) as Hnan.
  pose proof (@Summary.average_of_index
                (sortAppearances (buildVillainMap issues)) issues) as Havg.
  rewrite values_sortAppearances in Havg.
  set (vs := map sortVillain (JsMap.values (buildVillainMap issues))) in *.
  assert (Hlen : 0 < Z.of_nat (List.length vs))
    by (destruct vs; [congruence | simpl; lia]).
  split; [|split; [exact Hnan|]].
  - destruct (sum_bounds Hall) as [Hlo Hhi].
    apply NumberFacts.ratio_bounds; assumption.
  - intros Hsafe. rewrite Havg;
      [|eapply Forall_impl; [|exact Hall]; simpl; intros; lia | exact Hsafe].
    set (hi := Z.min (Z.of_nat (List.length issues))
                     (Summary.sumFrequencies vs)).
    assert (Hall' : Forall (fun v => 1 <= freq v <= hi) vs).
    { assert (Hsum : Forall (fun v => freq v <= Summary.sumFrequencies vs)
                            vs).
      { apply frequency_below_sum. eapply Forall_impl; [|exact Hall].
        simpl. intros v Hv. lia. }
      rewrite Forall_forall in *. intros v Hv.
      specialize (Hall v Hv). specialize (Hsum v Hv). unfold hi. lia. }
    destruct (sum_bounds Hall') as [Hlo Hhi].
    assert (Hnat : (0 <? List.length vs)%nat = true)
      by (apply Nat.ltb_lt; lia).
    rewrite Hnat.
    destruct (@div_bounds (Summary.sumFrequencies vs)
                (Z.of_nat (List.length vs)) 1 hi)
      as (q & Eq & H1 & H2);
      [exact Hlen | lia
       | unfold hi, JsNumber.MAX_SAFE_INTEGER in *; lia
       | exact Hlo | exact Hhi |].
    exists q. split; [exact Eq|]. split; [exact H1|].
    eapply Qle_trans; [exact H2|]. rewrite <- Zle_Qle. unfold hi. lia.
Qed.

Lemma average_frequency_bounds_witness :
  (Qle (inject_Z 1) (Qmake 3 2) /\ Qle (Qmake 3 2) (inject_Z 3))
  /\ exists q,
      JsNumber.Num (Qmake 3 2) = JsNumber.Num q
      /\ Qle (inject_Z 1) q /\ Qle q (inject_Z 3).
Proof.
  destruct (@average_frequency_bounds [] sample sampleIssues _
              eq_refl eq_refl) as (Hmean & _ & Hdouble);
    [discriminate|].
  split; [exact Hmean|]. apply Hdouble. vm_compute. discriminate.
Defined.

End SerializedFacts.

(* ================================================================== *)
(** ** The mean *)

Module Mean.
Import DataProcessor IndexFacts SerializedFacts Binary64 Binary64Facts.

Lemma isDouble_eq (r r' : Q) : Qeq r r' -> isDouble r -> isDouble r'.
Proof.
  intros E (m & x & Hm & Hx & Er & Hbig). exists m, x.
  split; [exact Hm|]. split; [exact Hx|]. rewrite <- E. auto.
Qed.

Local Abbreviation meanOf := Summary.meanOf.

(** C8. [averageFrequency] is the arithmetic mean of the frequencies, as
    a double: when the sum of the frequencies is a safe integer, the
    additions of [reduce] are exact and the result is the double nearest
    to the quotient of the sum by the number of villains, within that
    quotient divided by 2^53 of it, and the quotient itself when that is a
    double. For an empty index the division is not evaluated and the value
    is 0, so that [averageFrequency] is never [NaN], whatever the sum, and
    not an infinity either. *)
Theorem average_frequency_is_mean
        (now : jsstring) (rawData : option RawVillainData.t)
        (out : ProcessedData.t) :
  processVillainData now rawData = Completion.Return out ->
  let vs := ProcessedData.villains out in
  let avg := VillainStats.averageFrequency (ProcessedData.stats out) in
  (vs = [] -> avg = JsNumber.Num (inject_Z 0))
  /\ (vs <> [] ->
      Summary.sumFrequencies vs <= JsNumber.MAX_SAFE_INTEGER ->
      exists q,
        avg = JsNumber.Num q
        /\ isDouble q
        /\ (forall r, isDouble r ->
              Qle (Qabs (Qminus (meanOf vs) q))
                  (Qabs (Qminus (meanOf vs) r)))
        /\ Qle (Qabs (Qminus (meanOf vs) q))
               (Qmult (meanOf vs) (pow2 (-53)))
        /\ (isDouble (meanOf vs) -> Qeq q (meanOf vs)))
  /\ avg <> JsNumber.NaN
  /\ (Summary.sumFrequencies vs <= JsNumber.MAX_SAFE_INTEGER ->
      forall s, avg <> JsNumber.Infinity s).
Proof.
  intros Hret.
  apply processVillainData_returns in Hret.
  destruct Hret as (raw & issues & _ & _ & ->).
  cbn [ProcessedData.villains ProcessedData.stats].
  pose proof (frequency_range issues) as Hall.
  pose proof (Summary.average_not_NaN
                (sortAppearances (buildVillainMap issues)) issues) as Hnan.
  pose proof (@Summary.average_of_index
                (sortAppearances (buildVillainMap issues)) issues) as Havg.
  rewrite values_sortAppearances in Havg.
  set (vs := map sortVillain (JsMap.values (buildVillainMap issues))) in *.
  assert (Hnn : Forall (fun v => 0 <= ProcessedVillain.frequency v) vs)
    by (eapply Forall_impl; [|exact Hall]; simpl; intros; lia).
  specialize (Havg Hnn).
  set (avg := VillainStats.averageFrequency _) in *.
  destruct (sum_bounds Hall) as [Hlo _].
  destruct vs as [|v r] eqn:Evs.
  - split; [intros _; apply Havg; vm_compute; discriminate|].
    split; [congruence|]. split; [exact Hnan|].
    intros Hsafe s. rewrite (Havg Hsafe). discriminate.
  - rewrite <- Evs in *.
    assert (Hlen : 0 < Z.of_nat (List.length vs)) by (rewrite Evs; simpl; lia).
    assert (Hnat : (0 <? List.length vs)%nat = true)
      by (rewrite Evs; reflexivity).
    rewrite Hnat in Havg.
    assert (Hcases :
              Summary.sumFrequencies vs <= JsNumber.MAX_SAFE_INTEGER ->
              Qlt 0 (meanOf vs)
              /\ Qle (meanOf vs) (inject_Z (2 ^ 53))
              /\ JsNumber.div (Summary.sumFrequencies vs)
                              (Z.of_nat (List.length vs))
                 = JsNumber.Num (Qred (nearest (meanOf vs)))).
    { intros Hsafe. apply NumberFacts.div_positive; [exact Hlen|].
      unfold JsNumber.MAX_SAFE_INTEGER in Hsafe. lia. }
    split; [intros H; rewrite H in Evs; discriminate Evs|].
    split; [|split].
    + intros _ Hsafe. rewrite (Havg Hsafe).
      destruct (Hcases Hsafe) as (Hpos & Hle & ->).
      assert (Hbelow : Qle (nearest (meanOf vs)) (inject_Z (2 ^ 53))).
      { apply nearest_below; [exact Hpos | | exact Hle].
        apply isDouble_Z. simpl. lia. }
      assert (Hd : isDouble (nearest (meanOf vs))).
      { apply nearest_isDouble; [exact Hpos|].
        eapply Qle_lt_trans; [exact Hbelow|].
        rewrite <- pow2_Z by lia. apply pow2_lt. lia. }
      eexists. split; [reflexivity|].
      split; [|split; [|split]].
      * eapply isDouble_eq; [|exact Hd]. symmetry. apply Qred_correct.
      * intros d Hdouble. rewrite Qred_correct. now apply nearest_closest.
      * rewrite Qred_correct. apply nearest_relative.
        destruct (@NumberFacts.ratio_bounds (Summary.sumFrequencies vs)
                    (Z.of_nat (List.length vs)) 1
                    (Summary.sumFrequencies vs) Hlen)
          as [H1 _]; [lia | nia|].
        eapply Qle_trans; [|exact H1].
        change (inject_Z 1) with (pow2 0). apply pow2_le. lia.
      * intros Hm. rewrite Qred_correct. now apply nearest_exact.
    + exact Hnan.
    + intros Hsafe s. rewrite (Havg Hsafe).
      destruct (Hcases Hsafe) as (_ & _ & ->). discriminate.
Qed.

Lemma average_frequency_is_mean_witness :
  exists out,
    processVillainData [] Summary.scenarioE = Completion.Return out
    /\ ProcessedData.villains out = [Summary.villainA; Summary.villainB]
    /\ VillainStats.averageFrequency (ProcessedData.stats out)
       = JsNumber.Num (Qmake 3 2)
    /\ exists q,
        VillainStats.averageFrequency (ProcessedData.stats out)
        = JsNumber.Num q
        /\ Qeq q (Qmake 3 2).
Proof.
  eexists. split; [reflexivity|]. split; [reflexivity|].
  split; [vm_compute; reflexivity|].
  destruct (@average_frequency_is_mean [] Summary.scenarioE _ eq_refl)
    as (_ & Hmean & _).
  destruct Hmean as (q & Eq & _ & _ & _ & Hexact);
    [discriminate | vm_compute; discriminate |].
  exists q. split; [exact Eq|]. rewrite Hexact; [reflexivity|].
  exists 3, (-1). split; [reflexivity|]. split; [lia|].
  split; vm_compute; reflexivity.
Defined.

End Mean.

(* ================================================================== *)
(** ** What the extractor can return *)

Module ExtractorFacts.
Import JsString Regex Dom Scraper ScraperFacts TextFallback TrimFacts.

Lemma scanLinks_result (links : list node) :
  scanLinks links = []
  \/ exists l, In l links /\ scanLinks links = trim (text l)
               /\ qualifies (trim (text l)) = true.
Proof.
  induction links as [|l r IH]; simpl; [now left|].
  destruct (qualifies (trim (text l))) eqn:E.
  - right. exists l. auto.
  - destruct IH as [IH | (l' & Hin & E' & Hq)]; [now left|].
    right. exists l'. auto.
Qed.

(** Where the name of an item comes from. *)
Lemma itemName_origin (item : node) :
  itemName item = []
  \/ (itemName item = ownText item /\ textPasses (ownText item) = true
      /\ nameFromLinks (find "a" item) = [])
  \/ (exists l, find "a" item = [l] /\ itemName item = trim (text l))
  \/ (exists l, In l (find "a" item)
                /\ (2 <= List.length (find "a" item))%nat
                /\ itemName item = trim (text l)
                /\ qualifies (trim (text l)) = true).
Proof.
  unfold itemName.
  destruct (truthy (nameFromLinks (find "a" item))) eqn:Et; simpl.
  - right. right. unfold nameFromLinks in *.
    destruct (find "a" item) as [|l1 [|l2 r]] eqn:El.
    + discriminate.
    + left. now exists l1.
    + right. destruct (scanLinks_result (l1 :: l2 :: r))
        as [E | (l & Hin & E & Hq)].
      * rewrite E in Et. discriminate.
      * exists l. rewrite E. simpl. repeat split; auto; lia.
  - unfold nameFromText. fold (ownText item).
    destruct (textPasses (ownText item)) eqn:Ep; [|now left].
    right. left. repeat split.
    destruct (nameFromLinks (find "a" item)); [reflexivity | discriminate].
Qed.

Lemma In_parseListItems (items : list node) (name : jsstring) :
  In name (parseListItems items) ->
  exists item, In item items /\ pushItem [] item = [name].
Proof.
  induction items as [|item r IH] using rev_ind; [intros []|].
  rewrite parseListItems_app. intros H. apply in_app_or in H.
  destruct H as [H | H].
  - destruct (IH H) as (it & Hin & E). exists it.
    split; [apply in_or_app; now left | exact E].
  - exists item. split; [apply in_or_app; right; now left|].
    unfold parseListItems in H. simpl in H. unfold pushItem in *.
    destruct (_ && _); simpl in *; [|destruct H].
    destruct H as [<- | []]. reflexivity.
Qed.

Lemma length_parseListItems (items : list node) :
  (List.length (parseListItems items) <= List.length items)%nat.
Proof.
  induction items as [|item r IH] using rev_ind; [simpl; lia|].
  rewrite parseListItems_app, !length_app. simpl.
  unfold parseListItems at 2. simpl. unfold pushItem.
  destruct (_ && _); simpl; lia.
Qed.

(** X11. Every name that [parseAntagonistsFromHtml] returns is longer than
    one code unit, has no white space at either end, and is either the
    trimmed text of a link of a visited list item or the trimmed first line
    of the text of that item; and a page gives at most one name per visited
    list item. *)
Theorem extracted_names_shape (document : node) :
  (List.length (parseAntagonistsFromHtml document)
   <= List.length (antagonistItems document))%nat
  /\ forall name,
      In name (parseAntagonistsFromHtml document) ->
      (1 < List.length name)%nat
      /\ trim name = name
      /\ exists item,
          In item (antagonistItems document)
          /\ (name = ownText item
              \/ exists l, In l (find "a" item) /\ name = trim (text l)).
Proof.
  rewrite parseAntagonistsFromHtml_items. split.
  - apply length_parseListItems.
  - intros name Hin. apply In_parseListItems in Hin.
    destruct Hin as (item & Hitem & Hpush). unfold pushItem in Hpush.
    destruct (truthy (itemName item) && (1 <? List.length (itemName item))%nat)
      eqn:E; [|discriminate].
    simpl in Hpush. injection Hpush as <-.
    apply andb_true_iff in E. destruct E as [Ht Hl]. apply Nat.ltb_lt in Hl.
    split; [exact Hl|].
    destruct (itemName_origin item)
      as [E | [(E & _) | [(l & Hl1 & E) | (l & Hin & _ & E & _)]]].
    + rewrite E in Ht. discriminate.
    + rewrite E. split; [apply trim_trimmed|]. exists item. auto.
    + rewrite E. split; [apply trim_trimmed|]. exists item.
      split; [exact Hitem|]. right. exists l. rewrite Hl1.
      split; [now left | reflexivity].
    + rewrite E. split; [apply trim_trimmed|]. exists item.
      split; [exact Hitem|]. right. exists l. auto.
Qed.

Lemma extracted_names_shape_witness :
  (1 < List.length (js "Chameleon"))%nat
  /\ trim (js "Chameleon") = js "Chameleon".
Proof.
  destruct (extracted_names_shape (storyPage [scenarioB])) as [_ H].
  destruct (H (js "Chameleon")) as (H1 & H2 & _).
  - left. reflexivity.
  - split; assumption.
Defined.

(** X12. A list item without any link or with several links never gives a
    name made of white space and the glyphs of the filter only, and a name
    taken from one of several links never starts with "see" in any letter
    case. An item with exactly one link gives the trimmed text of that link
    whenever it is longer than one code unit, whatever it is made of. *)
Theorem no_navigation_name_unless_single_link
        (item : node) (name : jsstring) :
  pushItem [] item = [name] ->
  (List.length (find "a" item) <> 1%nat -> matchNav name = false)
  /\ ((2 <= List.length (find "a" item))%nat ->
      nameFromLinks (find "a" item) <> [] -> matchSee name = false)
  /\ (forall l, find "a" item = [l] -> trim (text l) <> [] ->
                name = trim (text l)).
Proof.
  intros Hpush. unfold pushItem in Hpush.
  destruct (truthy (itemName item) && (1 <? List.length (itemName item))%nat)
    eqn:E; [|discriminate].
  simpl in Hpush. injection Hpush as <-.
  apply andb_true_iff in E. destruct E as [Ht _].
  split; [|split].
  - intros Hlen.
    destruct (itemName_origin item)
      as [E | [(E & Hp & _) | [(l & Hl1 & E) | (l & Hin & _ & E & Hq)]]].
    + rewrite E in Ht. discriminate.
    + rewrite E. unfold textPasses in Hp.
      apply andb_true_iff in Hp. destruct Hp as [_ Hp].
      now apply negb_true_iff in Hp.
    + rewrite Hl1 in Hlen. simpl in Hlen. congruence.
    + rewrite E. now destruct (qualifies_pushed _ Hq) as (_ & _ & H & _).
  - intros Hlen Hne.
    assert (E0 : itemName item = nameFromLinks (find "a" item)).
    { unfold itemName.
      destruct (nameFromLinks (find "a" item)); [congruence | reflexivity]. }
    rewrite E0. unfold nameFromLinks in *.
    destruct (find "a" item) as [|l1 [|l2 rest]]; simpl in Hlen; try lia.
    destruct (scanLinks_result (l1 :: l2 :: rest))
      as [E | (l & _ & E & Hq)].
    + congruence.
    + rewrite E. now destruct (qualifies_pushed _ Hq) as (_ & _ & _ & H).
  - intros l Hl Hne. unfold itemName. rewrite Hl. simpl.
    destruct (trim (text l)); [congruence | reflexivity].
Qed.

Lemma no_navigation_name_unless_single_link_witness :
  matchNav (js "Chameleon") = false
  /\ matchSee (js "Chameleon") = false
  /\ [0x25C0; 0x25C0]%N = trim (text (a [0x25C0; 0x25C0]%N)).
Proof.
  destruct (@no_navigation_name_unless_single_link scenarioB
              (js "Chameleon") eq_refl) as (H1 & H2 & _).
  destruct (@no_navigation_name_unless_single_link
              (li [a [0x25C0; 0x25C0]%N]) [0x25C0; 0x25C0]%N eq_refl)
    as (_ & _ & H3).
  split; [apply H1; discriminate|].
  split; [apply H2; [simpl; lia | discriminate]|].
  apply (H3 (a [0x25C0; 0x25C0]%N)); [reflexivity | discriminate].
Defined.

End ExtractorFacts.

(* ================================================================== *)
(** ** d3Graph.ts *)

Module D3DataPoint.
Record t : Type := make {
  issueNumber : issueKey;
  villainsInIssue : list (option jsstring);
  villainCount : Z
}.
End D3DataPoint.

Module D3Graph.
Import JsString DataProcessor.

Definition COLOR_PALETTE : list jsstring :=
  [ js "#e74c3c"; js "#3498db"; js "#2ecc71"; js "#f39c12"; js "#9b59b6";
    js "#1abc9c"; js "#e67e22"; js "#34495e"; js "#16a085"; js "#d35400";
    js "#c0392b"; js "#8e44ad"; js "#27ae60"; js "#2980b9"; js "#f1c40f" ].

(** ToInt32: the signed 32-bit integer congruent to [z] modulo 2^32. *)
Definition toInt32 (z : Z) : Z :=
  (z + 2147483648) mod 4294967296 - 2147483648.

(** [x << n] and [a & b]: both operands go through ToInt32, and so does the
    result of the shift. *)
Definition shiftLeft (x n : Z) : Z := toInt32 (Z.shiftl (toInt32 x) n).
Definition bitAnd (a b : Z) : Z := Z.land (toInt32 a) (toInt32 b).

(** The body of the loop of [getVillainColor], for the code unit [c]. The
    sum in between is an exact integer: it stays far below 2^53. *)
Definition hashStep (hash : Z) (c : N) : Z :=
  let hash := (shiftLeft hash 5 - hash) + Z.of_N c in
  bitAnd hash hash.

(** [hash] after the loop. *)
Definition hashOf (villainName : jsstring) : Z :=
  fold_left hashStep villainName 0.

(** [getVillainColor]; [None] is [undefined]. *)
Definition getVillainColor (villainName : jsstring) : option jsstring :=
  let hash := hashOf villainName in
  let colorIndex :=
    Z.rem (Z.abs hash) (Z.of_nat (List.length COLOR_PALETTE)) in
  if colorIndex <? 0 then None
  else nth_error COLOR_PALETTE (Z.to_nat colorIndex).

Definition formatDataForD3 (data : ProcessedData.t) : list D3DataPoint.t :=
  map (fun timelineItem =>
         D3DataPoint.make
           (TimelineData.issue timelineItem)
           (map (fun v => hd_error (ProcessedVillain.names v))
                (TimelineData.villains timelineItem))
           (TimelineData.villainCount timelineItem))
      (ProcessedData.timeline data).

(** The numbers that [Math.max] meets here: integers, [NaN] (from
    [undefined]) and the [-Infinity] it starts from. *)
Inductive number : Type :=
| Int (z : Z)
| NaN
| NegInfinity.

Definition toNumber (k : issueKey) : number :=
  match k with
  | Some z => Int z
  | None => NaN
  end.

Definition higher (highest x : number) : number :=
  match highest, x with
  | NaN, _ => NaN
  | _, NaN => NaN
  | NegInfinity, _ => x
  | Int h, NegInfinity => Int h
  | Int h, Int z => if h <? z then Int z else Int h
  end.

(** [Math.max] on the arguments [args]. *)
Definition mathMax (args : list number) : number :=
  fold_left higher args NegInfinity.

(** The spread [...array] in a call: every element becomes an argument.
    [maxArguments] is the number of arguments that the engine accepts in
    one call, and [None] the [RangeError] that it throws beyond. *)
Definition spread (A : Type) (maxArguments : Z) (array : list A)
  : option (list A) :=
  if maxArguments <? Z.of_nat (List.length array) then None
  else Some array.

Module Scale.
Record t : Type := make {
  domain : list number;
  range : list Z
}.
End Scale.

Module Config.
Record t : Type := make {
  data : list D3DataPoint.t;
  x : Scale.t;
  y : Scale.t;
  colors : JsMap.t jsstring (option jsstring)
}.
End Config.

(** The loop that fills [colorMap]. Reading [length] of an undefined name
    throws a TypeError: [None]. *)
Definition addColor (colorMap : option (JsMap.t jsstring (option jsstring)))
                    (villain : ProcessedVillain.t)
  : option (JsMap.t jsstring (option jsstring)) :=
  match colorMap with
  | None => None
  | Some colorMap =>
      match hd_error (ProcessedVillain.names villain) with
      | None => None
      | Some name =>
          let color := getVillainColor name in
          Some (JsMap.set JsString.eqb name color colorMap)
      end
  end.

(** [generateD3Config]; an omitted [width] or [height] is [None], and the
    result is [None] when the call throws: the [TypeError] of the colour
    loop or the [RangeError] of a spread. *)
Definition generateD3Config (maxArguments : Z) (data : ProcessedData.t)
                            (width height : option Z)
  : option Config.t :=
  let width := match width with Some w => w | None => 1200 end in
  let height := match height with Some h => h | None => 600 end in
  let d3Data := formatDataForD3 data in
  match fold_left addColor (ProcessedData.villains data)
                  (Some (JsMap.empty jsstring (option jsstring))) with
  | None => None
  | Some colorMap =>
      match spread maxArguments
              (map (fun d => toNumber (D3DataPoint.issueNumber d)) d3Data)
      with
      | None => None
      | Some issueNumbers =>
          let maxIssue := mathMax issueNumbers in
          match spread maxArguments
                  (map (fun d => Int (D3DataPoint.villainCount d)) d3Data)
          with
          | None => None
          | Some villainCounts =>
              let maxVillains := mathMax villainCounts in
              Some (Config.make d3Data
                      (Scale.make [Int 1; maxIssue] [60; width - 20])
                      (Scale.make [Int 0; maxVillains] [height - 30; 20])
                      colorMap)
          end
      end
  end.

End D3Graph.

(* ================================================================== *)
(** ** The colour of a villain *)

Module ColorFacts.
Import JsString D3Graph.

Lemma toInt32_range (z : Z) : -2147483648 <= toInt32 z < 2147483648.
Proof.
  unfold toInt32.
  pose proof (Z.mod_pos_bound (z + 2147483648) 4294967296 eq_refl). lia.
Qed.

Lemma toInt32_fixed (z : Z) :
  -2147483648 <= z < 2147483648 -> toInt32 z = z.
Proof. intros H. unfold toInt32. rewrite Z.mod_small; lia. Qed.

Lemma toInt32_congr (a b : Z) :
  (a - b) mod 4294967296 = 0 -> toInt32 a = toInt32 b.
Proof.
  intros H. unfold toInt32. f_equal.
  apply Z.mod_divide in H; [|discriminate]. destruct H as [q H].
  replace (a + 2147483648) with (b + 2147483648 + q * 4294967296) by lia.
  now rewrite Z.mod_add.
Qed.

Lemma toInt32_mod (z : Z) : (toInt32 z - z) mod 4294967296 = 0.
Proof.
  unfold toInt32.
  rewrite (Z.mod_eq (z + 2147483648) 4294967296) by discriminate.
  replace (z + 2147483648
           - 4294967296 * ((z + 2147483648) / 4294967296)
           - 2147483648 - z)
    with (- ((z + 2147483648) / 4294967296) * 4294967296) by lia.
  apply Z.mod_mul. discriminate.
Qed.

Lemma hashStep_poly (h : Z) (c : N) (p : Z) :
  (h - p) mod 4294967296 = 0 ->
  -2147483648 <= hashStep h c < 2147483648
  /\ (hashStep h c - (31 * p + Z.of_N c)) mod 4294967296 = 0.
Proof.
  intros Hp. unfold hashStep, bitAnd, shiftLeft. rewrite Z.land_diag.
  split; [apply toInt32_range|].
  rewrite Z.shiftl_mul_pow2 by lia. change (2 ^ 5) with 32.
  set (s := toInt32 (toInt32 h * 32)).
  pose proof (toInt32_mod (s - h + Z.of_N c)) as H1.
  pose proof (toInt32_mod (toInt32 h * 32)) as H2. fold s in H2.
  pose proof (toInt32_mod h) as H3.
  apply Z.mod_divide in Hp, H1, H2, H3; try discriminate.
  destruct Hp as [q0 Hp], H1 as [q1 H1], H2 as [q2 H2], H3 as [q3 H3].
  apply Z.mod_divide; [discriminate|].
  exists (q1 + q2 + 32 * q3 + 31 * q0). lia.
Qed.

(** The polynomial in 31 whose coefficients are the code units. *)
Definition polynomial (s : jsstring) : Z :=
  fold_left (fun p c => 31 * p + Z.of_N c) s 0.

Lemma color_hash_is_polynomial_aux (villainName : jsstring) :
  hashOf villainName = toInt32 (polynomial villainName)
  /\ -2147483648 <= hashOf villainName < 2147483648.
Proof.
  unfold hashOf, polynomial.
  assert (H : forall s h p,
             -2147483648 <= h < 2147483648 ->
             (h - p) mod 4294967296 = 0 ->
             -2147483648 <= fold_left hashStep s h < 2147483648
             /\ (fold_left hashStep s h
                 - fold_left (fun p c => 31 * p + Z.of_N c) s p)
                mod 4294967296 = 0).
  { induction s as [|c r IH]; intros h p Hr Hp; simpl; [auto|].
    destruct (hashStep_poly h c p Hp) as [Hr' Hp']. now apply IH. }
  destruct (H villainName 0 0) as [Hr Hp]; [lia | reflexivity|].
  split; [|exact Hr].
  rewrite <- (@toInt32_fixed _ Hr). now apply toInt32_congr.
Qed.

Lemma polynomial_snoc (s : jsstring) (c : N) :
  polynomial (s ++ [c]) = 31 * polynomial s + Z.of_N c.
Proof. unfold polynomial. now rewrite fold_left_app. Qed.

(** X13. The hash that picks the colour is the polynomial hash of the name:
    the sum of its code units weighted by powers of 31 (each further code
    unit multiplies what came before by 31), wrapped to a signed 32-bit
    integer. *)
Theorem color_hash_is_polynomial (villainName : jsstring) (c : N) :
  hashOf villainName = toInt32 (polynomial villainName)
  /\ -2147483648 <= hashOf villainName < 2147483648
  /\ polynomial [] = 0
  /\ polynomial (villainName ++ [c])
     = 31 * polynomial villainName + Z.of_N c.
Proof.
  destruct (color_hash_is_polynomial_aux villainName) as [H1 H2].
  split; [exact H1|]. split; [exact H2|]. split; [reflexivity|].
  apply polynomial_snoc.
Qed.

Lemma colorIndex_range (hash : Z) :
  0 <= Z.rem (Z.abs hash) (Z.of_nat (List.length COLOR_PALETTE)) < 15.
Proof.
  change (Z.of_nat (List.length COLOR_PALETTE)) with 15.
  rewrite Z.rem_mod_nonneg by lia. apply Z.mod_pos_bound. lia.
Qed.

Lemma palette_entry (i : Z) :
  0 <= i < 15 ->
  exists color,
    nth_error COLOR_PALETTE (Z.to_nat i) = Some color
    /\ In color COLOR_PALETTE.
Proof.
  intros Hi.
  destruct (nth_error COLOR_PALETTE (Z.to_nat i)) as [color|] eqn:En.
  - exists color. split; [reflexivity|]. eapply nth_error_In, En.
  - apply nth_error_None in En. simpl in En. lia.
Qed.

(** X14. Every name gets a colour of the palette: the index computed from
    the hash is always within the fifteen entries, also for the empty name
    and for the most negative hash; and two names with the same polynomial
    hash modulo 2^32 get the same colour. *)
Theorem color_is_from_palette (villainName : jsstring) :
  (exists color,
      getVillainColor villainName = Some color /\ In color COLOR_PALETTE)
  /\ (forall other,
        (polynomial villainName - polynomial other) mod 4294967296 = 0 ->
        getVillainColor villainName = getVillainColor other).
Proof.
  split.
  - unfold getVillainColor. cbv zeta.
    pose proof (colorIndex_range (hashOf villainName)) as Hi.
    destruct (_ <? 0) eqn:E; [apply Z.ltb_lt in E; lia|].
    now apply palette_entry.
  - intros other H. unfold getVillainColor.
    destruct (color_hash_is_polynomial_aux villainName) as [E1 _].
    destruct (color_hash_is_polynomial_aux other) as [E2 _].
    rewrite E1, E2. now rewrite (toInt32_congr _ _ H).
Qed.

Lemma color_is_from_palette_witness :
  getVillainColor (js "Aa") = getVillainColor (js "BB").
Proof.
  apply (proj2 (color_is_from_palette (js "Aa")) (js "BB")). reflexivity.
Defined.

End ColorFacts.

(* ================================================================== *)
(** ** The chart configuration *)

Module ConfigFacts.
Import JsString DataProcessor IndexFacts RegistryFacts Registry D3Graph
       ColorFacts.

Local Abbreviation names := ProcessedVillain.names.

(** *** [Math.max] *)

Lemma fold_max_spec (zs : list Z) (h : Z) :
  let m := fold_left Z.max zs h in
  h <= m /\ Forall (fun z => z <= m) zs /\ (m = h \/ In m zs).
Proof.
  revert h. induction zs as [|z r IH]; intros h; simpl.
  - repeat split; [lia | constructor | now left].
  - destruct (IH (Z.max h z)) as (H1 & H2 & H3). repeat split.
    + lia.
    + constructor; [lia | exact H2].
    + destruct H3 as [H3 | H3]; [|right; now right].
      rewrite H3.
      destruct (Z.max_spec h z) as [[_ E] | [_ E]]; rewrite E.
      * right. now left.
      * now left.
Qed.

Lemma fold_higher_ints (zs : list Z) (h : Z) :
  fold_left higher (map Int zs) (Int h) = Int (fold_left Z.max zs h).
Proof.
  revert h. induction zs as [|z r IH]; intros h; simpl; [reflexivity|].
  destruct (h <? z) eqn:E; rewrite IH; f_equal; f_equal.
  - apply Z.ltb_lt in E. lia.
  - apply Z.ltb_ge in E. lia.
Qed.

Lemma mathMax_ints (z : Z) (zs : list Z) :
  exists m, mathMax (map Int (z :: zs)) = Int m
            /\ In m (z :: zs) /\ Forall (fun a => a <= m) (z :: zs).
Proof.
  unfold mathMax. simpl. rewrite fold_higher_ints.
  destruct (fold_max_spec zs z) as (H1 & H2 & H3).
  eexists. split; [reflexivity|]. split.
  - destruct H3 as [-> | H3]; [now left | now right].
  - constructor; assumption.
Qed.

Lemma fold_higher_NaN (args : list number) :
  fold_left higher args NaN = NaN.
Proof. induction args as [|a r IH]; simpl; [reflexivity | exact IH]. Qed.

Lemma mathMax_NaN (args : list number) :
  In NaN args -> mathMax args = NaN.
Proof.
  unfold mathMax. generalize NegInfinity as acc.
  induction args as [|a r IH]; intros acc; [intros []|].
  intros [-> | Hin]; simpl.
  - destruct acc; apply fold_higher_NaN.
  - now apply IH.
Qed.

Lemma spread_Some (A : Type) (maxArguments : Z) (array args : list A) :
  spread maxArguments array = Some args -> args = array.
Proof.
  unfold spread. destruct (_ <? _); [discriminate|].
  intros H. now injection H as <-.
Qed.

Lemma spread_fits (A : Type) (maxArguments : Z) (array : list A) :
  Z.of_nat (List.length array) <= maxArguments ->
  spread maxArguments array = Some array.
Proof.
  intros H. unfold spread.
  destruct (_ <? _) eqn:E; [apply Z.ltb_lt in E; lia | reflexivity].
Qed.

Lemma spread_too_long (A : Type) (maxArguments : Z) (array : list A) :
  maxArguments < Z.of_nat (List.length array) ->
  spread maxArguments array = None.
Proof.
  intros H. unfold spread.
  destruct (_ <? _) eqn:E; [reflexivity | apply Z.ltb_ge in E; lia].
Qed.

(** X15. The scale domains of a chart configuration: with an empty
    timeline both upper bounds are [-Infinity]; otherwise the upper bound
    of [y] is the largest villain count of the timeline, and the upper
    bound of [x] is the largest issue key when all keys are integers and
    [NaN] as soon as one key is undefined. The lower bounds are 1 and 0
    whatever the data. *)
Theorem chart_domains
        (maxArguments : Z) (data : ProcessedData.t)
        (width height : option Z) (config : Config.t) :
  generateD3Config maxArguments data width height = Some config ->
  let keys := map TimelineData.issue (ProcessedData.timeline data) in
  let counts :=
    map TimelineData.villainCount (ProcessedData.timeline data) in
  (ProcessedData.timeline data = [] ->
   Scale.domain (Config.x config) = [Int 1; NegInfinity]
   /\ Scale.domain (Config.y config) = [Int 0; NegInfinity])
  /\ (ProcessedData.timeline data <> [] ->
      exists c, Scale.domain (Config.y config) = [Int 0; Int c]
                /\ In c counts /\ Forall (fun z => z <= c) counts)
  /\ (ProcessedData.timeline data <> [] ->
      forall zs, keys = map Some zs ->
      exists m, Scale.domain (Config.x config) = [Int 1; Int m]
                /\ In m zs /\ Forall (fun z => z <= m) zs)
  /\ (In None keys -> Scale.domain (Config.x config) = [Int 1; NaN]).
Proof.
  unfold generateD3Config.
  destruct (fold_left addColor _ _) as [colorMap|]; [|discriminate].
  destruct (spread _ _) as [issueNumbers|] eqn:E1; [|discriminate].
  destruct (spread _ (map (fun d => Int _) _)) as [villainCounts|] eqn:E2;
    [|discriminate].
  apply spread_Some in E1, E2. subst issueNumbers villainCounts.
  intros H. injection H as <-. simpl. unfold formatDataForD3.
  rewrite !map_map. simpl.
  destruct (ProcessedData.timeline data) as [|t ts] eqn:Et.
  - repeat split; try reflexivity; try congruence. intros [].
  - split; [discriminate|]. split; [|split].
    + intros _.
      destruct (mathMax_ints (TimelineData.villainCount t)
                  (map TimelineData.villainCount ts)) as (c & E & Hin & Hle).
      exists c. split; [|split; assumption].
      rewrite <- (map_map TimelineData.villainCount Int (t :: ts)).
      simpl map at 2. now rewrite E.
    + intros _ zs Hzs. destruct zs as [|z zs]; [discriminate|].
      destruct (mathMax_ints z zs) as (m & E & Hin & Hle).
      exists m. split; [|split; assumption].
      rewrite <- (map_map TimelineData.issue toNumber (t :: ts)), Hzs.
      rewrite (map_map Some toNumber). simpl toNumber.
      change (fun x : Z => Int x) with Int. now rewrite E.
    + intros Hin.
      rewrite <- (map_map TimelineData.issue toNumber (t :: ts)).
      rewrite mathMax_NaN; [reflexivity|].
      apply in_map_iff. exists None. auto.
Qed.

Definition onePoint (k : issueKey) (count : Z) : ProcessedData.t :=
  ProcessedData.make [] [] [] [TimelineData.make k [] count]
    (VillainStats.make 0 noVillain (JsNumber.ofZ 0) []).

Lemma chart_domains_witness :
  (exists config,
      generateD3Config 65535 (onePoint (Some 7) 2) None None = Some config
      /\ Scale.domain (Config.x config) = [Int 1; Int 7]
      /\ Scale.domain (Config.y config) = [Int 0; Int 2])
  /\ exists config,
      generateD3Config 65535 (onePoint None 0) None None = Some config
      /\ Scale.domain (Config.x config) = [Int 1; NaN].
Proof.
  split.
  - eexists. split; [reflexivity|].
    destruct (@chart_domains 65535 (onePoint (Some 7) 2) None None _ eq_refl)
      as (_ & Hy & Hx & _).
    destruct (Hx ltac:(discriminate) [7] eq_refl) as (m & E & _).
    split; reflexivity.
  - eexists. split; [reflexivity|].
    destruct (@chart_domains 65535 (onePoint None 0) None None _ eq_refl)
      as (_ & _ & _ & Hn).
    apply Hn. left. reflexivity.
Defined.

(** *** The colour map *)

Definition nameOf (v : ProcessedVillain.t) : jsstring :=
  match names v with
  | n :: _ => n
  | [] => []
  end.

Definition colorEntry (v : ProcessedVillain.t)
  : jsstring * option jsstring :=
  (nameOf v, getVillainColor (nameOf v)).

Lemma has_false_colors (n : jsstring)
      (m : JsMap.t jsstring (option jsstring)) :
  ~ In n (JsMap.keys m) -> JsMap.has JsString.eqb n m = false.
Proof.
  unfold JsMap.has, JsMap.keys. induction m as [|[k v] r IH]; simpl.
  - reflexivity.
  - intros H. destruct (JsString.eqb n k) eqn:E.
    + apply StringFacts.string_eqb_eq in E. subst. exfalso. apply H.
      now left.
    + apply IH. intros Hin. apply H. now right.
Qed.

Lemma addColors (vs : list ProcessedVillain.t)
      (m : JsMap.t jsstring (option jsstring)) :
  Forall (fun v => exists n, names v = [n]) vs ->
  NoDup (JsMap.keys m ++ map nameOf vs) ->
  fold_left addColor vs (Some m) = Some (m ++ map colorEntry vs).
Proof.
  revert m. induction vs as [|v r IH]; intros m Hall Hnd; simpl.
  - now rewrite app_nil_r.
  - inversion Hall as [|? ? [n Hn] Hall']; subst.
    assert (En : nameOf v = n) by (unfold nameOf; now rewrite Hn).
    rewrite Hn. simpl.
    assert (Hnew : ~ In n (JsMap.keys m)).
    { simpl in Hnd. rewrite En in Hnd.
      apply NoDup_remove_2 in Hnd. intros Hin. apply Hnd.
      apply in_or_app. now left. }
    rewrite (MapFacts.set_absent JsString.eqb _ _ _ (has_false_colors _ _ Hnew)).
    rewrite IH; [|exact Hall'|].
    + rewrite <- app_assoc. simpl. unfold colorEntry at 2. now rewrite En.
    + unfold JsMap.keys. rewrite map_app. simpl. rewrite <- app_assoc. simpl.
      fold (JsMap.keys m). rewrite <- En. exact Hnd.
Qed.

(** X16. On an output of [processVillainData] whose timeline has no more
    slots than the engine accepts arguments in a call, [generateD3Config]
    does not throw; its colour map has one entry per villain, in the order
    of the villains, that maps the name of the villain to a colour of the
    palette; and its data has one point per timeline slot whose
    [villainCount] is the number of names listed in the point. With more
    slots than that, the call throws. *)
Theorem chart_config_of_output
        (maxArguments : Z) (now : jsstring)
        (rawData : option RawVillainData.t)
        (out : ProcessedData.t) (width height : option Z) :
  processVillainData now rawData = Completion.Return out ->
  (Z.of_nat (List.length (ProcessedData.timeline out)) <= maxArguments ->
   exists config,
     generateD3Config maxArguments out width height = Some config
     /\ JsMap.keys (Config.colors config)
        = map nameOf (ProcessedData.villains out)
     /\ map (fun v => Some (nameOf v)) (ProcessedData.villains out)
        = map (fun v => hd_error (names v)) (ProcessedData.villains out)
     /\ Forall (fun entry =>
                  snd entry = getVillainColor (fst entry)
                  /\ exists color, snd entry = Some color
                                   /\ In color COLOR_PALETTE)
               (Config.colors config)
     /\ map D3DataPoint.issueNumber (Config.data config)
        = map TimelineData.issue (ProcessedData.timeline out)
     /\ Forall (fun d =>
                  D3DataPoint.villainCount d
                  = Z.of_nat (List.length (D3DataPoint.villainsInIssue d))
                  /\ ~ In None (D3DataPoint.villainsInIssue d))
               (Config.data config))
  /\ (maxArguments < Z.of_nat (List.length (ProcessedData.timeline out)) ->
      generateD3Config maxArguments out width height = None).
Proof.
  intros Hret. apply processVillainData_returns in Hret.
  destruct Hret as (raw & issues & _ & _ & ->).
  unfold generateD3Config, JsMap.empty.
  cbn [ProcessedData.villains ProcessedData.timeline].
  set (vs := map sortVillain (JsMap.values (buildVillainMap issues))).
  assert (Hnames : Forall (fun v => exists n, names v = [n]) vs).
  { rewrite Forall_forall. intros v Hv. apply output_villain in Hv.
    destruct Hv as (n & u & -> & _ & (H1 & _) & _). now exists n. }
  assert (Hkeys : map nameOf vs = JsMap.keys (buildVillainMap issues)).
  { unfold vs, JsMap.values, JsMap.keys. rewrite !map_map.
    apply map_ext_in. intros [n u] Hin.
    destruct (buildVillainMap_indexOk issues) as (_ & Hall & _).
    rewrite Forall_forall in Hall. destruct (Hall _ Hin) as (H1 & _).
    unfold nameOf. simpl. now rewrite H1. }
  rewrite (@addColors vs [] Hnames).
  2:{ simpl. rewrite Hkeys.
      now destruct (buildVillainMap_indexOk issues) as (Hnd & _). }
  split.
  2:{ intros Hlong. rewrite spread_too_long; [reflexivity|].
      unfold formatDataForD3. simpl. now rewrite !length_map in *. }
  intros Hfits.
  rewrite !spread_fits
    by (unfold formatDataForD3; simpl; now rewrite !length_map in * ).
  eexists. split; [reflexivity|]. simpl.
  split; [|split; [|split; [|split]]].
  - unfold JsMap.keys, colorEntry. now rewrite map_map.
  - apply map_ext_in. intros v Hv. rewrite Forall_forall in Hnames.
    destruct (Hnames v Hv) as [n Hn]. unfold nameOf. now rewrite Hn.
  - rewrite Forall_map, Forall_forall. intros v _. simpl.
    split; [reflexivity|]. unfold getVillainColor. cbv zeta.
    pose proof (colorIndex_range (hashOf (nameOf v))) as Hi.
    destruct (_ <? 0) eqn:E; [apply Z.ltb_lt in E; lia|].
    now apply palette_entry.
  - unfold formatDataForD3. now rewrite map_map.
  - unfold formatDataForD3, generateTimeline. simpl.
    rewrite map_map, Forall_map, Forall_forall. intros issue _. simpl.
    rewrite values_sortAppearances. fold vs.
    split; [now rewrite length_map|].
    intros Hin. apply in_map_iff in Hin. destruct Hin as (v & Hnone & Hv).
    apply filter_In in Hv. destruct Hv as [Hv _].
    rewrite Forall_forall in Hnames. destruct (Hnames v Hv) as [n Hn].
    rewrite Hn in Hnone. discriminate.
Qed.

Lemma chart_config_of_output_witness :
  (exists config,
      generateD3Config 65535
        (match processVillainData [] (Some sample) with
         | Completion.Return out => out
         | Completion.Throw _ => onePoint None 0
         end) None None
      = Some config
      /\ JsMap.keys (Config.colors config) = [js "Vulture"; js "Mysterio"])
  /\ generateD3Config 1
       (match processVillainData [] (Some sample) with
        | Completion.Return out => out
        | Completion.Throw _ => onePoint None 0
        end) None None
     = None.
Proof.
  split.
  - destruct (proj1 (@chart_config_of_output 65535 [] (Some sample) _
                       None None eq_refl))
      as (config & E & Hkeys & _); [vm_compute; discriminate|].
    exists config. split; [exact E|]. rewrite Hkeys. reflexivity.
  - apply (proj2 (@chart_config_of_output 1 [] (Some sample) _
                    None None eq_refl)).
    vm_compute. reflexivity.
Defined.

End ConfigFacts.

(* ================================================================== *)
(** ** marvelScraper.ts: the loop over the issues *)

Module MarvelScraper.
Import JsString Dom Scraper.

Definition MARVEL_FANDOM_BASE : jsstring := js "https://marvel.fandom.com".

Definition AMAZING_SPIDER_MAN_URL_TEMPLATE : jsstring :=
  MARVEL_FANDOM_BASE ++ js "/wiki/Amazing_Spider-Man_Vol_1_{issue}".

(** The string of an integer, in a template or by [toString()]: its decimal
    digits, with a minus sign when negative. This is what JavaScript prints
    for integers below 10^21 in size, the safe integers among them; the
    statements about it are restricted to those. *)
Definition numberToString (z : Z) : jsstring :=
  JsString.lit (NilZero.string_of_int (Z.to_int z)).

(** [s.replace(pattern, replacement)] for a string pattern and a
    replacement without [$]: the first occurrence is replaced. *)
Fixpoint replaceFirst (pattern replacement s : jsstring) : jsstring :=
  if startsWith pattern s
  then replacement ++ skipn (List.length pattern) s
  else match s with
       | [] => []
       | c :: r => c :: replaceFirst pattern replacement r
       end.

Definition getIssueUrl (issueNumber : Z) : jsstring :=
  replaceFirst (js "{issue}") (numberToString issueNumber)
               AMAZING_SPIDER_MAN_URL_TEMPLATE.

(** How [axiosClient.get(url)] ends: with a response, whose [data] is
    [None] when falsy and the parsed page otherwise; with an axios error
    that carries a message and maybe a response status; or with another
    error. *)
Inductive httpResult : Type :=
| Resolved (data : option node)
| AxiosError (status : option Z) (message : jsstring)
| OtherError (message : jsstring).

(** A value, or the message of the [Error] that is thrown. *)
Inductive outcome (A : Type) : Type :=
| Done (a : A)
| Failed (message : jsstring).
Arguments Done {A} a.
Arguments Failed {A} message.

Section WithNetwork.

(** The network, as the scraper sees it. *)
Variable get : jsstring -> httpResult.

Definition scrapeIssue (issueNumber : Z) : outcome IssueData.t :=
  let url := getIssueUrl issueNumber in
  match get url with
  | Resolved None => Failed (js "No response data received")
  | Resolved (Some document) =>
      let antagonists := parseAntagonistsFromHtml document in
      Done (IssueData.make (Some issueNumber)
              (js "Amazing Spider-Man #" ++ numberToString issueNumber)
              None antagonists)
  | AxiosError status message =>
      Failed (js "HTTP Error "
              ++ match status with
                 | Some code => numberToString code
                 | None => js "undefined"
                 end
              ++ js ": " ++ message)
  | OtherError message => Failed message
  end.

(** The body of the loop: the record of the issue, or the placeholder when
    scraping it failed. *)
Definition scrapeNext (issues : list IssueData.t) (issueNumber : Z)
  : list IssueData.t :=
  match scrapeIssue issueNumber with
  | Done issueData => issues ++ [issueData]
  | Failed _ =>
      issues ++ [IssueData.make (Some issueNumber)
                   (js "Issue " ++ numberToString issueNumber
                    ++ js " (Failed)")
                   None []]
  end.

(** [Array.from({ length }, (_, i) => f i)]: [None] stands for the
    [RangeError] thrown when [length] is above the largest array length;
    a length below 0 counts as 0. *)
Definition arrayFrom (A : Type) (length : Z) (f : Z -> A) : option (list A) :=
  if JsNumber.MAX_ARRAY_LENGTH <? length then None
  else Some (map (fun i => f (Z.of_nat i)) (seq 0 (Z.to_nat length))).

(** [Array.from({ length: endIssue - startIssue + 1 },
    (_, i) => startIssue + i)]. The sums are exact as long as [endIssue]
    is a safe integer. *)
Definition issueNumbers (startIssue endIssue : Z) : option (list Z) :=
  arrayFrom (endIssue - startIssue + 1) (fun i => startIssue + i).

(** [scrapeAmazingSpiderManVol1]; an omitted argument is [None]. The
    second failure is the [RangeError] of [Array.from]. *)
Definition scrapeAmazingSpiderManVol1 (startIssue endIssue : option Z)
  : outcome RawVillainData.t :=
  let startIssue := match startIssue with Some s => s | None => 1 end in
  let endIssue := match endIssue with Some e => e | None => 441 end in
  if (startIssue <? 1) || (endIssue <? startIssue) then
    Failed (js "Invalid issue range: " ++ numberToString startIssue
            ++ js "-" ++ numberToString endIssue)
  else
    match issueNumbers startIssue endIssue with
    | None => Failed (js "Invalid array length")
    | Some issueNumbers =>
        let issues := fold_left scrapeNext issueNumbers [] in
        Done (RawVillainData.make (js "Amazing Spider-Man Vol 1")
                AMAZING_SPIDER_MAN_URL_TEMPLATE
                (RawVillainData.IssueArray issues))
    end.

End WithNetwork.

End MarvelScraper.

Module MarvelScraperExamples.
Import JsString Dom Scraper ScraperFacts MarvelScraper.

Example url_15 :
  getIssueUrl 15
  = js "https://marvel.fandom.com/wiki/Amazing_Spider-Man_Vol_1_15".
Proof. reflexivity. Qed.

(** A network where issue 2 is the only page that loads. *)
Definition onlyIssue2 (url : jsstring) : httpResult :=
  if JsString.eqb url (getIssueUrl 2)
  then Resolved (Some (storyPage [scenarioB]))
  else AxiosError (Some 404) (js "Request failed with status code 404").

Example two_issues :
  scrapeAmazingSpiderManVol1 onlyIssue2 (Some 1) (Some 2)
  = Done (RawVillainData.make (js "Amazing Spider-Man Vol 1")
            AMAZING_SPIDER_MAN_URL_TEMPLATE
            (RawVillainData.IssueArray
               [IssueData.make (Some 1) (js "Issue 1 (Failed)") None [];
                IssueData.make (Some 2) (js "Amazing Spider-Man #2") None
                  [js "Chameleon"]])).
Proof. reflexivity. Qed.

End MarvelScraperExamples.

(* ================================================================== *)
(** ** What the scraping loop returns *)


Module ScrapeFacts.
Import JsString Dom Scraper MarvelScraper.

(** *** The address of an issue *)

Lemma lit_inj (s1 s2 : string) : JsString.lit s1 = JsString.lit s2 -> s1 = s2.
Proof.
  unfold JsString.lit. intros H.
  rewrite <- (string_of_list_ascii_of_string s1),
          <- (string_of_list_ascii_of_string s2).
  f_equal. revert H.
  generalize (list_ascii_of_string s1) (list_ascii_of_string s2).
  induction l as [|c1 r1 IH]; intros [|c2 r2] H; simpl in H;
    try discriminate; [reflexivity|].
  injection H as Hc Hr. f_equal; [|now apply IH].
  rewrite <- (ascii_N_embedding c1), <- (ascii_N_embedding c2).
  now rewrite Hc.
Qed.

Lemma to_int_proper (z : Z) :
  Z.to_int z <> Decimal.Pos Decimal.Nil
  /\ Z.to_int z <> Decimal.Neg Decimal.Nil.
Proof.
  destruct z; simpl; split; try discriminate; intros H; injection H as H;
    now apply DecimalPos.Unsigned.to_uint_nonnil in H.
Qed.

Lemma numberToString_inj (a b : Z) :
  numberToString a = numberToString b -> a = b.
Proof.
  unfold numberToString. intros H. apply lit_inj in H.
  apply (f_equal NilZero.int_of_string) in H.
  destruct (to_int_proper a) as [Ha1 Ha2].
  destruct (to_int_proper b) as [Hb1 Hb2].
  rewrite !NilZero.isi in H by assumption.
  injection H as H. apply (f_equal Z.of_int) in H.
  now rewrite !DecimalZ.of_to in H.
Qed.

Definition wikiPrefix : jsstring :=
  js "https://marvel.fandom.com/wiki/Amazing_Spider-Man_Vol_1_".

(** X17. For issue numbers that are safe integers, the address fetched
    for an issue is the wiki address of the series followed by the decimal
    digits of the issue number, and two different issue numbers never have
    the same address. *)
Theorem issue_url_injective (a b : Z) :
  JsNumber.isSafeInteger a -> JsNumber.isSafeInteger b ->
  getIssueUrl a = wikiPrefix ++ numberToString a
  /\ (getIssueUrl a = getIssueUrl b -> a = b).
Proof.
  intros _ _.
  assert (H : forall z, getIssueUrl z = wikiPrefix ++ numberToString z).
  { intros z. unfold getIssueUrl. generalize (numberToString z). intros d.
    cbn. now rewrite app_nil_r. }
  split; [apply H|]. rewrite !H. intros E.
  apply app_inv_head in E. now apply numberToString_inj.
Qed.

Lemma issue_url_injective_witness :
  getIssueUrl 441 = wikiPrefix ++ js "441"
  /\ (getIssueUrl 441 = getIssueUrl 1 -> 441 = 1).
Proof.
  apply (issue_url_injective (a := 441) (b := 1));
    unfold JsNumber.isSafeInteger, JsNumber.MAX_SAFE_INTEGER; lia.
Defined.

(** *** The records *)

Section WithNetwork.
Variable get : jsstring -> httpResult.

Definition placeholder (issueNumber : Z) : IssueData.t :=
  IssueData.make (Some issueNumber)
    (js "Issue " ++ numberToString issueNumber ++ js " (Failed)") None [].

(** The record that the loop pushes for an issue. *)
Definition recordOf (issueNumber : Z) : IssueData.t :=
  match scrapeIssue get issueNumber with
  | Done issueData => issueData
  | Failed _ => placeholder issueNumber
  end.

Lemma scrapeNext_records (ns : list Z) (acc : list IssueData.t) :
  fold_left (scrapeNext get) ns acc = acc ++ map recordOf ns.
Proof.
  revert acc. induction ns as [|n r IH]; intros acc; simpl.
  - now rewrite app_nil_r.
  - rewrite IH. unfold scrapeNext, recordOf.
    destruct (scrapeIssue get n); now rewrite <- app_assoc.
Qed.

Lemma recordOf_spec (n : Z) :
  IssueData.issueNumber (recordOf n) = Some n
  /\ match get (getIssueUrl n) with
     | Resolved (Some document) =>
         recordOf n
         = IssueData.make (Some n)
             (js "Amazing Spider-Man #" ++ numberToString n) None
             (parseAntagonistsFromHtml document)
     | _ => recordOf n = placeholder n
     end.
Proof.
  unfold recordOf, scrapeIssue.
  destruct (get (getIssueUrl n)) as [[document|] | status message | message];
    simpl; split; reflexivity.
Qed.

(** The issue numbers from [startIssue] to [endIssue]. *)
Definition range (startIssue endIssue : Z) : list Z :=
  map (fun i => startIssue + Z.of_nat i)
      (seq 0 (Z.to_nat (endIssue - startIssue + 1))).

(** A range that the scraper accepts and whose numbers are exact: it
    starts at 1 or above, is not empty, ends at a safe integer and has at
    most as many issues as an array can hold. *)
Definition validRange (startIssue endIssue : Z) : Prop :=
  1 <= startIssue <= endIssue
  /\ endIssue <= JsNumber.MAX_SAFE_INTEGER
  /\ endIssue - startIssue + 1 <= JsNumber.MAX_ARRAY_LENGTH.

Lemma issueNumbers_range (startIssue endIssue : Z) :
  endIssue - startIssue + 1 <= JsNumber.MAX_ARRAY_LENGTH ->
  issueNumbers startIssue endIssue = Some (range startIssue endIssue).
Proof.
  intros H. unfold issueNumbers, arrayFrom.
  destruct (_ <? _) eqn:E; [apply Z.ltb_lt in E; lia | reflexivity].
Qed.

Lemma issueNumbers_too_long (startIssue endIssue : Z) :
  JsNumber.MAX_ARRAY_LENGTH < endIssue - startIssue + 1 ->
  issueNumbers startIssue endIssue = None.
Proof.
  intros H. unfold issueNumbers, arrayFrom.
  destruct (_ <? _) eqn:E; [reflexivity | apply Z.ltb_ge in E; lia].
Qed.

Lemma in_issueNumbers (startIssue endIssue z : Z) :
  In z (range startIssue endIssue)
  <-> startIssue <= z <= endIssue.
Proof.
  unfold range. rewrite in_map_iff. split.
  - intros (i & <- & Hi). apply in_seq in Hi. lia.
  - intros H. exists (Z.to_nat (z - startIssue)). split; [lia|].
    apply in_seq. lia.
Qed.

Lemma ascending_from (startIssue : Z) (a n : nat) :
  StronglySorted IssueKey.lt
    (map (fun i => Some (startIssue + Z.of_nat i)) (seq a n)).
Proof.
  revert a. induction n as [|n IH]; intros a; simpl; constructor.
  - apply IH.
  - rewrite Forall_map, Forall_forall. intros i Hi. apply in_seq in Hi.
    simpl. lia.
Qed.

Lemma nth_seq (a n i : nat) :
  (i < n)%nat -> nth_error (seq a n) i = Some (a + i)%nat.
Proof.
  revert a i. induction n as [|n IH]; intros a i Hi; [lia|].
  destruct i as [|i]; simpl.
  - f_equal. lia.
  - rewrite IH by lia. f_equal. lia.
Qed.

Lemma keys_of_records (ns : list Z) :
  map IssueData.issueNumber (map recordOf ns) = map Some ns.
Proof.
  rewrite map_map. apply map_ext. intros n. apply recordOf_spec.
Qed.

(** X18. On safe integers, [scrapeAmazingSpiderManVol1] throws when the
    first issue is below 1, when the last issue is below the first, and
    when the range holds more issues than an array can hold. Otherwise it
    returns the series "Amazing Spider-Man Vol 1" with one record per
    issue number from the first to the last, in strictly ascending order,
    whatever the network does. *)
Theorem scrape_range_and_records (startIssue endIssue : Z) :
  JsNumber.isSafeInteger startIssue -> JsNumber.isSafeInteger endIssue ->
  (startIssue < 1 \/ endIssue < startIssue
   \/ JsNumber.MAX_ARRAY_LENGTH < endIssue - startIssue + 1 ->
   exists message,
     scrapeAmazingSpiderManVol1 get (Some startIssue) (Some endIssue)
     = Failed message)
  /\ (1 <= startIssue <= endIssue ->
      endIssue - startIssue + 1 <= JsNumber.MAX_ARRAY_LENGTH ->
      exists issues,
        scrapeAmazingSpiderManVol1 get (Some startIssue) (Some endIssue)
        = Done (RawVillainData.make (js "Amazing Spider-Man Vol 1")
                  AMAZING_SPIDER_MAN_URL_TEMPLATE
                  (RawVillainData.IssueArray issues))
        /\ Z.of_nat (List.length issues) = endIssue - startIssue + 1
        /\ StronglySorted IssueKey.lt (map IssueData.issueNumber issues)
        /\ forall k, In k (map IssueData.issueNumber issues)
                     <-> exists z, k = Some z /\ startIssue <= z <= endIssue).
Proof.
  intros _ _. unfold scrapeAmazingSpiderManVol1. split.
  - intros H.
    destruct ((startIssue <? 1) || (endIssue <? startIssue)) eqn:E;
      [eexists; reflexivity|].
    apply orb_false_iff in E. destruct E as [E1 E2].
    apply Z.ltb_ge in E1, E2.
    rewrite issueNumbers_too_long by lia. eexists. reflexivity.
  - intros H Hlen.
    assert (E : (startIssue <? 1) || (endIssue <? startIssue) = false).
    { apply orb_false_iff. split; apply Z.ltb_ge; lia. }
    rewrite E, (issueNumbers_range _ _ Hlen), scrapeNext_records. simpl.
    eexists. split; [reflexivity|]. rewrite keys_of_records. split; [|split].
    + unfold range. rewrite !length_map, length_seq. lia.
    + unfold range. rewrite map_map. apply ascending_from.
    + intros k. rewrite in_map_iff. split.
      * intros (z & <- & Hz). exists z. split; [reflexivity|].
        now apply in_issueNumbers.
      * intros (z & -> & Hz). exists z. split; [reflexivity|].
        now apply in_issueNumbers.
Qed.

Lemma scrape_valid (startIssue endIssue : Z) :
  validRange startIssue endIssue ->
  scrapeAmazingSpiderManVol1 get (Some startIssue) (Some endIssue)
  = Done (RawVillainData.make (js "Amazing Spider-Man Vol 1")
            AMAZING_SPIDER_MAN_URL_TEMPLATE
            (RawVillainData.IssueArray
               (map recordOf (range startIssue endIssue)))).
Proof.
  intros (H & _ & Hlen). unfold scrapeAmazingSpiderManVol1.
  assert (E : (startIssue <? 1) || (endIssue <? startIssue) = false).
  { apply orb_false_iff. split; apply Z.ltb_ge; lia. }
  now rewrite E, (issueNumbers_range _ _ Hlen), scrapeNext_records.
Qed.

Lemma nth_range (startIssue endIssue n : Z) :
  startIssue <= n <= endIssue ->
  nth_error (map recordOf (range startIssue endIssue))
            (Z.to_nat (n - startIssue))
  = Some (recordOf n).
Proof.
  intros Hn. unfold range. rewrite map_map, nth_error_map.
  rewrite nth_seq by lia. simpl.
  now replace (startIssue + Z.of_nat (Z.to_nat (n - startIssue)))
    with n by lia.
Qed.

(** X19. A failed fetch does not abort the run. For every issue number of
    a valid range (from 1 on, safe integers, no more issues than an array
    can hold), the result holds the record of that issue: with the names
    extracted from the page when the request was answered with a page, and
    the placeholder titled "Issue n (Failed)" without any name when the
    request failed or came back empty. *)
Theorem scrape_record_of_each_issue (startIssue endIssue n : Z) :
  validRange startIssue endIssue -> startIssue <= n <= endIssue ->
  exists issues record,
    scrapeAmazingSpiderManVol1 get (Some startIssue) (Some endIssue)
    = Done (RawVillainData.make (js "Amazing Spider-Man Vol 1")
              AMAZING_SPIDER_MAN_URL_TEMPLATE
              (RawVillainData.IssueArray issues))
    /\ nth_error issues (Z.to_nat (n - startIssue)) = Some record
    /\ IssueData.issueNumber record = Some n
    /\ match get (getIssueUrl n) with
       | Resolved (Some document) =>
           IssueData.antagonists record = parseAntagonistsFromHtml document
           /\ IssueData.title record
              = js "Amazing Spider-Man #" ++ numberToString n
       | _ =>
           IssueData.antagonists record = []
           /\ IssueData.title record
              = js "Issue " ++ numberToString n ++ js " (Failed)"
       end.
Proof.
  intros Hrange Hn.
  exists (map recordOf (range startIssue endIssue)), (recordOf n).
  split; [now apply scrape_valid|]. split; [now apply nth_range|]. split.
  - apply recordOf_spec.
  - destruct (recordOf_spec n) as [_ H].
    destruct (get (getIssueUrl n)) as [[document|] | status message | message];
      rewrite H; split; reflexivity.
Qed.

End WithNetwork.

Ltac safe_numbers :=
  unfold validRange, JsNumber.isSafeInteger, JsNumber.MAX_SAFE_INTEGER,
    JsNumber.MAX_ARRAY_LENGTH; lia.

Lemma scrape_range_and_records_witness :
  (exists message,
      scrapeAmazingSpiderManVol1 MarvelScraperExamples.onlyIssue2
        (Some 0) (Some 5) = Failed message)
  /\ (exists message,
        scrapeAmazingSpiderManVol1 MarvelScraperExamples.onlyIssue2
          (Some 1) (Some 4294967296) = Failed message)
  /\ exists issues,
      scrapeAmazingSpiderManVol1 MarvelScraperExamples.onlyIssue2
        (Some 1) (Some 2)
      = Done (RawVillainData.make (js "Amazing Spider-Man Vol 1")
                AMAZING_SPIDER_MAN_URL_TEMPLATE
                (RawVillainData.IssueArray issues))
      /\ Z.of_nat (List.length issues) = 2.
Proof.
  split; [|split].
  - apply (proj1 (@scrape_range_and_records
                    MarvelScraperExamples.onlyIssue2 0 5
                    ltac:(safe_numbers) ltac:(safe_numbers))). lia.
  - apply (proj1 (@scrape_range_and_records
                    MarvelScraperExamples.onlyIssue2 1 4294967296
                    ltac:(safe_numbers) ltac:(safe_numbers))).
    right. right. safe_numbers.
  - destruct (proj2 (@scrape_range_and_records
                       MarvelScraperExamples.onlyIssue2 1 2
                       ltac:(safe_numbers) ltac:(safe_numbers)))
      as (issues & E & Hlen & _); [lia | safe_numbers |].
    exists issues. split; [exact E | exact Hlen].
Defined.

Lemma scrape_record_of_each_issue_witness :
  exists issues record,
    scrapeAmazingSpiderManVol1 MarvelScraperExamples.onlyIssue2
      (Some 1) (Some 2)
    = Done (RawVillainData.make (js "Amazing Spider-Man Vol 1")
              AMAZING_SPIDER_MAN_URL_TEMPLATE
              (RawVillainData.IssueArray issues))
    /\ nth_error issues 0 = Some record
    /\ IssueData.antagonists record = [].
Proof.
  destruct (@scrape_record_of_each_issue MarvelScraperExamples.onlyIssue2
              1 2 1) as (issues & record & E & Hnth & _ & Hrec);
    [safe_numbers | lia |].
  exists issues, record. split; [exact E|]. split; [exact Hnth|].
  assert (Hget : MarvelScraperExamples.onlyIssue2 (getIssueUrl 1)
                 = AxiosError (Some 404)
                     (js "Request failed with status code 404"))
    by (vm_compute; reflexivity).
  rewrite Hget in Hrec. apply Hrec.
Defined.

End ScrapeFacts.

(* ================================================================== *)
(** ** index.ts: scraping, then aggregating *)

Module Pipeline.
Import JsString Dom Scraper MarvelScraper ScrapeFacts DataProcessor
       IndexFacts RegistryFacts Registry.

Local Abbreviation apps := ProcessedVillain.appearances.
Local Abbreviation firstApp := ProcessedVillain.firstAppearance.

Section WithNetwork.
Variable get : jsstring -> httpResult.

(** What [runScraper] hands to [processVillainData]. *)
Definition scraped (startIssue endIssue : Z) : RawVillainData.t :=
  RawVillainData.make (js "Amazing Spider-Man Vol 1")
    AMAZING_SPIDER_MAN_URL_TEMPLATE
    (RawVillainData.IssueArray
       (map (recordOf get) (range startIssue endIssue))).

Lemma scrape_scraped (startIssue endIssue : Z) :
  validRange startIssue endIssue ->
  scrapeAmazingSpiderManVol1 get (Some startIssue) (Some endIssue)
  = Done (scraped startIssue endIssue).
Proof. apply scrape_valid. Qed.

Lemma scraped_keys (startIssue endIssue : Z) :
  map IssueData.issueNumber
      (map (recordOf get) (range startIssue endIssue))
  = map Some (range startIssue endIssue).
Proof. apply keys_of_records. Qed.

Lemma scraped_keys_sorted (startIssue endIssue : Z) :
  StronglySorted IssueKey.lt (map Some (range startIssue endIssue)).
Proof. unfold range. rewrite map_map. apply ascending_from. Qed.

Lemma no_names_at (n : Z) :
  (forall document,
      get (getIssueUrl n) = Resolved (Some document) ->
      parseAntagonistsFromHtml document = []) ->
  IssueData.antagonists (recordOf get n) = [].
Proof.
  intros H. destruct (recordOf_spec get n) as [_ Hrec].
  destruct (get (getIssueUrl n)) as [[document|] | status message | message];
    rewrite Hrec; simpl; [now apply H | reflexivity..].
Qed.

(** X20. Scraping a valid range (from 1 on, safe integers, no more issues
    than an array can hold) and aggregating the result never fails. The
    timeline has one slot per issue number of the range, in ascending
    order; the slot of an issue whose fetch failed, or whose page gave no
    name, is empty with count 0; and no villain appears outside the
    range. *)
Theorem scraped_timeline (now : jsstring) (startIssue endIssue : Z) :
  validRange startIssue endIssue ->
  exists raw out,
    scrapeAmazingSpiderManVol1 get (Some startIssue) (Some endIssue)
    = Done raw
    /\ processVillainData now (Some raw) = Completion.Return out
    /\ map TimelineData.issue (ProcessedData.timeline out)
       = map Some (range startIssue endIssue)
    /\ (forall n,
          startIssue <= n <= endIssue ->
          (forall document,
              get (getIssueUrl n) = Resolved (Some document) ->
              parseAntagonistsFromHtml document = []) ->
          nth_error (ProcessedData.timeline out)
                    (Z.to_nat (n - startIssue))
          = Some (TimelineData.make (Some n) [] 0))
    /\ (forall v k,
          In v (ProcessedData.villains out) -> In k (apps v) ->
          exists z, k = Some z /\ startIssue <= z <= endIssue).
Proof.
  intros Hrange. exists (scraped startIssue endIssue). eexists.
  split; [now apply scrape_scraped|]. split; [reflexivity|]. simpl.
  set (issues := map (recordOf get) (range startIssue endIssue)).
  split; [|split].
  - unfold generateTimeline. rewrite map_map. simpl.
    apply scraped_keys.
  - intros n Hn Hnone.
    assert (Hnth : nth_error issues (Z.to_nat (n - startIssue))
                   = Some (recordOf get n)) by now apply nth_range.
    unfold generateTimeline. rewrite nth_error_map, Hnth. simpl.
    destruct (recordOf_spec get n) as [Hkey _]. rewrite Hkey.
    destruct (filter _ _) as [|v r] eqn:Ef; [reflexivity|]. exfalso.
    assert (Hv : In v (v :: r)) by now left.
    rewrite <- Ef in Hv. apply filter_In in Hv.
    destruct Hv as [Hv Hk]. apply KeyFacts.includes_In in Hk.
    destruct (@FailureSemantics.appearance_has_record issues v _ Hv Hk)
      as (other & Hin & Hother & Hne).
    unfold issues in Hin. apply in_map_iff in Hin.
    destruct Hin as (m & <- & _).
    destruct (recordOf_spec get m) as [Hm _]. rewrite Hm in Hother.
    injection Hother as ->. apply Hne. now apply no_names_at.
  - intros v k Hv Hk. rewrite values_sortAppearances in Hv.
    destruct (TimelineFacts.apps_within_keys issues v Hv) as (_ & _ & Hincl).
    apply Hincl in Hk. unfold issues in Hk. rewrite scraped_keys in Hk.
    apply in_map_iff in Hk. destruct Hk as (z & <- & Hz).
    exists z. split; [reflexivity | now apply in_issueNumbers].
Qed.

Lemma ascending_head (issues : list IssueData.t) (v : ProcessedVillain.t) :
  StronglySorted IssueKey.le (map IssueData.issueNumber issues) ->
  In v (map sortVillain (JsMap.values (buildVillainMap issues))) ->
  exists rest, apps v = firstApp v :: rest.
Proof.
  intros Hs Hv. apply output_villain in Hv.
  destruct Hv as (n & u & -> & Hin & (_ & _ & _ & [rest H4] & _) & [_ Hnd]).
  apply FirstAppearance.least_is_head.
  - simpl. now apply KeyFacts.sort_strict.
  - apply In_sorted. rewrite H4. now left.
  - pose proof (@FirstAppearance.recordEvents_firstIsLeast _
                  (@FirstAppearance.events_keys_sorted _ Hs)) as Hall.
    rewrite <- buildVillainMap_events in Hall.
    rewrite Forall_forall in Hall.
    assert (Hu : In u (JsMap.values (buildVillainMap issues))).
    { unfold JsMap.values. apply in_map_iff. exists (n, u). auto. }
    destruct (Hall u Hu) as [Hle _]. simpl.
    eapply Permutation_Forall;
      [apply Permutation_sym, KeyFacts.sort_perm | exact Hle].
Qed.

(** X21. On what the scraper returns for a valid range (from 1 on, safe
    integers, no more issues than an array can hold), the most frequent
    villain of the aggregation is one of maximal frequency, among those one
    of earliest first appearance, and among those the first seen; and the
    first appearance of every villain is the first, hence the least, of its
    appearances: the scraper delivers the records in ascending order of
    issue key. *)
Theorem scraped_order (now : jsstring) (startIssue endIssue : Z) :
  validRange startIssue endIssue ->
  exists raw out,
    scrapeAmazingSpiderManVol1 get (Some startIssue) (Some endIssue)
    = Done raw
    /\ processVillainData now (Some raw) = Completion.Return out
    /\ (ProcessedData.villains out <> [] ->
        MostFrequent.specMostFrequent (ProcessedData.villains out)
          (VillainStats.mostFrequent (ProcessedData.stats out)))
    /\ (forall v, In v (ProcessedData.villains out) ->
                  exists rest, apps v = firstApp v :: rest).
Proof.
  intros Hrange. exists (scraped startIssue endIssue). eexists.
  split; [now apply scrape_scraped|]. split; [reflexivity|]. simpl.
  set (issues := map (recordOf get) (range startIssue endIssue)).
  assert (Hs : StronglySorted IssueKey.le
                 (map IssueData.issueNumber issues)).
  { unfold issues. rewrite scraped_keys.
    apply KeyFacts.sorted_lt_le, scraped_keys_sorted. }
  split.
  - intros Hne. apply MostFrequent.spec_of_first.
    + rewrite values_sortAppearances, MostFrequent.firstApp_sortVillain.
      apply MostFrequent.firstApp_sorted; [exact Hs | constructor..].
    + now apply (@Summary.mostFrequent_of_values _ issues).
  - intros v Hv. rewrite values_sortAppearances in Hv.
    now apply (ascending_head issues).
Qed.

End WithNetwork.

Lemma scraped_timeline_witness :
  exists raw out,
    scrapeAmazingSpiderManVol1 MarvelScraperExamples.onlyIssue2
      (Some 1) (Some 2) = Done raw
    /\ processVillainData [] (Some raw) = Completion.Return out
    /\ nth_error (ProcessedData.timeline out) 0
       = Some (TimelineData.make (Some 1) [] 0).
Proof.
  destruct (@scraped_timeline MarvelScraperExamples.onlyIssue2 [] 1 2)
    as (raw & out & E & Hout & _ & Hslot & _); [safe_numbers|].
  exists raw, out. split; [exact E|]. split; [exact Hout|].
  apply (Hslot 1); [lia|].
  assert (Hget : MarvelScraperExamples.onlyIssue2 (getIssueUrl 1)
                 = AxiosError (Some 404)
                     (js "Request failed with status code 404"))
    by (vm_compute; reflexivity).
  intros document H. rewrite Hget in H. discriminate H.
Defined.

Lemma scraped_order_witness :
  exists raw out,
    scrapeAmazingSpiderManVol1 MarvelScraperExamples.onlyIssue2
      (Some 1) (Some 2) = Done raw
    /\ processVillainData [] (Some raw) = Completion.Return out
    /\ (ProcessedData.villains out <> [] ->
        MostFrequent.specMostFrequent (ProcessedData.villains out)
          (VillainStats.mostFrequent (ProcessedData.stats out))).
Proof.
  destruct (@scraped_order MarvelScraperExamples.onlyIssue2 [] 1 2)
    as (raw & out & E & Hout & Hspec & _); [safe_numbers|].
  exists raw, out. split; [exact E|]. split; [exact Hout | exact Hspec].
Defined.

End Pipeline.
